(** * react-query-lite: the cache engine of the module [react-query-lite]

    A shallow embedding of [QueryClient.getQuery], [createQuery] (the Query
    object and its methods [subscribe], [scheduleGC], [unscheduleGC],
    [setState] and [fetch]) and [createQueryObserver] (the Observer and its
    methods [subscribe], [fetch] and [getResult]).

    JavaScript objects live in stores indexed by their identity; the methods
    are computations in a state-and-exception monad over one [World]: the
    client, the stores, the timer table of [setTimeout], the promises of the
    [async] arrow in [fetch], the clock read by [Date.now()] and the log of
    the calls made to the two kinds of opaque callbacks (the fetch operation
    [queryFn] and the listeners behind [notify]). A listener does nothing
    but get called: it neither throws nor calls back into the engine, as
    the [rerender] of [useQuery]; the log records with each call of a
    listener the state that [getResult] returns at that moment. The
    built-ins [JSON.stringify] and [setTimeout] are those of a host, in
    which the engine is parametric.

    Around the engine, the render of [useQuery] (its effect and cleanup are
    [observer.subscribe] and the closure it returns), [observer.getResult],
    the focus handler of [QueryClientProvider] ([observer.fetch] on every
    subscriber of every registered Query) and the client's own listener
    list ([client.subscribe], [client.notify]), which touches nothing
    else. *)

From Stdlib Require Import ZArith String List Bool Lia.
From stdpp Require Import base decidable option list strings.
Import ListNotations.
Open Scope Z_scope.
Set Warnings "-register-all".

(** ** Values and identities *)

(** The JavaScript values that travel through the cache: keys, fetched data
    and failures. *)
Inductive Val :=
| VUndefined
| VNull
| VBool (b : bool)
| VNum (z : Z)
| VStr (s : string)
| VArr (l : list Val).

(** Object identities ([===] on objects) and handles: positions in the
    stores of the [World]. *)
Abbreviation QueryId := nat (only parsing).
Abbreviation ObserverId := nat (only parsing).
Abbreviation PromiseId := nat (only parsing).
Abbreviation TimerId := nat (only parsing).

(** Callbacks are opaque: a fetch operation and a listener are known by
    name, and every call to one is logged. *)
Abbreviation FetchOp := string (only parsing).
Abbreviation Listener := string (only parsing).

(** ** The data model *)

Inductive Status := s_loading | s_success | s_error.

(** [query.state]; [lastUpdated] is absent (undefined) until the first
    success. *)
Record QueryState := mkState {
  status : Status;
  isFetching : bool;
  data : Val;
  error : Val;
  lastUpdated : option Z
}.

(** The object built by [createQuery]. [cacheTime] is not a property of the
    object but a variable captured by its [scheduleGC] closure, as [queryFn]
    is captured by [fetch]. *)
Record Query := mkQuery {
  queryKey : Val;
  queryFn : FetchOp;
  queryHash : option string;
  promise : option PromiseId;
  subscribers : list ObserverId;
  gcTimeout : option TimerId;
  state : QueryState;
  cacheTime : Z
}.

(** The object built by [createQueryObserver]: [query] and [staleTime] are
    captured variables, [notify] is [None] while it is the initial
    [() => { }]. *)
Record Observer := mkObserver {
  query : QueryId;
  staleTime : Z;
  notify : option Listener
}.

(** The promise returned by the [async] arrow of [fetch]: pending while the
    arrow is suspended at [await queryFn()] (it then resumes on query [q]). *)
Inductive Promise :=
| Pending (q : QueryId)
| Fulfilled
| Rejected (e : Val).

(** A pending [setTimeout] of [scheduleGC]: its callback removes [target]
    from [client.queries]. *)
Record Timer := mkTimer {
  due : Z;
  target : QueryId
}.

(** The log: a call of a fetch operation, and a call of the listener behind
    an Observer's [notify], with what the listener finds when it is called:
    the state that the Observer's [getResult()] returns at that moment. *)
Inductive Event :=
| EvCall (q : QueryId) (f : FetchOp)
| EvNotify (o : ObserverId) (cb : option Listener) (seen : option QueryState).

Record World := mkWorld {
  now : Z;
  queries : list QueryId;
  heap : list Query;
  observers : list Observer;
  promises : list Promise;
  timers : list (option Timer);
  trace : list Event
}.

(** The options object of [useQuery], [createQueryObserver], [getQuery] and
    [createQuery]; [None] is an omitted (undefined) property. *)
Record Options := mkOptions {
  opt_queryKey : Val;
  opt_queryFn : FetchOp;
  opt_staleTime : option Z;
  opt_cacheTime : option Z
}.

(** What the call [queryFn()] does before [await] sees its result: it
    returns (a promise, or a plain value), or it throws. *)
Inductive CallResult :=
| Returns
| Throws (e : Val).

(** How the awaited promise settles. *)
Inductive Outcome :=
| Resolved (d : Val)
| Failed (e : Val).

(** The closure returned by [query.subscribe(subscriber)]. *)
Record Unsubscribe := mkUnsubscribe {
  unsub_query : QueryId;
  unsub_subscriber : ObserverId
}.

(** ** Field updates *)

Definition set_state (s : QueryState) (Q : Query) : Query :=
  mkQuery (queryKey Q) (queryFn Q) (queryHash Q) (promise Q) (subscribers Q)
    (gcTimeout Q) s (cacheTime Q).
Definition set_promise (p : option PromiseId) (Q : Query) : Query :=
  mkQuery (queryKey Q) (queryFn Q) (queryHash Q) p (subscribers Q)
    (gcTimeout Q) (state Q) (cacheTime Q).
Definition set_subscribers (l : list ObserverId) (Q : Query) : Query :=
  mkQuery (queryKey Q) (queryFn Q) (queryHash Q) (promise Q) l
    (gcTimeout Q) (state Q) (cacheTime Q).
Definition set_gcTimeout (t : option TimerId) (Q : Query) : Query :=
  mkQuery (queryKey Q) (queryFn Q) (queryHash Q) (promise Q) (subscribers Q)
    t (state Q) (cacheTime Q).
Definition set_notify (cb : option Listener) (ob : Observer) : Observer :=
  mkObserver (query ob) (staleTime ob) cb.

Definition with_queries (l : list QueryId) (w : World) : World :=
  mkWorld (now w) l (heap w) (observers w) (promises w) (timers w) (trace w).
Definition with_heap (h : list Query) (w : World) : World :=
  mkWorld (now w) (queries w) h (observers w) (promises w) (timers w) (trace w).
Definition with_observers (l : list Observer) (w : World) : World :=
  mkWorld (now w) (queries w) (heap w) l (promises w) (timers w) (trace w).
Definition with_promises (l : list Promise) (w : World) : World :=
  mkWorld (now w) (queries w) (heap w) (observers w) l (timers w) (trace w).
Definition with_timers (l : list (option Timer)) (w : World) : World :=
  mkWorld (now w) (queries w) (heap w) (observers w) (promises w) l (trace w).
Definition with_trace (l : list Event) (w : World) : World :=
  mkWorld (now w) (queries w) (heap w) (observers w) (promises w) (timers w) l.
Definition with_now (t : Z) (w : World) : World :=
  mkWorld t (queries w) (heap w) (observers w) (promises w) (timers w) (trace w).

(** ** The monad: state and JavaScript exceptions *)

Inductive Res (A : Type) :=
| Normal (a : A)
| Thrown (e : Val).
Arguments Normal {A} a.
Arguments Thrown {A} e.

Definition M (A : Type) : Type := World -> Res A * World.

Definition ret {A} (a : A) : M A := fun w => (Normal a, w).
Definition throw {A} (e : Val) : M A := fun w => (Thrown e, w).
Definition bind {A B} (m : M A) (k : A -> M B) : M B :=
  fun w =>
    match m w with
    | (Normal a, w') => k a w'
    | (Thrown e, w') => (Thrown e, w')
    end.

Notation "x <- m ;; k" := (bind m (fun x => k))
  (at level 100, m at next level, right associativity).
Notation "m ;;; k" := (bind m (fun _ => k))
  (at level 100, right associativity).

Definition gets {A} (f : World -> A) : M A := fun w => (Normal (f w), w).
Definition modify (f : World -> World) : M unit := fun w => (Normal tt, f w).

(** [try { body } catch (e) { handler e } finally { fin }]. *)
Definition try_catch_finally (body : M unit) (handler : Val -> M unit)
    (fin : M unit) : M unit :=
  fun w =>
    let '(r, w1) :=
      match body w with
      | (Normal a, w') => (Normal a, w')
      | (Thrown e, w') => handler e w'
      end in
    match fin w1 with
    | (Normal _, w2) => (r, w2)
    | (Thrown e, w2) => (Thrown e, w2)
    end.

(** [l.forEach(f)]. *)
Fixpoint forEach {A} (f : A -> M unit) (l : list A) : M unit :=
  match l with
  | [] => ret tt
  | x :: l' => f x ;;; forEach f l'
  end.

(** The state an operation leaves and the value it returns. *)
Definition exec {A} (m : M A) (w : World) : World := snd (m w).
Definition result {A} (m : M A) (w : World) : Res A := fst (m w).

(** ** The host

    [JSON.stringify] and [setTimeout] are built-ins of the platform: the
    engine is parametric in what they do. [JSON_stringify] is [None] when
    the result is undefined (as for an undefined key); [===] on hashes is
    equality of these. [setTimeout] keeps a delay of 1 to 2^31 - 1 ms as
    it is; [replaced_delay] is what the host makes of any other delay (a
    browser converts the delay to a signed 32-bit integer and takes 0 for a
    negative one; Node.js takes 1 ms). *)
Class Host := {
  JSON_stringify : Val -> option string;
  replaced_delay : Z -> Z
}.

Definition TIMEOUT_MAX : Z := 2147483647.

(** The delay that [setTimeout] keeps of the one it is given. *)
Definition timer_delay `{Host} (delay : Z) : Z :=
  if (1 <=? delay) && (delay <=? TIMEOUT_MAX) then delay else replaced_delay delay.

(** The two hosts' replacements. *)
Definition to_int32 (z : Z) : Z := (z + 2147483648) mod 4294967296 - 2147483648.
Definition browser_delay (delay : Z) : Z := Z.max 0 (to_int32 delay).
Definition node_delay (delay : Z) : Z := 1.

(** ** Primitive accesses *)

(** Dereferencing an identity that holds no object cannot happen in the
    source; here it throws, like a property access on undefined. *)
Definition TypeError : Val := VStr "TypeError".

Definition read_query (q : QueryId) : M Query :=
  fun w => match heap w !! q with
           | Some Q => (Normal Q, w)
           | None => (Thrown TypeError, w)
           end.
Definition read_observer (o : ObserverId) : M Observer :=
  fun w => match observers w !! o with
           | Some ob => (Normal ob, w)
           | None => (Thrown TypeError, w)
           end.
Definition modify_query (q : QueryId) (f : Query -> Query) : M unit :=
  modify (fun w => with_heap (alter f q (heap w)) w).
Definition modify_observer (o : ObserverId) (f : Observer -> Observer) : M unit :=
  modify (fun w => with_observers (alter f o (observers w)) w).
Definition emit (ev : Event) : M unit :=
  modify (fun w => with_trace (trace w ++ [ev]) w).

(** [Date.now()]. *)
Definition Date_now : M Z := gets now.

(** [setTimeout(() => { client.queries = client.queries.filter(d => d !== query) }, delay)]:
    the timer is due after the delay that the host keeps. *)
Definition setTimeout `{Host} (q : QueryId) (delay : Z) : M TimerId :=
  fun w =>
    (Normal (length (timers w)),
     with_timers (timers w ++ [Some (mkTimer (now w + timer_delay delay) q)]) w).

(** [clearTimeout(handle)]: nothing happens for [null] and for a timer that
    has fired or was cleared. *)
Definition clearTimeout (t : option TimerId) : M unit :=
  match t with
  | None => ret tt
  | Some i => modify (fun w => with_timers (<[i := None]> (timers w)) w)
  end.

(** ** Query *)

(** The updater arrows that [fetch] passes to [setState], in source order. *)
Definition fetch_start (old : QueryState) : QueryState :=
  mkState (status old) true (data old) VUndefined (lastUpdated old).
Definition fetch_success (d : Val) (t : Z) (old : QueryState) : QueryState :=
  mkState s_success (isFetching old) d (error old) (Some t).
Definition fetch_failure (e : Val) (old : QueryState) : QueryState :=
  mkState s_error (isFetching old) (data old) e (lastUpdated old).
Definition fetch_settle (old : QueryState) : QueryState :=
  mkState (status old) false (data old) (error old) (lastUpdated old).

Definition initial_state : QueryState :=
  mkState s_loading true VUndefined VUndefined None.

Definition default_cacheTime : Z := 5 * 60 * 1000.
Definition default_staleTime : Z := 0.

(** The object literal of [createQuery], with the default of the
    destructured parameter [cacheTime = 5 * 60 * 1000]. *)
Definition new_query `{Host} (opts : Options) : Query :=
  mkQuery (opt_queryKey opts) (opt_queryFn opts)
    (JSON_stringify (opt_queryKey opts)) None [] None initial_state
    (default default_cacheTime (opt_cacheTime opts)).

(** [createQuery(client, { queryKey, queryFn, cacheTime = 5 * 60 * 1000 })]:
    the new object gets the next identity. *)
Definition createQuery `{Host} (opts : Options) : M QueryId :=
  fun w => (Normal (length (heap w)), with_heap (heap w ++ [new_query opts]) w).

(** [subscriber.notify()]: the listener behind it is called, which the log
    records. *)
Definition call_notify (o : ObserverId) : M unit :=
  ob <- read_observer o ;;
  seen <- gets (fun w => state <$> heap w !! query ob) ;;
  emit (EvNotify o (notify ob) seen).

(** [query.setState(updater)]. *)
Definition setState (q : QueryId) (updater : QueryState -> QueryState) : M unit :=
  modify_query q (fun Q => set_state (updater (state Q)) Q) ;;;
  Q <- read_query q ;;
  forEach call_notify (subscribers Q).

(** [query.scheduleGC()]. *)
Definition scheduleGC `{Host} (q : QueryId) : M unit :=
  Q <- read_query q ;;
  t <- setTimeout q (cacheTime Q) ;;
  modify_query q (set_gcTimeout (Some t)).

(** [query.unscheduleGC()]. *)
Definition unscheduleGC (q : QueryId) : M unit :=
  Q <- read_query q ;;
  clearTimeout (gcTimeout Q).

(** [query.subscribe(subscriber)]. *)
Definition query_subscribe (q : QueryId) (subscriber : ObserverId) : M Unsubscribe :=
  modify_query q (fun Q => set_subscribers (subscribers Q ++ [subscriber]) Q) ;;;
  unscheduleGC q ;;;
  ret (mkUnsubscribe q subscriber).

(** Calling the closure that [query.subscribe] returned. *)
Definition unsubscribe `{Host} (u : Unsubscribe) : M unit :=
  let q := unsub_query u in
  modify_query q (fun Q =>
    set_subscribers (filter (fun d => d <> unsub_subscriber u) (subscribers Q)) Q) ;;;
  Q <- read_query q ;;
  if (length (subscribers Q) =? 0)%nat then scheduleGC q else ret tt.

(** The [async] arrow of [fetch] from the point where [await queryFn()]
    delivers: the rest of the [try] block, then [catch] and [finally]. *)
Definition fetch_continue (q : QueryId) (x : Outcome) : M unit :=
  try_catch_finally
    (match x with
     | Resolved d => t <- Date_now ;; setState q (fetch_success d t)
     | Failed e => throw e
     end)
    (fun e => setState q (fetch_failure e))
    (modify_query q (set_promise None) ;;; setState q fetch_settle).

(** The [async] arrow of [fetch], called: it runs up to [await], where it
    suspends when [queryFn()] returned, and it runs to its end when
    [queryFn()] threw. Its promise is the new object. *)
Definition fetch_async (q : QueryId) (r : CallResult) : M PromiseId :=
  fun w =>
    let body : M bool :=
      setState q fetch_start ;;;
      Q <- read_query q ;;
      emit (EvCall q (queryFn Q)) ;;;
      match r with
      | Returns => ret true
      | Throws e => fetch_continue q (Failed e) ;;; ret false
      end in
    let '(r', w') := body w in
    let p := match r' with
             | Normal true => Pending q
             | Normal false => Fulfilled
             | Thrown e => Rejected e
             end in
    (Normal (length (promises w')), with_promises (promises w' ++ [p]) w').

(** [query.fetch()]. *)
Definition query_fetch (q : QueryId) (r : CallResult) : M (option PromiseId) :=
  Q <- read_query q ;;
  (match promise Q with
   | None => p <- fetch_async q r ;; modify_query q (set_promise (Some p))
   | Some _ => ret tt
   end) ;;;
  Q' <- read_query q ;;
  ret (promise Q').

(** The awaited promise settles: the suspended arrow behind promise [p]
    resumes and [p] settles with how the arrow ends. *)
Definition settle (p : PromiseId) (x : Outcome) : M unit :=
  fun w =>
    match promises w !! p with
    | Some (Pending q) =>
        let '(r, w') := fetch_continue q x w in
        let s := match r with
                 | Normal _ => Fulfilled
                 | Thrown e => Rejected e
                 end in
        (Normal tt, with_promises (<[p := s]> (promises w')) w')
    | _ => (Normal tt, w)
    end.

(** ** QueryClient *)

(** [d?.queryHash === queryHash]. *)
Definition hash_matches (w : World) (queryHash' : option string) (d : QueryId) : bool :=
  match heap w !! d with
  | Some Q => bool_decide (queryHash Q = queryHash')
  | None => false
  end.

(** [client.getQuery(options)]. *)
Definition getQuery `{Host} (opts : Options) : M QueryId :=
  let queryHash' := JSON_stringify (opt_queryKey opts) in
  found <- gets (fun w => find (hash_matches w queryHash') (queries w)) ;;
  match found with
  | Some q => ret q
  | None =>
      q <- createQuery opts ;;
      modify (fun w => with_queries (queries w ++ [q]) w) ;;;
      ret q
  end.

(** ** Observer *)

(** The object literal of [createQueryObserver], with the default of the
    destructured parameter [staleTime = 0]. *)
Definition new_observer (q : QueryId) (opts : Options) : Observer :=
  mkObserver q (default default_staleTime (opt_staleTime opts)) None.

(** [createQueryObserver(client, { queryKey, queryFn, staleTime = 0, cacheTime })]. *)
Definition createQueryObserver `{Host} (opts : Options) : M ObserverId :=
  q <- getQuery (mkOptions (opt_queryKey opts) (opt_queryFn opts) None (opt_cacheTime opts)) ;;
  fun w =>
    (Normal (length (observers w)), with_observers (observers w ++ [new_observer q opts]) w).

(** [!query.state.lastUpdated || Date.now() - query.state.lastUpdated > staleTime]:
    an absent [lastUpdated] and the number 0 are falsy. *)
Definition is_stale (t : Z) (lu : option Z) (staleTime' : Z) : bool :=
  match lu with
  | None => true
  | Some t0 => (t0 =? 0) || (staleTime' <? t - t0)
  end.

(** [observer.fetch()]. *)
Definition observer_fetch (o : ObserverId) (r : CallResult) : M unit :=
  ob <- read_observer o ;;
  Q <- read_query (query ob) ;;
  t <- Date_now ;;
  if is_stale t (lastUpdated (state Q)) (staleTime ob)
  then query_fetch (query ob) r ;;; ret tt
  else ret tt.

(** [observer.subscribe(callback)]. *)
Definition observer_subscribe (o : ObserverId) (callback : Listener) (r : CallResult)
    : M Unsubscribe :=
  modify_observer o (set_notify (Some callback)) ;;;
  ob <- read_observer o ;;
  unsub <- query_subscribe (query ob) o ;;
  observer_fetch o r ;;;
  ret unsub.

(** ** Time *)

Definition is_due (t : Z) (tm : option Timer) : bool :=
  match tm with
  | Some x => due x <=? t
  | None => false
  end.

(** The callback of [scheduleGC]'s timer. *)
Definition gc_callback (q : QueryId) (w : World) : World :=
  with_queries (filter (fun d => d <> q) (queries w)) w.

(** The Queries whose timers are due at time [t], and the timer table
    once these have fired. *)
Definition due_targets (t : Z) (tms : list (option Timer)) : list QueryId :=
  omap (fun tm => if is_due t tm then target <$> tm else None) tms.
Definition expire (t : Z) (tms : list (option Timer)) : list (option Timer) :=
  map (fun tm => if is_due t tm then None else tm) tms.

(** The timers that are due fire once each, in the order they were set
    (their callbacks commute, so that the order among them is immaterial). *)
Definition run_timers : M unit :=
  modify (fun w =>
    fold_left (fun w' q => gc_callback q w')
      (due_targets (now w) (timers w))
      (with_timers (expire (now w) (timers w)) w)).

(** [dt] milliseconds pass (none when [dt] is negative), then the event
    loop runs the timers that are due. *)
Definition tick (dt : Z) : M unit :=
  modify (fun w => with_now (now w + Z.max 0 dt) w) ;;;
  run_timers.

(** A client just constructed, at clock [t]. *)
Definition new_client (t : Z) : World := mkWorld t [] [] [] [] [] [].

(** ** Vocabulary of the properties *)

(** The listener behind [observer.notify] now. *)
Definition listener_of (w : World) (o : ObserverId) : option Listener :=
  match observers w !! o with
  | Some ob => notify ob
  | None => None
  end.

(** What [observer.getResult()] returns now. *)
Definition seen_by (w : World) (o : ObserverId) : option QueryState :=
  match observers w !! o with
  | Some ob => state <$> heap w !! query ob
  | None => None
  end.

(** One notification round over a subscriber list, in list order, run in
    [w]: the listeners find the states of [w]. *)
Definition round (w : World) (l : list ObserverId) : list Event :=
  map (fun o => EvNotify o (listener_of w o) (seen_by w o)) l.

Definition subs_of (w : World) (q : QueryId) : list ObserverId :=
  match heap w !! q with
  | Some Q => subscribers Q
  | None => []
  end.

(** [q] is a Query object and its subscribers are Observer objects. *)
Definition query_ok (w : World) (q : QueryId) : Prop :=
  is_Some (heap w !! q) /\ Forall (fun o => is_Some (observers w !! o)) (subs_of w q).

Definition upd_query (q : QueryId) (f : Query -> Query) (w : World) : World :=
  with_heap (alter f q (heap w)) w.

(** What [setState] leaves: the new state, and in the log one round that
    was run with the new state in place. *)
Definition apply_state (q : QueryId) (f : QueryState -> QueryState) (w : World) : World :=
  let w1 := upd_query q (fun Q => set_state (f (state Q)) Q) w in
  with_trace (trace w ++ round w1 (subs_of w q)) w1.

(** A round run when [q] has state [s] and all else is as in [w]. *)
Definition round_at (w : World) (q : QueryId) (s : QueryState) (l : list ObserverId)
    : list Event :=
  round (upd_query q (set_state s) w) l.

(** The updater of the [try] or of the [catch] block, by outcome. *)
Definition outcome_update (x : Outcome) (t : Z) : QueryState -> QueryState :=
  match x with
  | Resolved d => fetch_success d t
  | Failed e => fetch_failure e
  end.

(** What [fetch_continue] leaves. *)
Definition continued (q : QueryId) (x : Outcome) (w : World) : World :=
  apply_state q fetch_settle
    (upd_query q (set_promise None)
       (apply_state q (outcome_update x (now w)) w)).

(** What the [async] arrow leaves when it reaches [await]: the start
    update and the call of the fetch operation [f]. *)
Definition begun (q : QueryId) (f : FetchOp) (w : World) : World :=
  let w1 := apply_state q fetch_start w in
  with_trace (trace w1 ++ [EvCall q f]) w1.

(** What [query.fetch()] leaves when no handle is stored. *)
Definition fetched (q : QueryId) (f : FetchOp) (r : CallResult) (w : World) : World :=
  upd_query q (set_promise (Some (length (promises w))))
    match r with
    | Returns => with_promises (promises w ++ [Pending q]) (begun q f w)
    | Throws e =>
        with_promises (promises w ++ [Fulfilled]) (continued q (Failed e) (begun q f w))
    end.

(** The Query object that [fetch_continue] leaves. *)
Definition settled_query (x : Outcome) (t : Z) (Q : Query) : Query :=
  set_state (fetch_settle (outcome_update x t (state Q))) (set_promise None Q).

(** The events that running [m] from [w] appends to the log. *)
Definition emitted {A} (m : M A) (w : World) : list Event :=
  drop (length (trace w)) (trace (exec m w)).

Definition is_call (q : QueryId) (ev : Event) : bool :=
  match ev with
  | EvCall q' _ => Nat.eqb q q'
  | EvNotify _ _ _ => false
  end.

Definition is_notify (o : ObserverId) (ev : Event) : bool :=
  match ev with
  | EvCall _ _ => false
  | EvNotify o' _ _ => Nat.eqb o o'
  end.

(** How many times the fetch operation of [q] was invoked, and how many
    times [o] was notified, in a log. *)
Definition calls (q : QueryId) (tr : list Event) : nat :=
  length (List.filter (is_call q) tr).
Definition notified (o : ObserverId) (tr : list Event) : nat :=
  length (List.filter (is_notify o) tr).

(** [n] callers call [query.fetch()] one after the other. *)
Fixpoint fetch_many (q : QueryId) (rs : list CallResult) : M (list (option PromiseId)) :=
  match rs with
  | [] => ret []
  | r :: rs' =>
      h <- query_fetch q r ;;
      hs <- fetch_many q rs' ;;
      ret (h :: hs)
  end.

(** A GC timer of [q] is pending. *)
Definition gc_pending (w : World) (q : QueryId) : Prop :=
  exists i tm, timers w !! i = Some (Some tm) /\ target tm = q.

(** What [clearTimeout] and [scheduleGC] leave. *)
Definition cleared (t : option TimerId) (w : World) : World :=
  match t with
  | None => w
  | Some i => with_timers (<[i := None]> (timers w)) w
  end.

Definition scheduled `{Host} (q : QueryId) (delay : Z) (w : World) : World :=
  upd_query q (set_gcTimeout (Some (length (timers w))))
    (with_timers (timers w ++ [Some (mkTimer (now w + timer_delay delay) q)]) w).

(** ** The engine as a transition system *)

(** What its users and its environment do to the engine: the calls of the
    interface, the settlement of an awaited promise and the passing of
    time. *)
Inductive Op :=
| OpGetQuery (opts : Options)
| OpCreateObserver (opts : Options)
| OpObserverSubscribe (o : ObserverId) (callback : Listener) (r : CallResult)
| OpObserverFetch (o : ObserverId) (r : CallResult)
| OpQuerySubscribe (q : QueryId) (o : ObserverId)
| OpUnsubscribe (u : Unsubscribe)
| OpQueryFetch (q : QueryId) (r : CallResult)
| OpSettle (p : PromiseId) (x : Outcome)
| OpTick (dt : Z).

Definition step `{Host} (op : Op) : World -> World :=
  match op with
  | OpGetQuery opts => exec (getQuery opts)
  | OpCreateObserver opts => exec (createQueryObserver opts)
  | OpObserverSubscribe o callback r => exec (observer_subscribe o callback r)
  | OpObserverFetch o r => exec (observer_fetch o r)
  | OpQuerySubscribe q o => exec (query_subscribe q o)
  | OpUnsubscribe u => exec (unsubscribe u)
  | OpQueryFetch q r => exec (query_fetch q r)
  | OpSettle p x => exec (settle p x)
  | OpTick dt => exec (tick dt)
  end.

(** The one constraint on a call: what subscribes to a Query is an Observer
    object. *)
Definition op_ok (w : World) (op : Op) : Prop :=
  match op with
  | OpQuerySubscribe q o => is_Some (observers w !! o)
  | _ => True
  end.

(** The worlds the engine can be in: a client is constructed at some
    (positive) epoch time, then operations follow. *)
Inductive reachable `{Host} : World -> Prop :=
| reach_new (t : Z) : 0 < t -> reachable (new_client t)
| reach_step (w : World) (op : Op) :
    reachable w -> op_ok w op -> reachable (step op w).

(** Well-formed worlds: references point to objects, timestamps were read
    from the clock, no promise of [fetch] was rejected, and the registry
    holds at most one Query per canonical form. *)
Definition query_wf (w : World) (Q : Query) : Prop :=
  Forall (fun o => is_Some (observers w !! o)) (subscribers Q) /\
  (forall t0, lastUpdated (state Q) = Some t0 -> 0 < t0 <= now w).

Record wf (w : World) : Prop := mk_wf {
  wf_now : 0 < now w;
  wf_registry : forall q, q ∈ queries w -> is_Some (heap w !! q);
  wf_heap : forall q Q, heap w !! q = Some Q -> query_wf w Q;
  wf_observers : forall o ob, observers w !! o = Some ob -> is_Some (heap w !! query ob);
  wf_pending : forall p q, promises w !! p = Some (Pending q) -> is_Some (heap w !! q);
  wf_settled : forall p e, promises w !! p <> Some (Rejected e);
  wf_timers : forall i tm, timers w !! i = Some (Some tm) -> is_Some (heap w !! target tm);
  wf_unique : forall q1 q2 Q1 Q2,
    q1 ∈ queries w -> q2 ∈ queries w ->
    heap w !! q1 = Some Q1 -> heap w !! q2 = Some Q2 ->
    queryHash Q1 = queryHash Q2 -> q1 = q2
}.

(** [lastUpdated] of a Query, absent also when there is no such Query. *)
Definition lastUpdated_of (w : World) (q : QueryId) : option Z :=
  match heap w !! q with
  | Some Q => lastUpdated (state Q)
  | None => None
  end.

(** ** Relations between the worlds before and after an operation *)

(** [m] takes every world to one that [R] relates to it, however it ends. *)
Definition keeps (R : World -> World -> Prop) {A} (m : M A) : Prop :=
  forall w, R w (exec m w).

(** The relations that the operations keep outside [scheduleGC], the firing
    of timers and the success of a fetch: preorders that hold across the
    elementary updates of the engine, where the update of a Query object
    may change anything but [lastUpdated]. *)
Class Stable (R : World -> World -> Prop) : Prop := {
  stable_refl : forall w, R w w;
  stable_trans : forall w1 w2 w3, R w1 w2 -> R w2 w3 -> R w1 w3;
  stable_query : forall w q f,
    (forall Q, lastUpdated (state (f Q)) = lastUpdated (state Q)) ->
    R w (upd_query q f w);
  stable_alloc : forall w Q0,
    lastUpdated (state Q0) = None -> R w (with_heap (heap w ++ [Q0]) w);
  stable_queries : forall w l, R w (with_queries l w);
  stable_observers : forall w l, R w (with_observers l w);
  stable_promises : forall w l, R w (with_promises l w);
  stable_trace : forall w l, R w (with_trace l w);
  stable_cleared : forall w i, R w (with_timers (<[i := None]> (timers w)) w)
}.

(** The [lastUpdated] of [q] is as it was. *)
Definition same_lastUpdated (q : QueryId) (w w' : World) : Prop :=
  lastUpdated_of w' q = lastUpdated_of w q.

(** No timer is pending that was not: timers are only cleared or fired. *)
Definition timers_shrink (w w' : World) : Prop :=
  forall i tm, timers w' !! i = Some (Some tm) -> timers w !! i = Some (Some tm).

(** ** Examples *)

(** A host for the examples. A string is its own canonical form, an array
    has that of its first string, an undefined key has none; timers are
    those of a browser. The properties hold for every host; the examples
    need one. *)
Definition example_host : Host :=
  {| JSON_stringify := fun v =>
       match v with
       | VUndefined => None
       | VStr s => Some s
       | VArr (VStr s :: _) => Some s
       | _ => Some ""%string
       end;
     replaced_delay := browser_delay |}.

(** The same with the timers of Node.js. *)
Definition node_host : Host :=
  {| JSON_stringify := @JSON_stringify example_host; replaced_delay := node_delay |}.

(** The options of [usePosts] in [index.js], and the same key with another
    configuration. *)
Definition posts : Options :=
  mkOptions (VArr [VStr "posts"]) "getPosts" (Some 10000) (Some 6000).

(** A component using [usePosts] renders at time 1000, mounts, and its
    fetch settles 50 ms later. *)
Definition ex_new : World := new_client 1000.
Definition ex_rendered : World := @step example_host (OpCreateObserver posts) ex_new.
Definition ex_mounted : World :=
  @step example_host (OpObserverSubscribe 0 "rerender" Returns) ex_rendered.
Definition ex_waiting : World := @step example_host (OpTick 50) ex_mounted.
Definition ex_loaded : World :=
  @step example_host (OpSettle 0 (Resolved (VStr "posts data"))) ex_waiting.

(** 11 s later the window is focused: the Observer refetches, and this
    second fetch fails. *)
Definition ex_refetch_failed : World :=
  @step example_host (OpSettle 1 (Failed (VStr "Network Error")))
    (@step example_host (OpObserverFetch 0 Returns)
       (@step example_host (OpTick 11000) ex_loaded)).

(** The mounted Observer subscribes a second time, with another listener. *)
Definition ex_resubscribed : World :=
  @step example_host (OpObserverSubscribe 0 "rerender2" Returns) ex_mounted.

(** A lookup that no Observer follows. *)
Definition ex_looked_up : World := @step example_host (OpGetQuery posts) ex_new.

(** The component unmounts and the unsubscribe closure is called a second
    time; 3 s later a component mounts on the same Observer; 3 s later
    again the first of the two GC timers is due. *)
Definition ex_unmounted_twice : World :=
  @step example_host (OpUnsubscribe (mkUnsubscribe 0 0))
    (@step example_host (OpUnsubscribe (mkUnsubscribe 0 0)) ex_loaded).
Definition ex_remounted : World :=
  @step example_host (OpObserverSubscribe 0 "rerender" Returns)
    (@step example_host (OpTick 3000) ex_unmounted_twice).
Definition ex_evicted : World := @step example_host (OpTick 3000) ex_remounted.

(** The component unmounts after its fetch has settled. *)
Definition ex_unmounted : World :=
  @step example_host (OpUnsubscribe (mkUnsubscribe 0 0)) ex_loaded.

(** The run of operations from [ex_loaded] to [ex_evicted]. *)
Definition ex_eviction_run : list Op :=
  [OpUnsubscribe (mkUnsubscribe 0 0); OpUnsubscribe (mkUnsubscribe 0 0); OpTick 3000;
   OpObserverSubscribe 0 "rerender" Returns; OpTick 3000].

(** ** The rest of the module *)

(** [observer.getResult()]. *)
Definition getResult (o : ObserverId) : M QueryState :=
  ob <- read_observer o ;;
  Q <- read_query (query ob) ;;
  ret (state Q).

(** The [onFocus] handler that [QueryClientProvider] installs:
    [client.queries.forEach(query => query.subscribers.forEach(subscriber => subscriber.fetch()))].
    [r o] is what the call [queryFn()] does if the [fetch] of subscriber
    [o] makes it. *)
Definition onFocus (r : ObserverId -> CallResult) : M unit :=
  qs <- gets queries ;;
  forEach (fun q =>
             Q <- read_query q ;;
             forEach (fun o => observer_fetch o (r o)) (subscribers Q)) qs.

(** The render of [useQuery]: [ref] is [observerRef.current], empty at the
    first render of the component; the result is the Observer in the ref
    and the value returned to the component. (The effect of the hook is
    [observer.subscribe(rerender)] after the first render, and its cleanup
    the closure that this returned.) *)
Definition useQuery `{Host} (ref : option ObserverId) (opts : Options)
    : M (ObserverId * QueryState) :=
  o <- match ref with
       | Some o => ret o
       | None => createQueryObserver opts
       end ;;
  s <- getResult o ;;
  ret (o, s).

(** [client.subscribers], the client's own listener list, is a state apart
    from the rest: [client.subscribe(callback)] pushes, the closure it
    returns filters with [d != callback], and [client.notify()] calls the
    listeners in list order (here: the list of the calls it makes). *)
Definition client_subscribe (callback : Listener) (l : list Listener) : list Listener :=
  l ++ [callback].
Definition client_unsubscribe (callback : Listener) (l : list Listener) : list Listener :=
  filter (fun d => d <> callback) l.
Definition client_notify (l : list Listener) : list Listener :=
  map (fun cb => cb) l.

(** ** Predicates that the operations maintain *)

(** [m] takes every world that satisfies [P] to one that does, however it
    ends. *)
Definition maintains (P : World -> Prop) {A} (m : M A) : Prop :=
  forall w, P w -> P (exec m w).

(** Predicates that hold across the elementary updates of subscription and
    notification, of clearing a timer, of setting one, of fetching, and of
    object creation. *)
Class Frame (P : World -> Prop) : Prop := {
  frame_subscribers : forall w q (g : list ObserverId -> list ObserverId),
    P w -> P (upd_query q (fun Q => set_subscribers (g (subscribers Q)) Q) w);
  frame_trace : forall w l, P w -> P (with_trace l w);
  frame_notify : forall w o cb,
    P w -> P (with_observers (alter (set_notify cb) o (observers w)) w)
}.

Class ClearFrame (P : World -> Prop) : Prop := {
  frame_clear : forall w i, P w -> P (with_timers (<[i := None]> (timers w)) w)
}.

Class SetFrame (P : World -> Prop) : Prop := {
  frame_timer : forall w tm, P w -> P (with_timers (timers w ++ [Some tm]) w);
  frame_gcTimeout : forall w q t, P w -> P (upd_query q (set_gcTimeout t) w)
}.

(** For fetching, [ok] tells which updaters of the state the predicate
    withstands. *)
Class FetchFrame (ok : (QueryState -> QueryState) -> Prop) (P : World -> Prop) : Prop := {
  frame_state : forall w q (f : QueryState -> QueryState),
    ok f -> P w -> P (upd_query q (fun Q => set_state (f (state Q)) Q) w);
  frame_promise : forall w q p, P w -> P (upd_query q (set_promise p) w);
  frame_promises : forall w l, P w -> P (with_promises l w)
}.

(** The updaters that the continuation of the [async] arrow applies, by
    outcome (a failure of any kind goes through the [catch] block), and
    those that a call of the arrow applies, by what [queryFn()] does. *)
Definition settles_ok (ok : (QueryState -> QueryState) -> Prop) (x : Outcome) : Prop :=
  ok fetch_settle /\ (forall e, ok (fetch_failure e)) /\
  match x with
  | Resolved d => forall t, ok (fetch_success d t)
  | Failed _ => True
  end.
Definition starts_ok (ok : (QueryState -> QueryState) -> Prop) (r : CallResult) : Prop :=
  ok fetch_start /\
  match r with
  | Returns => True
  | Throws e => settles_ok ok (Failed e)
  end.
(** No restriction. *)
Definition any_updater (f : QueryState -> QueryState) : Prop := True.

Class AllocFrame (P : World -> Prop) : Prop := {
  frame_alloc : forall (host : Host) w opts,
    P w -> P (with_heap (heap w ++ [@new_query host opts]) w);
  frame_register : forall w q, P w -> P (with_queries (queries w ++ [q]) w);
  frame_new_observer : forall w ob, P w -> P (with_observers (observers w ++ [ob]) w)
}.

(** ** The state machine of a Query *)

(** What the status says about the other fields. *)
Definition state_ok (s : QueryState) : Prop :=
  (status s = s_loading ->
     isFetching s = true /\ data s = VUndefined /\ error s = VUndefined /\
     lastUpdated s = None) /\
  (status s = s_success -> error s = VUndefined /\ is_Some (lastUpdated s)).

(** How the stored handle, the promises and the flags of the Queries go
    together. *)
Record fetch_inv (w : World) : Prop := mk_fetch_inv {
  fi_pending : forall p q, promises w !! p = Some (Pending q) ->
    exists Q, heap w !! q = Some Q /\ promise Q = Some p /\
      isFetching (state Q) = true /\ error (state Q) = VUndefined;
  fi_handle : forall q Q p, heap w !! q = Some Q -> promise Q = Some p ->
    promises w !! p = Some (Pending q) \/
    (promises w !! p = Some Fulfilled /\
     status (state Q) = s_error /\ isFetching (state Q) = false);
  fi_state : forall q Q, heap w !! q = Some Q ->
    state_ok (state Q) /\
    (isFetching (state Q) = true ->
     status (state Q) = s_loading \/
     exists p, promise Q = Some p /\ promises w !! p = Some (Pending q))
}.

(** What a Query and an Observer are for life: the variables their closures
    captured and the properties that no method assigns. *)
Definition query_identity (Q : Query) : Val * FetchOp * option string * Z :=
  (queryKey Q, queryFn Q, queryHash Q, cacheTime Q).
Definition observer_binding (ob : Observer) : QueryId * Z :=
  (query ob, staleTime ob).

(** The objects of [w] are objects of [w'], with the same identities. *)
Definition objects_live_on (w w' : World) : Prop :=
  (query_identity <$> heap w) `prefix_of` (query_identity <$> heap w') /\
  (observer_binding <$> observers w) `prefix_of` (observer_binding <$> observers w').

(** The registry holds exactly [l]. *)
Definition registry_is (l : list QueryId) (w : World) : Prop := queries w = l.

(** What a component shows of a Query: its status and its data. *)
Definition shown (Q : Query) : Status * Val := (status (state Q), data (state Q)).
Definition shows (q : QueryId) (v : Status * Val) (w : World) : Prop :=
  shown <$> heap w !! q = Some v.
Definition keeps_shown (f : QueryState -> QueryState) : Prop :=
  forall s, status (f s) = status s /\ data (f s) = data s.

(** The operations in which a fetch of [q] can end: the settlement of its
    suspended fetch, and a call in which [queryFn()] throws. *)
Definition ends_fetch (w : World) (q : QueryId) (op : Op) : Prop :=
  match op with
  | OpSettle p _ => promises w !! p = Some (Pending q)
  | OpObserverSubscribe _ _ (Throws _)
  | OpObserverFetch _ (Throws _)
  | OpQueryFetch _ (Throws _) => True
  | _ => False
  end.

(** A run of operations. *)
Definition steps `{Host} (ops : list Op) (w : World) : World :=
  fold_left (fun w' op => step op w') ops w.

(** During a sweep: the fetch operation of [q] was called at most once
    since the log had [c] calls of it, and if once, the handle is stored. *)
Definition called_at_most_once (q : QueryId) (c : nat) (w : World) : Prop :=
  calls q (trace w) = c \/
  (calls q (trace w) = S c /\ exists Q p, heap w !! q = Some Q /\ promise Q = Some p).

(** The clock reads [t]. *)
Definition clock_is (t : Z) (w : World) : Prop := now w = t.

(** The settlements with a result. *)
Definition succeeds (op : Op) : Prop :=
  match op with
  | OpSettle _ (Resolved _) => True
  | _ => False
  end.

(** A second component mounts on the loaded Query, and 11 s pass: two
    Observers of one Query, both stale. *)
Definition ex_two_stale : World :=
  @steps example_host
    [OpCreateObserver posts; OpObserverSubscribe 1 "rerender1" Returns; OpTick 11000]
    ex_loaded.

(** What holds all along a focus sweep that started in [w0]: the sweep
    starts fetches and does nothing else. *)
Definition sweeping (w0 w : World) : Prop :=
  wf w /\ now w = now w0 /\ queries w = queries w0 /\ observers w = observers w0 /\
  timers w = timers w0 /\
  (forall q, subs_of w q = subs_of w0 q) /\
  (forall q, lastUpdated_of w q = lastUpdated_of w0 q).

(** The fetch operation of [q], whose handle is set, was not called since
    the log had [c] calls of it. *)
Definition not_called (q : QueryId) (c : nat) (w : World) : Prop :=
  calls q (trace w) = c /\ exists Q p, heap w !! q = Some Q /\ promise Q = Some p.

(** The Observers that a focus sweep visits, in the order of the visits:
    the subscribers of the registered Queries; and the calls it makes. *)
Definition sweep_observers (w : World) : list ObserverId :=
  queries w ≫= subs_of w.
Definition sweep_calls (r : ObserverId -> CallResult) (w : World) : list Op :=
  map (fun o => OpObserverFetch o (r o)) (sweep_observers w).

(** During a sweep: [q] has no handle and its fetch operation was not
    called since the log had [c] calls of it, or it was called once and
    the handle is set. *)
Definition first_call (q : QueryId) (c : nat) (w : World) : Prop :=
  (calls q (trace w) = c /\ exists Q, heap w !! q = Some Q /\ promise Q = None) \/
  not_called q (S c) w.

(** ** Garbage collection over runs *)

(** [op] adds a subscriber to [q]: [query.subscribe] on it, or
    [observer.subscribe] on an Observer of it. *)
Definition subscribes_to (w : World) (q : QueryId) (op : Op) : Prop :=
  match op with
  | OpQuerySubscribe q' _ => q' = q
  | OpObserverSubscribe o _ _ => query <$> observers w !! o = Some q
  | _ => False
  end.

(** [op] is a call of an unsubscribe closure of [q]. *)
Definition unsubscribes_from (q : QueryId) (op : Op) : Prop :=
  match op with
  | OpUnsubscribe u => unsub_query u = q
  | _ => False
  end.

(** [ops] is a run from [w] of calls that the interface allows and that
    are [allowed], each in the world it is made in. *)
Fixpoint run_of (allowed : World -> Op -> Prop) `{Host} (ops : list Op) (w : World)
    : Prop :=
  match ops with
  | [] => True
  | op :: ops' => op_ok w op /\ allowed w op /\ run_of allowed ops' (step op w)
  end.

(** Runs without a subscribe to [q], without a call of an unsubscribe
    closure of [q], and without either. *)
Definition no_subscribe (q : QueryId) (w : World) (op : Op) : Prop :=
  ~ subscribes_to w q op.
Definition no_unsubscribe (q : QueryId) (w : World) (op : Op) : Prop :=
  ~ unsubscribes_from q op.
Definition untouched (q : QueryId) (w : World) (op : Op) : Prop :=
  ~ subscribes_to w q op /\ ~ unsubscribes_from q op.

(** The handle that a Query stores is one that [setTimeout] returned, and
    the timer behind it, while pending, is a timer of this Query. *)
Definition timer_handles_ok (w : World) : Prop :=
  forall q Q j, heap w !! q = Some Q -> gcTimeout Q = Some j ->
    (j < length (timers w))%nat /\
    forall tm, timers w !! j = Some (Some tm) -> target tm = q.

(** The timer table is [l]; timer [i] is pending and is [T]; the pending
    timers of [q] are due at [D] or later; [q] has no pending timer but
    [i]; [q] stores the handle [g]. *)
Definition timers_are (l : list (option Timer)) (w : World) : Prop := timers w = l.
Definition timer_is (i : TimerId) (T : Timer) (w : World) : Prop :=
  timers w !! i = Some (Some T).
Definition due_from (q : QueryId) (D : Z) (w : World) : Prop :=
  forall j tm, timers w !! j = Some (Some tm) -> target tm = q -> D <= due tm.
Definition only_timer (q : QueryId) (i : TimerId) (w : World) : Prop :=
  forall j tm, timers w !! j = Some (Some tm) -> target tm = q -> j = i.
Definition handle_is (q : QueryId) (g : option TimerId) (w : World) : Prop :=
  gcTimeout <$> heap w !! q = Some g.

(** What holds in [w], reached from [w0] where timer [i] of [q], due at
    [D], was set, as long as nothing subscribes to [q]. *)
Record gc_waiting `{Host} (q : QueryId) (i : TimerId) (D : Z) (w0 w : World) : Prop :=
  mk_gc_waiting {
    gw_reachable : reachable w;
    gw_objects : objects_live_on w0 w;
    gw_now : now w0 <= now w;
    gw_due : due_from q D w;
    gw_pending : now w < D -> timer_is i (mkTimer D q) w;
    gw_fired : timer_is i (mkTimer D q) w \/ q ∉ queries w;
    gw_registered : q ∈ queries w0 -> now w < D -> q ∈ queries w
  }.

(** A Query whose [cacheTime] is 2^31 ms: the component mounts, its fetch
    settles, and it unmounts. *)
Definition posts_for_long : Options :=
  mkOptions (VArr [VStr "posts"]) "getPosts" (Some 10000) (Some 2147483648).
Definition ex_long_run : list Op :=
  [OpCreateObserver posts_for_long; OpObserverSubscribe 0 "rerender" Returns; OpTick 50;
   OpSettle 0 (Resolved (VStr "posts data")); OpUnsubscribe (mkUnsubscribe 0 0)].

(** * Properties *)

(** ** The monad and the stores *)

Lemma modify_query_spec q f w : modify_query q f w = (Normal tt, upd_query q f w).
Proof. reflexivity. Qed.

Lemma lookup_upd_query q f w q' :
  heap (upd_query q f w) !! q' = if decide (q = q') then f <$> heap w !! q else heap w !! q'.
Proof. apply list_lookup_alter. Qed.

Lemma lookup_apply_state q f w q' :
  heap (apply_state q f w) !! q' =
    if decide (q = q') then (fun Q => set_state (f (state Q)) Q) <$> heap w !! q
    else heap w !! q'.
Proof. apply list_lookup_alter. Qed.

Lemma subs_of_upd_query q f w q' :
  (forall Q, subscribers (f Q) = subscribers Q) ->
  subs_of (upd_query q f w) q' = subs_of w q'.
Proof.
  intros Hf. unfold subs_of. rewrite lookup_upd_query.
  case_decide as Hq; [subst q'|done].
  destruct (heap w !! q) as [Q|]; cbn; [apply Hf|done].
Qed.

Lemma subs_of_apply_state q f w q' : subs_of (apply_state q f w) q' = subs_of w q'.
Proof.
  exact (subs_of_upd_query q (fun Q => set_state (f (state Q)) Q) w q' (fun _ => eq_refl)).
Qed.

Lemma query_ok_transfer w w' q :
  observers w' = observers w ->
  subs_of w' q = subs_of w q ->
  (is_Some (heap w !! q) -> is_Some (heap w' !! q)) ->
  query_ok w q -> query_ok w' q.
Proof.
  intros Ho Hs Hh [HQ Hok]. split; [auto|]. by rewrite Hs, Ho.
Qed.

Lemma is_Some_upd_query q f w q' :
  is_Some (heap w !! q') -> is_Some (heap (upd_query q f w) !! q').
Proof.
  intros [Q HQ]. rewrite lookup_upd_query. case_decide; [subst; rewrite HQ|]; eauto.
Qed.

Lemma query_ok_upd_query q f w q' :
  (forall Q, subscribers (f Q) = subscribers Q) ->
  query_ok w q' -> query_ok (upd_query q f w) q'.
Proof.
  intros Hf. apply query_ok_transfer;
    [done | by apply subs_of_upd_query | apply is_Some_upd_query].
Qed.

Lemma query_ok_apply_state q f w q' : query_ok w q' -> query_ok (apply_state q f w) q'.
Proof.
  apply query_ok_transfer;
    [done | apply subs_of_apply_state | apply (is_Some_upd_query q)].
Qed.

(** ** [setState] *)

Lemma round_with_trace t w l : round (with_trace t w) l = round w l.
Proof. reflexivity. Qed.

Lemma forEach_call_notify l : forall w,
  Forall (fun o => is_Some (observers w !! o)) l ->
  forEach call_notify l w = (Normal tt, with_trace (trace w ++ round w l) w).
Proof.
  induction l as [|o l IH]; intros w Hok.
  - cbn. rewrite app_nil_r. by destruct w.
  - inversion Hok as [|? ? [ob Hob] Hl]; subst.
    assert (Hhd : round w [o] = [EvNotify o (notify ob) (state <$> heap w !! query ob)]).
    { unfold round, listener_of, seen_by. cbn [map]. by rewrite Hob. }
    cbn [forEach]. unfold bind at 1, call_notify, bind at 1, read_observer.
    rewrite Hob. unfold bind at 1, gets, emit, modify.
    rewrite IH by exact Hl.
    rewrite round_with_trace. cbn [trace with_trace].
    change (round w (o :: l)) with (round w [o] ++ round w l).
    by rewrite Hhd, <- app_assoc.
Qed.

Lemma setState_spec q f w :
  query_ok w q -> setState q f w = (Normal tt, apply_state q f w).
Proof.
  intros [[Q HQ] Hok]. unfold subs_of in Hok. rewrite HQ in Hok.
  unfold setState, bind, modify_query, modify, read_query, apply_state, subs_of.
  cbn. rewrite list_lookup_alter_eq, HQ. cbn.
  by rewrite forEach_call_notify.
Qed.

(** ** [fetch] *)

Lemma query_ok_begun q f w q' : query_ok w q' -> query_ok (begun q f w) q'.
Proof.
  intros H. apply (query_ok_transfer (apply_state q fetch_start w)); try done.
  by apply query_ok_apply_state.
Qed.

Lemma query_ok_continued q x w q' : query_ok w q' -> query_ok (continued q x w) q'.
Proof.
  intros H. unfold continued.
  apply query_ok_apply_state, query_ok_upd_query; [done|].
  by apply query_ok_apply_state.
Qed.

Lemma fetch_continue_spec q x w :
  query_ok w q -> fetch_continue q x w = (Normal tt, continued q x w).
Proof.
  intros Hok.
  assert (Hfin : forall w1, query_ok w1 q ->
            (modify_query q (set_promise None) ;;; setState q fetch_settle) w1
            = (Normal tt, apply_state q fetch_settle (upd_query q (set_promise None) w1))).
  { intros w1 H1. unfold bind. rewrite modify_query_spec.
    apply setState_spec. by apply query_ok_upd_query. }
  unfold fetch_continue, try_catch_finally, continued.
  destruct x as [d|e]; cbn [outcome_update].
  - unfold bind at 1, Date_now, gets. rewrite setState_spec by done.
    by rewrite Hfin by (by apply query_ok_apply_state).
  - unfold throw. rewrite setState_spec by done.
    by rewrite Hfin by (by apply query_ok_apply_state).
Qed.

Lemma fetch_async_spec q r w Q :
  heap w !! q = Some Q -> query_ok w q ->
  fetch_async q r w =
    (Normal (length (promises w)),
     match r with
     | Returns => with_promises (promises w ++ [Pending q]) (begun q (queryFn Q) w)
     | Throws e =>
         with_promises (promises w ++ [Fulfilled])
           (continued q (Failed e) (begun q (queryFn Q) w))
     end).
Proof.
  intros HQ Hok. unfold fetch_async, bind, read_query, emit, modify.
  rewrite setState_spec by done.
  rewrite lookup_apply_state, decide_True, HQ by done. cbn [fmap option_fmap option_map].
  change (queryFn (set_state _ Q)) with (queryFn Q).
  destruct r as [|e]; [reflexivity|].
  change (with_trace _ (apply_state q fetch_start w)) with (begun q (queryFn Q) w).
  rewrite fetch_continue_spec by (by apply query_ok_begun).
  reflexivity.
Qed.

Lemma query_fetch_in_flight q r w Q p :
  heap w !! q = Some Q -> promise Q = Some p ->
  query_fetch q r w = (Normal (Some p), w).
Proof.
  intros HQ Hp. unfold query_fetch, bind, read_query, ret. by rewrite HQ, Hp, HQ, Hp.
Qed.

Lemma query_fetch_idle q r w Q :
  heap w !! q = Some Q -> promise Q = None -> query_ok w q ->
  query_fetch q r w = (Normal (Some (length (promises w))), fetched q (queryFn Q) r w).
Proof.
  intros HQ Hp Hok. unfold query_fetch, bind at 1, read_query at 1. rewrite HQ.
  unfold bind at 1. rewrite Hp. unfold bind at 1.
  rewrite (fetch_async_spec q r w Q) by done.
  rewrite modify_query_spec. unfold bind, read_query, ret.
  fold (fetched q (queryFn Q) r w).
  assert (Hsome : is_Some (heap (match r with
     | Returns => with_promises (promises w ++ [Pending q]) (begun q (queryFn Q) w)
     | Throws e => with_promises (promises w ++ [Fulfilled])
                     (continued q (Failed e) (begun q (queryFn Q) w))
     end) !! q)).
  { destruct r as [|e].
    - exact (proj1 (query_ok_begun q (queryFn Q) w q Hok)).
    - exact (proj1 (query_ok_continued q (Failed e) _ q
                      (query_ok_begun q (queryFn Q) w q Hok))). }
  destruct Hsome as [Q1 HQ1].
  unfold fetched. rewrite lookup_upd_query, decide_True, HQ1 by done.
  reflexivity.
Qed.

Lemma settle_spec p x w q :
  promises w !! p = Some (Pending q) -> query_ok w q ->
  settle p x w = (Normal tt, with_promises (<[p := Fulfilled]> (promises w)) (continued q x w)).
Proof.
  intros Hp Hok. unfold settle. rewrite Hp, fetch_continue_spec by done. reflexivity.
Qed.

Lemma lookup_begun q f w q' :
  heap (begun q f w) !! q' =
    if decide (q = q') then (fun Q => set_state (fetch_start (state Q)) Q) <$> heap w !! q
    else heap w !! q'.
Proof. apply list_lookup_alter. Qed.

Lemma lookup_continued q x w Q :
  heap w !! q = Some Q ->
  heap (continued q x w) !! q = Some (settled_query x (now w) Q).
Proof.
  intros HQ. unfold continued.
  rewrite lookup_apply_state, decide_True, lookup_upd_query, decide_True,
    lookup_apply_state, decide_True, HQ by done.
  reflexivity.
Qed.

Lemma lookup_continued_ne q x w q' :
  q <> q' -> heap (continued q x w) !! q' = heap w !! q'.
Proof.
  intros Hne. unfold continued.
  by rewrite lookup_apply_state, decide_False, lookup_upd_query, decide_False,
    lookup_apply_state, decide_False by done.
Qed.

Lemma lookup_fetched q f r w Q :
  heap w !! q = Some Q ->
  heap (fetched q f r w) !! q =
    Some (set_promise (Some (length (promises w)))
            match r with
            | Returns => set_state (fetch_start (state Q)) Q
            | Throws e =>
                settled_query (Failed e) (now w) (set_state (fetch_start (state Q)) Q)
            end).
Proof.
  intros HQ. unfold fetched. rewrite lookup_upd_query, decide_True by done.
  destruct r as [|e].
  - change (heap (with_promises _ ?w') !! q) with (heap w' !! q).
    by rewrite lookup_begun, decide_True, HQ by done.
  - change (heap (with_promises _ ?w') !! q) with (heap w' !! q).
    erewrite lookup_continued; [reflexivity|].
    by rewrite lookup_begun, decide_True, HQ by done.
Qed.

(** ** Counting in the log *)

Lemma calls_app q tr1 tr2 : calls q (tr1 ++ tr2) = (calls q tr1 + calls q tr2)%nat.
Proof. unfold calls. by rewrite List.filter_app, length_app. Qed.

Lemma calls_round q w l : calls q (round w l) = 0%nat.
Proof. by induction l. Qed.

Lemma calls_call q f : calls q [EvCall q f] = 1%nat.
Proof. unfold calls. cbn. by rewrite Nat.eqb_refl. Qed.

(** The round of [setState] shows the state that the call has stored. *)
Lemma trace_apply_state q f w :
  trace (apply_state q f w) = trace w ++ round (apply_state q f w) (subs_of w q).
Proof. reflexivity. Qed.

Lemma trace_continued q x w :
  exists w1 w2 l1 l2, trace (continued q x w) = trace w ++ round w1 l1 ++ round w2 l2.
Proof.
  eexists _, _, _, _. unfold continued. rewrite trace_apply_state.
  change (trace (upd_query q (set_promise None) ?w')) with (trace w').
  rewrite trace_apply_state, <- app_assoc. reflexivity.
Qed.

Lemma calls_fetched q f r w :
  calls q (trace (fetched q f r w)) = S (calls q (trace w)).
Proof.
  assert (Hb : calls q (trace (begun q f w)) = S (calls q (trace w))).
  { unfold begun, apply_state, with_trace. cbn [trace].
    rewrite !calls_app, calls_round, calls_call. lia. }
  destruct r as [|e]; [exact Hb|].
  change (trace (fetched q f (Throws e) w))
    with (trace (continued q (Failed e) (begun q f w))).
  destruct (trace_continued q (Failed e) (begun q f w)) as (w1 & w2 & l1 & l2 & ->).
  rewrite !calls_app, !calls_round. lia.
Qed.

(** ** Deduplication of [fetch] *)

Lemma fetch_many_in_flight q rs w Q p :
  heap w !! q = Some Q -> promise Q = Some p ->
  fetch_many q rs w = (Normal (repeat (Some p) (length rs)), w).
Proof.
  intros HQ Hp. induction rs as [|r rs IH]; [reflexivity|].
  cbn [fetch_many]. unfold bind at 1.
  rewrite (query_fetch_in_flight q r w Q p) by done.
  unfold bind at 1. by rewrite IH.
Qed.

(** ** Subscription, timers, lookup: what each call leaves *)

Lemma clearTimeout_spec t w : clearTimeout t w = (Normal tt, cleared t w).
Proof. by destruct t. Qed.

Lemma scheduleGC_spec `{Host} q w Q :
  heap w !! q = Some Q -> scheduleGC q w = (Normal tt, scheduled q (cacheTime Q) w).
Proof. intros HQ. unfold scheduleGC, bind, read_query. by rewrite HQ. Qed.

Lemma unscheduleGC_spec q w Q :
  heap w !! q = Some Q -> unscheduleGC q w = (Normal tt, cleared (gcTimeout Q) w).
Proof.
  intros HQ. unfold unscheduleGC, bind, read_query. rewrite HQ. apply clearTimeout_spec.
Qed.

Lemma query_subscribe_spec q o w Q :
  heap w !! q = Some Q ->
  query_subscribe q o w =
    (Normal (mkUnsubscribe q o),
     cleared (gcTimeout Q)
       (upd_query q (fun Q' => set_subscribers (subscribers Q' ++ [o]) Q') w)).
Proof.
  intros HQ. unfold query_subscribe, bind at 1. rewrite modify_query_spec.
  unfold bind at 1.
  erewrite unscheduleGC_spec
    by (rewrite lookup_upd_query, decide_True, HQ by done; reflexivity).
  reflexivity.
Qed.

Lemma unsubscribe_spec `{Host} u w Q :
  heap w !! unsub_query u = Some Q ->
  unsubscribe u w =
    (Normal tt,
     let l := filter (fun d => d <> unsub_subscriber u) (subscribers Q) in
     let w1 := upd_query (unsub_query u) (fun Q' =>
                 set_subscribers
                   (filter (fun d => d <> unsub_subscriber u) (subscribers Q')) Q') w in
     if (length l =? 0)%nat then scheduled (unsub_query u) (cacheTime Q) w1 else w1).
Proof.
  intros HQ. unfold unsubscribe, bind at 1. rewrite modify_query_spec.
  unfold bind at 1, read_query.
  rewrite lookup_upd_query, decide_True, HQ by done. cbn -[filter Nat.eqb].
  destruct (length _ =? 0)%nat; [|reflexivity].
  erewrite scheduleGC_spec
    by (rewrite lookup_upd_query, decide_True, HQ by done; reflexivity).
  reflexivity.
Qed.

Lemma observer_fetch_spec o r w ob Q :
  observers w !! o = Some ob -> heap w !! query ob = Some Q ->
  observer_fetch o r w =
    if is_stale (now w) (lastUpdated (state Q)) (staleTime ob)
    then (query_fetch (query ob) r ;;; ret tt) w
    else (Normal tt, w).
Proof.
  intros Hob HQ. unfold observer_fetch, bind at 1, read_observer. rewrite Hob.
  unfold bind at 1, read_query at 1. rewrite HQ.
  unfold bind at 1, Date_now, gets. by destruct (is_stale _ _ _).
Qed.

Lemma getQuery_found `{Host} opts w q :
  find (hash_matches w (JSON_stringify (opt_queryKey opts))) (queries w) = Some q ->
  getQuery opts w = (Normal q, w).
Proof. intros Hf. unfold getQuery, bind, gets. by rewrite Hf. Qed.

Lemma getQuery_fresh `{Host} opts w :
  find (hash_matches w (JSON_stringify (opt_queryKey opts))) (queries w) = None ->
  getQuery opts w =
    (Normal (length (heap w)),
     with_queries (queries w ++ [length (heap w)])
       (with_heap (heap w ++ [new_query opts]) w)).
Proof. intros Hf. unfold getQuery, bind, gets. by rewrite Hf. Qed.



Lemma hash_matches_Some w h q :
  hash_matches w h q = true <-> exists Q, heap w !! q = Some Q /\ queryHash Q = h.
Proof.
  unfold hash_matches. destruct (heap w !! q) as [Q|]; split.
  - intros Hb%bool_decide_eq_true. by exists Q.
  - intros (Q' & [= <-] & Hh). by apply bool_decide_eq_true.
  - done.
  - by intros (Q' & [=] & _).
Qed.

Lemma hash_matches_alloc w w' Q0 h d :
  heap w' = heap w ++ [Q0] -> is_Some (heap w !! d) ->
  hash_matches w' h d = hash_matches w h d.
Proof.
  intros Hh [Q HQ]. unfold hash_matches.
  by rewrite Hh, (lookup_app_l_Some _ _ _ _ HQ), HQ.
Qed.

(** ** Well-formedness is invariant *)

Lemma wf_query_ok w q : wf w -> is_Some (heap w !! q) -> query_ok w q.
Proof.
  intros Hwf [Q HQ]. split; [by eexists|].
  unfold subs_of. rewrite HQ. by apply (wf_heap w Hwf q Q).
Qed.

Lemma wf_ext w w' :
  now w' = now w -> queries w' = queries w -> heap w' = heap w ->
  observers w' = observers w -> promises w' = promises w -> timers w' = timers w ->
  wf w -> wf w'.
Proof.
  intros Hn Hq Hh Ho Hp Ht [].
  split; unfold query_wf in *; rewrite ?Hn, ?Hq, ?Hh, ?Ho, ?Hp, ?Ht; done.
Qed.

Lemma wf_upd_query w q f :
  wf w -> (forall Q, heap w !! q = Some Q -> query_wf w (f Q)) ->
  (forall Q, queryHash (f Q) = queryHash Q) ->
  wf (upd_query q f w).
Proof.
  intros Hwf Hf Hh.
  assert (Hhash : forall q' Q', heap (upd_query q f w) !! q' = Some Q' ->
            exists Q0, heap w !! q' = Some Q0 /\ queryHash Q0 = queryHash Q').
  { intros q' Q'. rewrite lookup_upd_query. case_decide as Hd; [subst q'|by eauto].
    destruct (heap w !! q) as [Q0|]; [|done]. intros [= <-]. eauto. }
  split.
  - apply Hwf.
  - intros q' Hq'. apply is_Some_upd_query. by apply Hwf.
  - intros q' Q'. rewrite lookup_upd_query. case_decide as Hd.
    + subst q'. destruct (heap w !! q) as [Q|] eqn:HQ; [|done].
      intros [= <-]. by apply Hf.
    + apply Hwf.
  - intros o ob Hob. apply is_Some_upd_query. by apply (wf_observers w Hwf o).
  - intros p q' Hp. apply is_Some_upd_query. by apply (wf_pending w Hwf p).
  - apply Hwf.
  - intros i tm Hi. apply is_Some_upd_query. by apply (wf_timers w Hwf i).
  - intros q1 q2 Q1 Q2 Hin1 Hin2 HQ1 HQ2 Heq.
    apply Hhash in HQ1 as (Q1' & HQ1 & Hh1). apply Hhash in HQ2 as (Q2' & HQ2 & Hh2).
    apply (wf_unique w Hwf q1 q2 Q1' Q2'); try done. congruence.
Qed.

Lemma wf_apply_state w q f :
  wf w ->
  (forall Q, heap w !! q = Some Q ->
     forall t0, lastUpdated (f (state Q)) = Some t0 -> 0 < t0 <= now w) ->
  wf (apply_state q f w).
Proof.
  intros Hwf Hf.
  apply (wf_ext (upd_query q (fun Q => set_state (f (state Q)) Q) w)); try done.
  apply wf_upd_query; [done| |done]. intros Q HQ. split.
  - apply (wf_heap w Hwf q Q HQ).
  - by apply Hf.
Qed.

Lemma wf_apply_state_keep w q f :
  wf w -> (forall s, lastUpdated (f s) = lastUpdated s) -> wf (apply_state q f w).
Proof.
  intros Hwf Hf. apply wf_apply_state; [done|].
  intros Q HQ t0. rewrite Hf. by apply (wf_heap w Hwf q Q HQ).
Qed.

Lemma wf_continued w q x : wf w -> wf (continued q x w).
Proof.
  intros Hwf. unfold continued.
  apply wf_apply_state_keep; [|done].
  apply wf_upd_query.
  - destruct x as [d|e]; cbn [outcome_update].
    + apply wf_apply_state; [done|]. intros Q HQ t0 [= <-].
      pose proof (wf_now w Hwf). lia.
    + by apply wf_apply_state_keep.
  - intros Q HQ. set (w1 := apply_state _ _ _) in *.
    assert (Hw1 : wf w1).
    { destruct x as [d|e]; cbn [outcome_update] in *.
      - apply wf_apply_state; [done|]. intros Q' HQ' t0 [= <-].
        pose proof (wf_now w Hwf). lia.
      - by apply wf_apply_state_keep. }
    exact (wf_heap w1 Hw1 q Q HQ).
  - done.
Qed.

Lemma wf_begun w q f : wf w -> wf (begun q f w).
Proof.
  intros Hwf. apply (wf_ext (apply_state q fetch_start w)); try done.
  by apply wf_apply_state_keep.
Qed.

Lemma wf_push_promise w P :
  wf w ->
  match P with
  | Pending q => is_Some (heap w !! q)
  | Fulfilled => True
  | Rejected _ => False
  end ->
  wf (with_promises (promises w ++ [P]) w).
Proof.
  intros Hwf HP. split; try apply Hwf.
  - intros p q. cbn. rewrite lookup_app_Some, list_lookup_singleton_Some.
    intros [Hp|(_ & _ & ->)]; [by apply (wf_pending w Hwf p)|done].
  - intros p e. cbn. rewrite lookup_app_Some, list_lookup_singleton_Some.
    intros [Hp|(_ & _ & ->)]; [by apply (wf_settled w Hwf p e)|done].
Qed.

Lemma wf_fulfil w p : wf w -> wf (with_promises (<[p := Fulfilled]> (promises w)) w).
Proof.
  intros Hwf. split; try apply Hwf.
  - intros p' q. cbn. rewrite list_lookup_insert_Some.
    intros [(_ & [=] & _)|[_ Hp]]. by apply (wf_pending w Hwf p').
  - intros p' e. cbn. rewrite list_lookup_insert_Some.
    intros [(_ & [=] & _)|[_ Hp]]. by apply (wf_settled w Hwf p' e).
Qed.

Lemma wf_fetched w q f r : wf w -> is_Some (heap w !! q) -> wf (fetched q f r w).
Proof.
  intros Hwf Hq. unfold fetched.
  assert (Hb : wf (begun q f w)) by (by apply wf_begun).
  assert (Hqb : is_Some (heap (begun q f w) !! q))
    by (by apply (is_Some_upd_query q)).
  apply wf_upd_query.
  - destruct r as [|e].
    + by apply (wf_push_promise (begun q f w)).
    + apply (wf_push_promise (continued q (Failed e) (begun q f w))); [|done].
      by apply wf_continued.
  - intros Q HQ.
    assert (Hw : wf match r with
       | Returns => with_promises (promises w ++ [Pending q]) (begun q f w)
       | Throws e => with_promises (promises w ++ [Fulfilled])
                       (continued q (Failed e) (begun q f w))
       end).
    { destruct r as [|e].
      - by apply (wf_push_promise (begun q f w)).
      - apply (wf_push_promise (continued q (Failed e) (begun q f w))); [|done].
        by apply wf_continued. }
    pose proof (wf_heap _ Hw q Q HQ) as HwQ. by destruct r.
  - done.
Qed.

Lemma wf_cleared w t : wf w -> wf (cleared t w).
Proof.
  intros Hwf. destruct t as [i|]; [|done]. split; try apply Hwf.
  intros j tm. cbn. rewrite list_lookup_insert_Some.
  intros [(_ & [=] & _)|[_ Hj]]. by apply (wf_timers w Hwf j).
Qed.

Lemma wf_scheduled `{Host} w q delay : wf w -> is_Some (heap w !! q) -> wf (scheduled q delay w).
Proof.
  intros Hwf Hq. unfold scheduled. apply wf_upd_query.
  - split; try apply Hwf.
    intros j tm. cbn. rewrite lookup_app_Some, list_lookup_singleton_Some.
    intros [Hj|(_ & _ & [= <-])]; [by apply (wf_timers w Hwf j)|done].
  - intros Q HQ. exact (wf_heap w Hwf q Q HQ).
  - done.
Qed.

Lemma wf_query_fetch w q r : wf w -> wf (exec (query_fetch q r) w).
Proof.
  intros Hwf. unfold exec.
  destruct (heap w !! q) as [Q|] eqn:HQ.
  - destruct (promise Q) as [p|] eqn:Hp.
    + by rewrite (query_fetch_in_flight q r w Q p).
    + rewrite (query_fetch_idle q r w Q) by (try apply wf_query_ok; done).
      by apply wf_fetched.
  - unfold query_fetch, bind, read_query. by rewrite HQ.
Qed.

Lemma wf_settle w p x : wf w -> wf (exec (settle p x) w).
Proof.
  intros Hwf. unfold exec.
  destruct (promises w !! p) as [[q| |e]|] eqn:Hp;
    try (unfold settle; by rewrite Hp).
  pose proof (wf_pending w Hwf p q Hp) as Hq.
  rewrite (settle_spec p x w q) by (try apply wf_query_ok; done).
  apply (wf_fulfil (continued q x w)). by apply wf_continued.
Qed.

Lemma wf_observer_fetch w o r : wf w -> wf (exec (observer_fetch o r) w).
Proof.
  intros Hwf. unfold exec.
  destruct (observers w !! o) as [ob|] eqn:Hob.
  - destruct (wf_observers w Hwf o ob Hob) as [Q HQ].
    rewrite (observer_fetch_spec o r w ob Q) by done.
    destruct (is_stale _ _ _); [|done].
    pose proof (wf_query_fetch w (query ob) r Hwf) as Hf. unfold exec in Hf.
    unfold bind. by destruct (query_fetch (query ob) r w) as [[?|?] ?].
  - unfold observer_fetch, bind, read_observer. by rewrite Hob.
Qed.

Lemma wf_query_subscribe w q o :
  wf w -> is_Some (observers w !! o) -> wf (exec (query_subscribe q o) w).
Proof.
  intros Hwf Ho. unfold exec.
  assert (Hu : wf (upd_query q (fun Q' => set_subscribers (subscribers Q' ++ [o]) Q') w)).
  { apply wf_upd_query; [done| |done]. intros Q HQ.
    destruct (wf_heap w Hwf q Q HQ) as [Hs Hl]. split; [|done].
    apply Forall_app. split; [done|]. by apply Forall_singleton. }
  destruct (heap w !! q) as [Q|] eqn:HQ.
  - rewrite (query_subscribe_spec q o w Q) by done. by apply wf_cleared.
  - unfold query_subscribe, bind, unscheduleGC, bind, read_query.
    rewrite modify_query_spec, lookup_upd_query, decide_True, HQ by done. exact Hu.
Qed.

Lemma wf_unsubscribe `{Host} w u : wf w -> wf (exec (unsubscribe u) w).
Proof.
  intros Hwf. unfold exec. destruct u as [q o].
  assert (Hu : wf (upd_query q (fun Q' =>
            set_subscribers (filter (fun d => d <> o) (subscribers Q')) Q') w)).
  { apply wf_upd_query; [done| |done]. intros Q HQ.
    destruct (wf_heap w Hwf q Q HQ) as [Hs Hl]. split; [|done].
    rewrite Forall_forall in Hs. apply Forall_forall.
    intros x [_ Hx]%list_elem_of_filter. by apply Hs. }
  destruct (heap w !! q) as [Q|] eqn:HQ.
  - rewrite (unsubscribe_spec (mkUnsubscribe q o) w Q) by done.
    cbn -[filter Nat.eqb]. destruct (length _ =? 0)%nat; [|done].
    apply wf_scheduled; [done|]. apply is_Some_upd_query. by eexists.
  - unfold unsubscribe, bind, read_query. cbn [unsub_query unsub_subscriber].
    rewrite modify_query_spec, lookup_upd_query, decide_True, HQ by done. exact Hu.
Qed.

Lemma wf_set_notify w o cb :
  wf w -> wf (with_observers (alter (set_notify cb) o (observers w)) w).
Proof.
  intros Hwf.
  assert (Hsome : forall o', is_Some (observers w !! o') ->
            is_Some (alter (set_notify cb) o (observers w) !! o')).
  { intros o' [ob Hob]. rewrite list_lookup_alter.
    case_decide; [subst; rewrite Hob|]; eauto. }
  split; try apply Hwf.
  - intros q Q HQ. destruct (wf_heap w Hwf q Q HQ) as [Hs Hl]. split; [|done].
    eapply Forall_impl; [exact Hs|]. intros o'. apply Hsome.
  - intros o' ob. cbn. rewrite list_lookup_alter. case_decide as Hd.
    + subst o'. destruct (observers w !! o) as [ob0|] eqn:Hob0; [|done].
      intros [= <-]. exact (wf_observers w Hwf o ob0 Hob0).
    + apply Hwf.
Qed.

Lemma wf_observer_subscribe w o cb r :
  wf w -> wf (exec (observer_subscribe o cb r) w).
Proof.
  intros Hwf. unfold exec, observer_subscribe, bind at 1, modify_observer, modify.
  set (w1 := with_observers _ w).
  assert (Hw1 : wf w1) by (by apply wf_set_notify).
  unfold bind at 1, read_observer.
  destruct (observers w1 !! o) as [ob|] eqn:Hob; [|done].
  unfold bind at 1.
  pose proof (wf_query_subscribe w1 (query ob) o Hw1 (mk_is_Some _ _ Hob)) as Hs.
  unfold exec in Hs. destruct (query_subscribe (query ob) o w1) as [[u|e] w2]; [|done].
  cbn [snd] in Hs. unfold bind.
  pose proof (wf_observer_fetch w2 o r Hs) as Hf. unfold exec in Hf.
  by destruct (observer_fetch o r w2) as [[?|?] ?].
Qed.

Lemma wf_alloc_query w Q :
  wf w -> query_wf w Q -> wf (with_heap (heap w ++ [Q]) w).
Proof.
  intros Hwf HQ.
  assert (Hsome : forall q, is_Some (heap w !! q) -> is_Some ((heap w ++ [Q]) !! q)).
  { intros q [Q' HQ']. exists Q'. by apply lookup_app_l_Some. }
  split; try apply Hwf.
  - intros q Hq. apply Hsome. by apply Hwf.
  - intros q Q'. cbn. rewrite lookup_app_Some, list_lookup_singleton_Some.
    intros [HQ'|(_ & _ & <-)]; [exact (wf_heap w Hwf q Q' HQ')|exact HQ].
  - intros o ob Hob. apply Hsome. exact (wf_observers w Hwf o ob Hob).
  - intros p q Hp. apply Hsome. exact (wf_pending w Hwf p q Hp).
  - intros i tm Hi. apply Hsome. exact (wf_timers w Hwf i tm Hi).
  - intros q1 q2 Q1 Q2 Hin1 Hin2. cbn in Hin1, Hin2 |- *.
    destruct (wf_registry w Hwf q1 Hin1) as [Q1' HQ1'].
    destruct (wf_registry w Hwf q2 Hin2) as [Q2' HQ2'].
    rewrite (lookup_app_l_Some _ _ _ _ HQ1'), (lookup_app_l_Some _ _ _ _ HQ2').
    intros [= <-] [= <-]. by apply (wf_unique w Hwf).
Qed.

Lemma wf_register w q Q :
  wf w -> heap w !! q = Some Q ->
  (forall d, d ∈ queries w -> hash_matches w (queryHash Q) d = false) ->
  wf (with_queries (queries w ++ [q]) w).
Proof.
  intros Hwf HQ Hfresh.
  assert (Hne : forall d Qd, d ∈ queries w -> heap w !! d = Some Qd ->
            queryHash Qd <> queryHash Q).
  { intros d Qd Hd HQd Heq. specialize (Hfresh d Hd).
    assert (Ht : hash_matches w (queryHash Q) d = true); [|congruence].
    unfold hash_matches. rewrite HQd. by apply bool_decide_eq_true. }
  split; try apply Hwf.
  - intros q'. cbn. rewrite elem_of_app, list_elem_of_singleton.
    intros [Hq'| ->]; [by apply Hwf|by eexists].
  - intros q1 q2 Q1 Q2. cbn. rewrite !elem_of_app, !list_elem_of_singleton.
    intros [Hin1| ->] [Hin2| ->] HQ1 HQ2 Heq; try done.
    + by apply (wf_unique w Hwf q1 q2 Q1 Q2).
    + destruct (Hne q1 Q1 Hin1 HQ1). congruence.
    + destruct (Hne q2 Q2 Hin2 HQ2). congruence.
Qed.

Lemma wf_getQuery `{Host} w opts :
  wf w ->
  wf (exec (getQuery opts) w) /\
  exists q, result (getQuery opts) w = Normal q /\
            is_Some (heap (exec (getQuery opts) w) !! q) /\
            observers (exec (getQuery opts) w) = observers w.
Proof.
  intros Hwf. unfold exec, result.
  destruct (find (hash_matches w (JSON_stringify (opt_queryKey opts))) (queries w))
    as [q|] eqn:Hf.
  - rewrite (getQuery_found opts w q Hf). split; [done|]. exists q. split_and!; try done.
    apply find_some in Hf as [_ Hm]. unfold hash_matches in Hm.
    cbn [snd]. destruct (heap w !! q); [by eexists|done].
  - rewrite (getQuery_fresh opts w Hf). cbn [fst snd].
    assert (Hnew : (heap w ++ [new_query opts]) !! length (heap w) = Some (new_query opts)).
    { by rewrite lookup_app_r, Nat.sub_diag by lia. }
    split.
    + apply (wf_register (with_heap (heap w ++ [new_query opts]) w) _ (new_query opts)).
      * apply wf_alloc_query; [done|]. split; [by apply Forall_nil|done].
      * exact Hnew.
      * intros d Hd. cbn in Hd.
        rewrite (hash_matches_alloc w (with_heap (heap w ++ [new_query opts]) w)
                   (new_query opts) _ d eq_refl (wf_registry w Hwf d Hd)).
        apply (find_none _ _ Hf). by apply list_elem_of_In.
    + exists (length (heap w)). split_and!; try done; by eexists.
Qed.

Lemma wf_createQueryObserver `{Host} w opts :
  wf w -> wf (exec (createQueryObserver opts) w).
Proof.
  intros Hwf. unfold exec, createQueryObserver, bind.
  destruct (wf_getQuery w
    (mkOptions (opt_queryKey opts) (opt_queryFn opts) None (opt_cacheTime opts)) Hwf)
    as (Hw1 & q & Hres & Hq & _).
  unfold exec, result in *.
  destruct (getQuery _ w) as [r w1]. cbn [fst snd] in *. subst r.
  assert (Hsome : forall o, is_Some (observers w1 !! o) ->
            is_Some ((observers w1 ++ [new_observer q opts]) !! o)).
  { intros o [ob Hob]. exists ob. by apply lookup_app_l_Some. }
  split; try apply Hw1.
  - intros q' Q HQ. destruct (wf_heap w1 Hw1 q' Q HQ) as [Hs Hl]. split; [|done].
    eapply Forall_impl; [exact Hs|]. intros o'. apply Hsome.
  - intros o ob. cbn. rewrite lookup_app_Some, list_lookup_singleton_Some.
    intros [Hob|(_ & _ & <-)]; [exact (wf_observers w1 Hw1 o ob Hob)|exact Hq].
Qed.

(** ** Time passing *)

Lemma fold_gc_callback fired : forall w,
  let w' := fold_left (fun w' q => gc_callback q w') fired w in
  now w' = now w /\ heap w' = heap w /\ observers w' = observers w /\
  promises w' = promises w /\ timers w' = timers w /\ trace w' = trace w /\
  forall d, d ∈ queries w' <-> d ∈ queries w /\ d ∉ fired.
Proof.
  induction fired as [|q fired IH]; intros w; cbn [fold_left].
  - split_and!; try done. intros d. split; [|by intros [? _]].
    intros Hd. split; [done|]. apply not_elem_of_nil.
  - destruct (IH (gc_callback q w)) as (Hn & Hh & Ho & Hp & Ht & Htr & Hq).
    split_and!; try done. intros d. rewrite Hq. cbn.
    rewrite list_elem_of_filter, not_elem_of_cons. tauto.
Qed.

Lemma elem_of_due_targets t tms q :
  q ∈ due_targets t tms <->
  exists i tm, tms !! i = Some (Some tm) /\ due tm <= t /\ target tm = q.
Proof.
  unfold due_targets. rewrite list_elem_of_omap. split.
  - intros ([tm|] & Hin & Hf); cbn in Hf; [|done].
    destruct (due tm <=? t) eqn:Hd; [|done]. injection Hf as <-.
    apply list_elem_of_lookup in Hin as [i Hi]. exists i, tm. split_and!; [done|lia|done].
  - intros (i & tm & Hi & Hd & <-). exists (Some tm). split.
    + apply list_elem_of_lookup. by exists i.
    + cbn. by rewrite (proj2 (Z.leb_le _ _) Hd).
Qed.

Lemma lookup_expire t tms i tm :
  expire t tms !! i = Some (Some tm) <-> tms !! i = Some (Some tm) /\ t < due tm.
Proof.
  unfold expire. rewrite list_lookup_fmap.
  destruct (tms !! i) as [[tm'|]|]; cbn; [|by split; [|intros [? _]]..].
  destruct (Z.leb_spec (due tm') t) as [Hd|Hd].
  - split; [done|]. intros [[= ->] ?]. lia.
  - split; [by intros [= ->]|by intros [? _]].
Qed.

Lemma tick_spec dt w :
  let t := now w + Z.max 0 dt in
  let w' := exec (tick dt) w in
  now w' = t /\ heap w' = heap w /\ observers w' = observers w /\
  promises w' = promises w /\ trace w' = trace w /\
  timers w' = expire t (timers w) /\
  forall d, d ∈ queries w' <-> d ∈ queries w /\ d ∉ due_targets t (timers w).
Proof.
  cbn zeta. unfold exec, tick, run_timers, bind, modify. cbn [snd]. cbv beta.
  set (w0 := with_now (now w + Z.max 0 dt) w).
  destruct (fold_gc_callback (due_targets (now w0) (timers w0))
              (with_timers (expire (now w0) (timers w0)) w0))
    as (Hn & Hh & Ho & Hp & Ht & Htr & Hq).
  cbn zeta in *. rewrite Hn, Hh, Ho, Hp, Ht, Htr. split_and!; try done.
Qed.

Lemma wf_tick w dt : wf w -> wf (exec (tick dt) w).
Proof.
  intros Hwf.
  destruct (tick_spec dt w) as (Hn & Hh & Ho & Hp & _ & Ht & Hq).
  split; unfold query_wf; rewrite ?Hn, ?Hh, ?Ho, ?Hp, ?Ht; try apply Hwf.
  - pose proof (wf_now w Hwf). lia.
  - intros q [Hin _]%Hq. by apply Hwf.
  - intros q Q HQ. destruct (wf_heap w Hwf q Q HQ) as [Hs Hl]. split; [done|].
    intros t0 Ht0. specialize (Hl t0 Ht0). lia.
  - intros i tm [Hi _]%lookup_expire. by apply (wf_timers w Hwf i).
  - intros q1 q2 Q1 Q2 [Hin1 _]%Hq [Hin2 _]%Hq. by apply (wf_unique w Hwf).
Qed.

(** Every reachable world is well-formed. *)
Lemma wf_new_client t : 0 < t -> wf (new_client t).
Proof.
  intros Ht. split; try done.
  intros q Hq. by apply elem_of_nil in Hq.
Qed.

Lemma wf_step `{Host} w op : wf w -> op_ok w op -> wf (step op w).
Proof.
  intros Hwf Hok. destruct op; cbn [step op_ok] in *.
  - by apply wf_getQuery.
  - by apply wf_createQueryObserver.
  - by apply wf_observer_subscribe.
  - by apply wf_observer_fetch.
  - by apply wf_query_subscribe.
  - by apply wf_unsubscribe.
  - by apply wf_query_fetch.
  - by apply wf_settle.
  - by apply wf_tick.
Qed.

Lemma reachable_wf `{Host} w : reachable w -> wf w.
Proof.
  induction 1 as [t Ht|w op _ IH Hok]; [by apply wf_new_client|by apply wf_step].
Qed.

(** ** What the operations keep *)

Section Keeps.
Context (R : World -> World -> Prop) `{!Stable R}.

Lemma keeps_ret {A} (a : A) : keeps R (ret a).
Proof. intros w. apply stable_refl. Qed.

Lemma keeps_throw {A} (e : Val) : keeps R (@throw A e).
Proof. intros w. apply stable_refl. Qed.

Lemma keeps_gets {A} (f : World -> A) : keeps R (gets f).
Proof. intros w. apply stable_refl. Qed.

Lemma keeps_modify (f : World -> World) : (forall w, R w (f w)) -> keeps R (modify f).
Proof. intros Hf w. apply Hf. Qed.

Lemma keeps_bind {A B} (m : M A) (k : A -> M B) :
  keeps R m -> (forall a, keeps R (k a)) -> keeps R (bind m k).
Proof.
  intros Hm Hk w. unfold exec, bind. specialize (Hm w). unfold exec in Hm.
  destruct (m w) as [[a|e] w1]; cbn [snd] in *; [|done].
  eapply stable_trans; [exact Hm|apply Hk].
Qed.

Lemma keeps_try_catch_finally body handler fin :
  keeps R body -> (forall e, keeps R (handler e)) -> keeps R fin ->
  keeps R (try_catch_finally body handler fin).
Proof.
  intros Hb Hh Hf w. unfold exec, try_catch_finally.
  specialize (Hb w). unfold exec in Hb.
  destruct (body w) as [[a|e] w1]; cbn [snd] in Hb.
  - specialize (Hf w1). unfold exec in Hf.
    destruct (fin w1) as [[?|?] w2]; cbn [snd] in *; by eapply stable_trans.
  - specialize (Hh e w1). unfold exec in Hh.
    destruct (handler e w1) as [r w2]; cbn [snd] in Hh.
    specialize (Hf w2). unfold exec in Hf.
    destruct (fin w2) as [[?|?] w3]; cbn [snd] in *;
      (eapply stable_trans; [exact Hb|by eapply stable_trans]).
Qed.

Lemma keeps_forEach {A} (f : A -> M unit) l :
  (forall x, keeps R (f x)) -> keeps R (forEach f l).
Proof.
  intros Hf. induction l as [|x l IH]; [apply keeps_ret|].
  cbn [forEach]. apply keeps_bind; [apply Hf|done].
Qed.

Lemma keeps_read_query q : keeps R (read_query q).
Proof.
  intros w. unfold exec, read_query. destruct (heap w !! q); apply stable_refl.
Qed.

Lemma keeps_read_observer o : keeps R (read_observer o).
Proof.
  intros w. unfold exec, read_observer. destruct (observers w !! o); apply stable_refl.
Qed.

Lemma keeps_modify_query q f :
  (forall Q, lastUpdated (state (f Q)) = lastUpdated (state Q)) ->
  keeps R (modify_query q f).
Proof. intros Hf w. by apply stable_query. Qed.

Lemma keeps_emit ev : keeps R (emit ev).
Proof. intros w. apply stable_trace. Qed.

Lemma keeps_call_notify o : keeps R (call_notify o).
Proof.
  apply keeps_bind; [apply keeps_read_observer|]. intros ob.
  apply keeps_bind; [apply keeps_gets|]. intros seen. apply keeps_emit.
Qed.

Lemma keeps_setState q f :
  (forall s, lastUpdated (f s) = lastUpdated s) -> keeps R (setState q f).
Proof.
  intros Hf. apply keeps_bind; [apply keeps_modify_query; intros Q; apply Hf|].
  intros _. apply keeps_bind; [apply keeps_read_query|]. intros Q.
  apply keeps_forEach, keeps_call_notify.
Qed.

Lemma keeps_fetch_continue_failed q e : keeps R (fetch_continue q (Failed e)).
Proof.
  apply keeps_try_catch_finally.
  - apply keeps_throw.
  - intros e'. by apply keeps_setState.
  - apply keeps_bind; [by apply keeps_modify_query|]. intros _. by apply keeps_setState.
Qed.

Lemma keeps_fetch_async q r : keeps R (fetch_async q r).
Proof.
  intros w. unfold exec, fetch_async.
  match goal with |- context [let '(_, _) := ?m w in _] => set (body := m) end.
  assert (Hb : keeps R body).
  { subst body. apply keeps_bind; [by apply keeps_setState|]. intros _.
    apply keeps_bind; [apply keeps_read_query|]. intros Q.
    apply keeps_bind; [apply keeps_emit|]. intros _.
    destruct r as [|e]; [apply keeps_ret|].
    apply keeps_bind; [apply keeps_fetch_continue_failed|]. intros _. apply keeps_ret. }
  specialize (Hb w). unfold exec in Hb.
  destruct (body w) as [r' w']. cbn [snd] in *.
  eapply stable_trans; [exact Hb|apply stable_promises].
Qed.

Lemma keeps_query_fetch q r : keeps R (query_fetch q r).
Proof.
  apply keeps_bind; [apply keeps_read_query|]. intros Q.
  apply keeps_bind.
  - destruct (promise Q); [apply keeps_ret|].
    apply keeps_bind; [apply keeps_fetch_async|]. intros p. by apply keeps_modify_query.
  - intros _. apply keeps_bind; [apply keeps_read_query|]. intros Q'. apply keeps_ret.
Qed.

Lemma keeps_observer_fetch o r : keeps R (observer_fetch o r).
Proof.
  apply keeps_bind; [apply keeps_read_observer|]. intros ob.
  apply keeps_bind; [apply keeps_read_query|]. intros Q.
  apply keeps_bind; [apply keeps_gets|]. intros t.
  destruct (is_stale _ _ _); [|apply keeps_ret].
  apply keeps_bind; [apply keeps_query_fetch|]. intros _. apply keeps_ret.
Qed.

Lemma keeps_settle_failed p e : keeps R (settle p (Failed e)).
Proof.
  intros w. unfold exec, settle.
  destruct (promises w !! p) as [[q| |e']|]; try apply stable_refl.
  pose proof (keeps_fetch_continue_failed q e w) as Hc. unfold exec in Hc.
  destruct (fetch_continue q (Failed e) w) as [r w']. cbn [snd] in *.
  eapply stable_trans; [exact Hc|apply stable_promises].
Qed.

Lemma keeps_clearTimeout t : keeps R (clearTimeout t).
Proof. destruct t; [intros w; apply stable_cleared|apply keeps_ret]. Qed.

Lemma keeps_unscheduleGC q : keeps R (unscheduleGC q).
Proof. apply keeps_bind; [apply keeps_read_query|]. intros Q. apply keeps_clearTimeout. Qed.

Lemma keeps_query_subscribe q o : keeps R (query_subscribe q o).
Proof.
  apply keeps_bind; [by apply keeps_modify_query|]. intros _.
  apply keeps_bind; [apply keeps_unscheduleGC|]. intros _. apply keeps_ret.
Qed.

Lemma keeps_observer_subscribe o cb r : keeps R (observer_subscribe o cb r).
Proof.
  apply keeps_bind; [intros w; apply stable_observers|]. intros _.
  apply keeps_bind; [apply keeps_read_observer|]. intros ob.
  apply keeps_bind; [apply keeps_query_subscribe|]. intros u.
  apply keeps_bind; [apply keeps_observer_fetch|]. intros _. apply keeps_ret.
Qed.

Lemma keeps_getQuery `{Host} opts : keeps R (getQuery opts).
Proof.
  apply keeps_bind; [apply keeps_gets|]. intros [q|]; [apply keeps_ret|].
  apply keeps_bind.
  - intros w. by apply stable_alloc.
  - intros q. apply keeps_bind; [intros w; apply stable_queries|]. intros _.
    apply keeps_ret.
Qed.

Lemma keeps_createQueryObserver `{Host} opts : keeps R (createQueryObserver opts).
Proof.
  apply keeps_bind; [apply keeps_getQuery|]. intros q w. apply stable_observers.
Qed.
End Keeps.

(** [lastUpdated] through the stores. *)
Lemma lastUpdated_of_ext w w' q :
  heap w' = heap w -> lastUpdated_of w' q = lastUpdated_of w q.
Proof. unfold lastUpdated_of. by intros ->. Qed.

Lemma lastUpdated_of_upd_query q' f w q :
  (forall Q, lastUpdated (state (f Q)) = lastUpdated (state Q)) ->
  lastUpdated_of (upd_query q' f w) q = lastUpdated_of w q.
Proof.
  intros Hf. unfold lastUpdated_of. rewrite lookup_upd_query.
  case_decide as Hd; [subst q'|done].
  destruct (heap w !! q) as [Q|]; cbn; [apply Hf|done].
Qed.

Lemma lastUpdated_of_alloc w Q0 q :
  lastUpdated (state Q0) = None ->
  lastUpdated_of (with_heap (heap w ++ [Q0]) w) q = lastUpdated_of w q.
Proof.
  intros H0. unfold lastUpdated_of. cbn.
  destruct (heap w !! q) as [Q|] eqn:HQ.
  - by rewrite (lookup_app_l_Some _ _ _ _ HQ).
  - destruct ((heap w ++ [Q0]) !! q) as [Q|] eqn:HQ'; [|done].
    apply lookup_app_Some in HQ' as [HQ'|(_ & HQ')]; [congruence|].
    apply list_lookup_singleton_Some in HQ' as [_ <-]. exact H0.
Qed.

#[local] Instance same_lastUpdated_stable q : Stable (same_lastUpdated q).
Proof.
  split; unfold same_lastUpdated.
  - done.
  - intros w1 w2 w3 H12 H23. by rewrite H23.
  - intros w q' f Hf. by apply lastUpdated_of_upd_query.
  - intros w Q0 H0. by apply lastUpdated_of_alloc.
  - done.
  - done.
  - done.
  - done.
  - done.
Qed.

Lemma lu_scheduleGC `{Host} q q' : keeps (same_lastUpdated q) (scheduleGC q').
Proof.
  apply keeps_bind; [apply _|apply keeps_read_query, _|]. intros Q.
  apply keeps_bind; [apply _|by intros w|]. intros t. by apply keeps_modify_query; [apply _|].
Qed.

Lemma lu_unsubscribe `{Host} q u : keeps (same_lastUpdated q) (unsubscribe u).
Proof.
  apply keeps_bind; [apply _|by apply keeps_modify_query; [apply _|]|]. intros _.
  apply keeps_bind; [apply _|apply keeps_read_query, _|]. intros Q.
  destruct (_ =? _)%nat; [apply lu_scheduleGC|apply keeps_ret, _].
Qed.

Lemma lu_tick q dt : keeps (same_lastUpdated q) (tick dt).
Proof.
  intros w. apply lastUpdated_of_ext.
  by destruct (tick_spec dt w) as (_ & Hh & _).
Qed.

#[local] Instance timers_shrink_stable : Stable timers_shrink.
Proof.
  split; unfold timers_shrink; try done.
  - intros w1 w2 w3 H12 H23 i tm Hi. by apply H12, H23.
  - intros w i j tm. cbn. rewrite list_lookup_insert_Some.
    by intros [(_ & [=] & _)|[_ Hj]].
Qed.

Lemma timers_shrink_tick dt : keeps timers_shrink (tick dt).
Proof.
  intros w i tm. destruct (tick_spec dt w) as (_ & _ & _ & _ & _ & -> & _).
  by intros [Hi _]%lookup_expire.
Qed.

(** The example worlds are reachable. *)
Lemma reachable_ex_rendered : @reachable example_host ex_rendered.
Proof. apply (reach_step ex_new); [apply reach_new; lia|exact I]. Qed.

Lemma reachable_ex_mounted : @reachable example_host ex_mounted.
Proof. apply (reach_step ex_rendered); [apply reachable_ex_rendered|exact I]. Qed.

Lemma reachable_ex_waiting : @reachable example_host ex_waiting.
Proof. apply (reach_step ex_mounted); [apply reachable_ex_mounted|exact I]. Qed.

Lemma reachable_ex_loaded : @reachable example_host ex_loaded.
Proof. apply (reach_step ex_waiting); [apply reachable_ex_waiting|exact I]. Qed.

(** The scenarios of the specification, run on the model. *)

(** Subscribing an Observer takes the state from loading to success, with
    the data and [lastUpdated] set. *)
Example scenario_first_use :
  (state <$> heap ex_mounted !! 0%nat) = Some initial_state /\
  (state <$> heap ex_loaded !! 0%nat)
    = Some (mkState s_success false (VStr "posts data") VUndefined (Some 1050)).
Proof. by split. Qed.

(** 6001 ms after the only Observer unsubscribed, the Query is absent and a
    lookup creates a fresh loading Query. *)
Example scenario_eviction :
  let w := exec (tick 6001) ex_unmounted in
  queries w = [] /\
  result (@getQuery example_host posts) w = Normal 1%nat /\
  (state <$> heap (exec (@getQuery example_host posts) w) !! 1%nat) = Some initial_state.
Proof. by split_and!. Qed.

(** A new Observer 3000 ms after the unsubscribe gets the same Query, which
    is then not collected. *)
Example scenario_resubscription :
  let w := exec (@createQueryObserver example_host posts) (exec (tick 3000) ex_unmounted) in
  (query <$> observers w !! 1%nat) = Some 0%nat /\
  queries (exec (tick 6000) (exec (observer_subscribe 1 "rerender" Returns) w)) = [0%nat].
Proof. by split. Qed.

(** A refetch that fails leaves the data of the last success, and its
    time, next to the error. *)
Example scenario_failed_refetch :
  (state <$> heap ex_refetch_failed !! 0%nat)
    = Some (mkState s_error false (VStr "posts data") (VStr "Network Error") (Some 1050)) /\
  promises ex_refetch_failed = [Fulfilled; Fulfilled].
Proof. by split. Qed.

(** With [staleTime] 10000, [observer.fetch()] 5000 ms after the success
    fetches nothing, and 11000 ms after it fetches. *)
Example scenario_staleness :
  calls 0 (trace ex_loaded) = 1%nat /\
  calls 0 (trace (exec (observer_fetch 0 Returns) (exec (tick 5000) ex_loaded))) = 1%nat /\
  calls 0 (trace (exec (observer_fetch 0 Returns) (exec (tick 11000) ex_loaded))) = 2%nat.
Proof. by split_and!. Qed.

Lemma reachable_query_ok `{Host} w q :
  reachable w -> is_Some (heap w !! q) -> query_ok w q.
Proof. intros Hr. apply wf_query_ok. by apply reachable_wf. Qed.

(** * The claims *)

(** C1. While the in-flight handle of a Query is set, [fetch()] neither
    invokes the fetch operation nor changes anything: it returns the stored
    handle. Hence when callers call [fetch()] one after the other on an
    idle Query, the fetch operation is invoked exactly once, every caller
    gets the same handle, and what they leave is what the first call left,
    so that the one settlement of that handle gives all of them the same
    state. *)
Theorem C1_fetch_dedup `{Host} (w : World) (q : QueryId) (Q : Query) :
  reachable w -> heap w !! q = Some Q ->
  (forall p r, promise Q = Some p -> query_fetch q r w = (Normal (Some p), w)) /\
  (promise Q = None -> forall r rs,
     exists p,
       result (fetch_many q (r :: rs)) w = Normal (repeat (Some p) (S (length rs))) /\
       exec (fetch_many q (r :: rs)) w = exec (query_fetch q r) w /\
       calls q (trace (exec (fetch_many q (r :: rs)) w)) = S (calls q (trace w)) /\
       forall x, exec (settle p x) (exec (fetch_many q (r :: rs)) w)
                 = exec (settle p x) (exec (query_fetch q r) w)).
Proof.
  intros Hr HQ.
  assert (Hok : query_ok w q) by (by apply reachable_query_ok).
  split.
  - intros p r Hp. by apply (query_fetch_in_flight q r w Q p).
  - intros Hp r rs. exists (length (promises w)).
    pose proof (lookup_fetched q (queryFn Q) r w Q HQ) as HQ1.
    assert (Hmany : fetch_many q (r :: rs) w
              = (Normal (repeat (Some (length (promises w))) (S (length rs))),
                 fetched q (queryFn Q) r w)).
    { cbn [fetch_many]. unfold bind at 1.
      rewrite (query_fetch_idle q r w Q) by done.
      unfold bind at 1. erewrite fetch_many_in_flight; [reflexivity|exact HQ1|reflexivity]. }
    unfold result, exec. rewrite Hmany, (query_fetch_idle q r w Q) by done. cbn [fst snd].
    split_and!; [done|done|apply calls_fetched|done].
Qed.

Lemma C1_fetch_dedup_witness :
  @reachable example_host ex_rendered /\
  heap ex_rendered !! 0%nat = Some (@new_query example_host posts) /\
  promise (@new_query example_host posts) = None /\
  exists p,
    result (fetch_many 0 [Returns; Returns; Returns]) ex_rendered
      = Normal [Some p; Some p; Some p] /\
    calls 0 (trace (exec (fetch_many 0 [Returns; Returns; Returns]) ex_rendered))
      = S (calls 0 (trace ex_rendered)).
Proof.
  split; [apply reachable_ex_rendered|]. split; [reflexivity|]. split; [reflexivity|].
  destruct (@C1_fetch_dedup example_host ex_rendered 0%nat
              (@new_query example_host posts) reachable_ex_rendered eq_refl)
    as [_ Hidle].
  destruct (Hidle eq_refl Returns [Returns; Returns]) as (p & Hres & _ & Hcalls & _).
  exists p. split; [exact Hres|exact Hcalls].
Defined.

(** ** The staleness gate *)

Lemma is_stale_iff t lu T :
  (forall t0, lu = Some t0 -> 0 < t0) ->
  is_stale t lu T = true <-> lu = None \/ exists t0, lu = Some t0 /\ t - t0 > T.
Proof.
  intros Hpos. destruct lu as [t0|]; cbn.
  - specialize (Hpos t0 eq_refl).
    rewrite orb_true_iff, Z.eqb_eq, Z.ltb_lt. split.
    + intros [?|?]; [lia|]. right. exists t0. split; [done|lia].
    + intros [[=]|(t1 & [= <-] & Ht)]. right. lia.
  - split; [by left|done].
Qed.

(** C2. In every reachable world, [observer.fetch()] at clock time [now]
    calls [query.fetch()] when [lastUpdated] is unset or
    [now - lastUpdated > staleTime], which on an idle Query invokes the
    fetch operation once; and it does nothing at all otherwise: the world
    is as it was. *)
Theorem C2_staleness_gate `{Host} (w : World) (o : ObserverId) (ob : Observer)
    (Q : Query) (r : CallResult) :
  reachable w ->
  observers w !! o = Some ob -> heap w !! query ob = Some Q ->
  let stale := lastUpdated (state Q) = None \/
               exists t0, lastUpdated (state Q) = Some t0 /\ now w - t0 > staleTime ob in
  (is_stale (now w) (lastUpdated (state Q)) (staleTime ob) = true <-> stale) /\
  (stale -> observer_fetch o r w = (query_fetch (query ob) r ;;; ret tt) w) /\
  (stale -> promise Q = None ->
     calls (query ob) (trace (exec (observer_fetch o r) w))
       = S (calls (query ob) (trace w))) /\
  (~ stale -> observer_fetch o r w = (Normal tt, w)).
Proof.
  intros Hr Hob HQ stale.
  assert (Hiff : is_stale (now w) (lastUpdated (state Q)) (staleTime ob) = true <-> stale).
  { apply is_stale_iff. intros t0 Ht0.
    destruct (wf_heap w (reachable_wf w Hr) (query ob) Q HQ) as [_ Hl].
    specialize (Hl t0 Ht0). lia. }
  unfold exec. rewrite (observer_fetch_spec o r w ob Q Hob HQ).
  split_and!; [exact Hiff| | |].
  - intros Hs. by rewrite (proj2 Hiff Hs).
  - intros Hs Hp. rewrite (proj2 Hiff Hs). unfold bind.
    rewrite (query_fetch_idle (query ob) r w Q)
      by (try apply reachable_query_ok; done).
    apply calls_fetched.
  - intros Hs. destruct (is_stale _ _ _); [|done]. destruct Hs. by apply Hiff.
Qed.

Lemma C2_staleness_gate_witness :
  @reachable example_host ex_loaded /\
  (exists ob Q, observers ex_loaded !! 0%nat = Some ob /\
     heap ex_loaded !! query ob = Some Q /\
     lastUpdated (state Q) = Some 1050 /\ staleTime ob = 10000 /\ now ex_loaded = 1050 /\
     observer_fetch 0 Returns ex_loaded = (Normal tt, ex_loaded)).
Proof.
  split; [apply reachable_ex_loaded|].
  eexists _, _. split; [reflexivity|]. split; [reflexivity|].
  split; [reflexivity|]. split; [reflexivity|]. split; [reflexivity|].
  refine (proj2 (proj2 (proj2 (@C2_staleness_gate example_host ex_loaded 0%nat _ _
            Returns reachable_ex_loaded eq_refl eq_refl))) _).
  intros [Hnone|(t0 & Ht0 & Hgt)].
  - discriminate Hnone.
  - injection Ht0 as <-. vm_compute in Hgt. discriminate Hgt.
Defined.

(** ** Failure *)

(** C4. In every reachable world, the failure transition of a Query (the
    [setState] of the [catch] block) sets [status] to error, stores the
    failure in [state.error] and leaves [state.data] as it was; so do a
    whole rejected fetch (the awaited promise fails) and a fetch whose
    operation throws when called: the cached data survive the failure. *)
Theorem C4_failure_keeps_data `{Host} (w : World) (q : QueryId) (Q : Query) (e : Val) :
  reachable w -> heap w !! q = Some Q ->
  let failed_on (w' : World) :=
    exists Q', heap w' !! q = Some Q' /\
      status (state Q') = s_error /\ error (state Q') = e /\
      data (state Q') = data (state Q) in
  failed_on (exec (setState q (fetch_failure e)) w) /\
  (forall p, promises w !! p = Some (Pending q) ->
     failed_on (exec (settle p (Failed e)) w)) /\
  (promise Q = None -> failed_on (exec (query_fetch q (Throws e)) w)).
Proof.
  intros Hr HQ failed_on.
  assert (Hok : query_ok w q) by (by apply reachable_query_ok).
  unfold failed_on, exec. split_and!.
  - rewrite setState_spec by done. cbn [snd].
    rewrite lookup_apply_state, decide_True, HQ by done. by eexists.
  - intros p Hp. rewrite (settle_spec p (Failed e) w q) by done. cbn [snd].
    change (heap (with_promises _ ?w') !! q) with (heap w' !! q).
    rewrite (lookup_continued q (Failed e) w Q HQ). by eexists.
  - intros Hp. rewrite (query_fetch_idle q (Throws e) w Q) by done. cbn [snd].
    rewrite (lookup_fetched q (queryFn Q) (Throws e) w Q HQ). by eexists.
Qed.

Lemma C4_failure_keeps_data_witness :
  @reachable example_host ex_loaded /\
  (exists Q, heap ex_loaded !! 0%nat = Some Q /\ data (state Q) = VStr "posts data" /\
     exists Q', heap (exec (setState 0 (fetch_failure (VStr "Network Error"))) ex_loaded)
                  !! 0%nat = Some Q' /\
       status (state Q') = s_error /\ error (state Q') = VStr "Network Error" /\
       data (state Q') = VStr "posts data").
Proof.
  split; [apply reachable_ex_loaded|].
  eexists. split; [reflexivity|]. split; [reflexivity|].
  exact (proj1 (@C4_failure_keeps_data example_host ex_loaded 0%nat _
                  (VStr "Network Error") reachable_ex_loaded eq_refl)).
Defined.

(** ** Settlement and the in-flight handle *)

(** When the awaited promise settles, with either outcome, the resumed
    arrow leaves [isFetching] false and the handle cleared, and the next
    [fetch()] invokes the fetch operation again. *)
Lemma settle_recovers `{Host} (w : World) (p : PromiseId) (q : QueryId) (x : Outcome) :
  reachable w -> promises w !! p = Some (Pending q) ->
  let w' := exec (settle p x) w in
  exists Q', heap w' !! q = Some Q' /\
    isFetching (state Q') = false /\ promise Q' = None /\
    forall r, calls q (trace (exec (query_fetch q r) w')) = S (calls q (trace w')).
Proof.
  intros Hr Hp w'.
  pose proof (reachable_wf w Hr) as Hwf.
  destruct (wf_pending w Hwf p q Hp) as [Q HQ].
  assert (Hok : query_ok w q) by (by apply reachable_query_ok).
  assert (Hr' : reachable w') by (exact (reach_step w (OpSettle p x) Hr I)).
  assert (HQ' : heap w' !! q = Some (settled_query x (now w) Q)).
  { subst w'. unfold exec. rewrite (settle_spec p x w q) by done.
    exact (lookup_continued q x w Q HQ). }
  eexists. split; [exact HQ'|]. split_and!; [done|done|].
  intros r. unfold exec.
  rewrite (query_fetch_idle q r w' _ HQ') by (try apply reachable_query_ok; done).
  apply calls_fetched.
Qed.

(** C5 (where the code departs from it). A fetch operation that throws when
    it is called ends the [async] arrow before [fetch] has stored the
    arrow's promise: the [finally] block clears a handle that is not set
    yet, then [fetch] stores the promise, which is already fulfilled. The
    Query is left failed, not fetching, with the handle set for good: every
    later [fetch()] returns that handle and never invokes the fetch
    operation again. *)
Theorem C5_throwing_fetch_keeps_handle `{Host} (w : World) (q : QueryId) (Q : Query)
    (e : Val) :
  reachable w -> heap w !! q = Some Q -> promise Q = None ->
  let w' := exec (query_fetch q (Throws e)) w in
  exists Q' p,
    heap w' !! q = Some Q' /\
    status (state Q') = s_error /\ isFetching (state Q') = false /\
    promise Q' = Some p /\ promises w' !! p = Some Fulfilled /\
    forall r, query_fetch q r w' = (Normal (Some p), w') /\
              calls q (trace (exec (query_fetch q r) w')) = calls q (trace w').
Proof.
  intros Hr HQ Hp w'.
  assert (Hok : query_ok w q) by (by apply reachable_query_ok).
  assert (Hw' : w' = fetched q (queryFn Q) (Throws e) w).
  { subst w'. unfold exec. by rewrite (query_fetch_idle q (Throws e) w Q). }
  pose proof (lookup_fetched q (queryFn Q) (Throws e) w Q HQ) as HQ'.
  rewrite <- Hw' in HQ'.
  eexists _, (length (promises w)). split; [exact HQ'|].
  split_and!; try done.
  - rewrite Hw'. unfold fetched.
    change (promises (upd_query _ _ ?w1)) with (promises w1). cbn [promises with_promises].
    by rewrite lookup_app_r, Nat.sub_diag by lia.
  - intros r.
    pose proof (query_fetch_in_flight q r w' _ (length (promises w)) HQ' eq_refl) as Hf.
    split; [exact Hf|]. unfold exec. by rewrite Hf.
Qed.

Lemma C5_throwing_fetch_keeps_handle_witness :
  @reachable example_host ex_rendered /\
  heap ex_rendered !! 0%nat = Some (@new_query example_host posts) /\
  let w' := exec (query_fetch 0 (Throws (VStr "boom"))) ex_rendered in
  exists Q' p, heap w' !! 0%nat = Some Q' /\ promise Q' = Some p /\
    forall r, query_fetch 0 r w' = (Normal (Some p), w').
Proof.
  split; [apply reachable_ex_rendered|]. split; [reflexivity|].
  destruct (@C5_throwing_fetch_keeps_handle example_host ex_rendered 0%nat
              (@new_query example_host posts) (VStr "boom")
              reachable_ex_rendered eq_refl eq_refl)
    as (Q' & p & HQ' & _ & _ & Hp & _ & Hf).
  exists Q', p. split; [exact HQ'|]. split; [exact Hp|].
  intros r. exact (proj1 (Hf r)).
Defined.

(** ** Addressing *)




(** ** Notification *)

Lemma notified_cons o ev tr :
  notified o (ev :: tr) = ((if is_notify o ev then 1 else 0) + notified o tr)%nat.
Proof. unfold notified. cbn. by destruct (is_notify o ev). Qed.

Lemma notified_round o w l : notified o (round w l) = count_occ Nat.eq_dec l o.
Proof.
  induction l as [|a l IH]; [done|].
  change (round w (a :: l))
    with (EvNotify a (listener_of w a) (seen_by w a) :: round w l).
  rewrite notified_cons, IH. cbn [is_notify count_occ].
  destruct (Nat.eq_dec a o) as [->|Hne].
  - by rewrite Nat.eqb_refl.
  - by rewrite (proj2 (Nat.eqb_neq o a)) by done.
Qed.

(** A round depends on the Observers and on the states of the Queries. *)
Lemma round_ext w' w l :
  observers w' = observers w ->
  (forall q, state <$> heap w' !! q = state <$> heap w !! q) ->
  round w' l = round w l.
Proof.
  intros Ho Hh. unfold round, listener_of, seen_by. rewrite Ho.
  apply map_ext. intros o. destruct (observers w !! o); by rewrite ?Hh.
Qed.

Lemma emitted_setState q f w :
  query_ok w q -> emitted (setState q f) w = round (exec (setState q f) w) (subs_of w q).
Proof.
  intros Hok. unfold emitted, exec. rewrite setState_spec by done.
  cbn [snd]. rewrite trace_apply_state. apply drop_app_length.
Qed.

(** What an Observer of [q] finds once [setState] has stored the state. *)
Lemma seen_by_apply_state q f w o ob Q :
  observers w !! o = Some ob -> query ob = q -> heap w !! q = Some Q ->
  seen_by (apply_state q f w) o = Some (f (state Q)).
Proof.
  intros Hob <- HQ. unfold seen_by.
  change (observers (apply_state (query ob) f w)) with (observers w). rewrite Hob.
  by rewrite lookup_apply_state, decide_True, HQ.
Qed.

Lemma subs_of_unsubscribe `{Host} u w Q :
  heap w !! unsub_query u = Some Q ->
  subs_of (exec (unsubscribe u) w) (unsub_query u)
    = filter (fun d => d <> unsub_subscriber u) (subscribers Q) /\
  observers (exec (unsubscribe u) w) = observers w.
Proof.
  intros HQ. unfold exec. rewrite (unsubscribe_spec u w Q HQ). cbn [snd]. cbn zeta.
  assert (Hs : subs_of (upd_query (unsub_query u) (fun Q' =>
                 set_subscribers
                   (filter (fun d => d <> unsub_subscriber u) (subscribers Q')) Q') w)
                 (unsub_query u)
               = filter (fun d => d <> unsub_subscriber u) (subscribers Q)).
  { unfold subs_of. by rewrite lookup_upd_query, decide_True, HQ by done. }
  destruct (_ =? _)%nat; [|done]. split; [|done].
  unfold scheduled. by rewrite subs_of_upd_query.
Qed.

(** C7 (as the code has it). In every reachable world, [setState(f)]
    replaces the state of the Query by [f] of it and then, within the
    call, notifies the entries of the subscriber list one by one in list
    order, which is the order of subscription: every listener is called
    with the new state in place (an Observer of the Query that reads its
    result when it is notified finds [f] of the previous state), and an
    Observer is notified as many times as it occurs in the list, so exactly
    once when it has subscribed once, and not at all when it is not in the
    list, as after its unsubscription. Two calls give two rounds, each with
    the state of its own call. *)
Theorem C7_notification_round `{Host} (w : World) (q : QueryId) (Q : Query)
    (f g : QueryState -> QueryState) :
  reachable w -> heap w !! q = Some Q ->
  let w1 := exec (setState q f) w in
  let w2 := exec (setState q g) w1 in
  (state <$> heap w1 !! q) = Some (f (state Q)) /\
  emitted (setState q f) w = round w1 (subscribers Q) /\
  (forall o ob, observers w !! o = Some ob ->
     listener_of w1 o = notify ob /\
     (query ob = q -> seen_by w1 o = Some (f (state Q)))) /\
  (forall o, notified o (emitted (setState q f) w)
             = count_occ Nat.eq_dec (subscribers Q) o) /\
  (forall o, NoDup (subscribers Q) -> o ∈ subscribers Q ->
             notified o (emitted (setState q f) w) = 1%nat) /\
  (forall o, o ∉ subscribers Q -> notified o (emitted (setState q f) w) = 0%nat) /\
  (forall o, notified o (emitted (setState q f)
                           (exec (unsubscribe (mkUnsubscribe q o)) w)) = 0%nat) /\
  emitted (setState q f ;;; setState q g) w
    = round w1 (subscribers Q) ++ round w2 (subscribers Q) /\
  (forall o ob, observers w !! o = Some ob -> query ob = q ->
     seen_by w2 o = Some (g (f (state Q)))).
Proof.
  intros Hr HQ w1 w2.
  assert (Hok : query_ok w q) by (by apply reachable_query_ok).
  assert (Hsubs : subs_of w q = subscribers Q) by (unfold subs_of; by rewrite HQ).
  assert (Hw1 : w1 = apply_state q f w)
    by (unfold w1, exec; by rewrite setState_spec).
  assert (Hok1 : query_ok w1 q) by (rewrite Hw1; by apply query_ok_apply_state).
  assert (HQ1 : heap w1 !! q = Some (set_state (f (state Q)) Q))
    by (by rewrite Hw1, lookup_apply_state, decide_True, HQ).
  assert (Hw2 : w2 = apply_state q g w1)
    by (unfold w2, exec; by rewrite setState_spec).
  assert (Hem : emitted (setState q f) w = round w1 (subscribers Q))
    by (by rewrite emitted_setState, Hsubs).
  assert (Hcount : forall o, notified o (emitted (setState q f) w)
                     = count_occ Nat.eq_dec (subscribers Q) o)
    by (intros o; by rewrite Hem, notified_round).
  split_and!; try done.
  - by rewrite HQ1.
  - intros o ob Hob. split.
    + unfold listener_of. rewrite Hw1.
      change (observers (apply_state q f w)) with (observers w). by rewrite Hob.
    + intros Hq. rewrite Hw1. by apply (seen_by_apply_state q f w o ob Q).
  - intros o Hnd Hin. rewrite Hcount.
    apply list_elem_of_In in Hin.
    apply NoDup_ListNoDup in Hnd.
    pose proof (proj1 (NoDup_count_occ Nat.eq_dec (subscribers Q)) Hnd o) as Hle.
    pose proof (proj1 (count_occ_In Nat.eq_dec (subscribers Q) o) Hin) as Hgt.
    lia.
  - intros o Hnin. rewrite Hcount. apply count_occ_not_In.
    by rewrite <- list_elem_of_In.
  - intros o. set (u := mkUnsubscribe q o).
    assert (Hr' : reachable (exec (unsubscribe u) w))
      by (exact (reach_step w (OpUnsubscribe u) Hr I)).
    destruct (subs_of_unsubscribe u w Q HQ) as [Hs Ho].
    assert (Hq' : is_Some (heap (exec (unsubscribe u) w) !! q)).
    { unfold exec. rewrite (unsubscribe_spec u w Q HQ). cbn [snd]. cbn zeta.
      destruct (_ =? _)%nat; repeat apply is_Some_upd_query; by eexists. }
    rewrite emitted_setState by (by apply reachable_query_ok).
    change (unsub_query u) with q in Hs. rewrite Hs, notified_round.
    apply count_occ_not_In. rewrite <- list_elem_of_In, list_elem_of_filter.
    by intros [Hne _].
  - unfold emitted, exec, bind. rewrite setState_spec by done.
    fold (exec (setState q f) w). fold w1. rewrite Hw1 at 1. rewrite <- Hw1.
    rewrite setState_spec by done. cbn [snd]. fold (exec (setState q g) w1).
    rewrite <- Hw2 at 1. rewrite Hw2 at 1. rewrite trace_apply_state, <- Hw2.
    rewrite Hw1 at 1. rewrite trace_apply_state, <- Hw1.
    rewrite Hw1 at 2. rewrite subs_of_apply_state, Hsubs.
    rewrite <- app_assoc. apply drop_app_length.
  - intros o ob Hob Hq. rewrite Hw2.
    apply (seen_by_apply_state q g w1 o ob (set_state (f (state Q)) Q)); try done.
    rewrite Hw1. change (observers (apply_state q f w)) with (observers w). done.
Qed.

Lemma C7_notification_round_witness :
  @reachable example_host ex_loaded /\
  (exists Q, heap ex_loaded !! 0%nat = Some Q /\ subscribers Q = [0%nat] /\
     emitted (setState 0 fetch_start) ex_loaded
     = round (exec (setState 0 fetch_start) ex_loaded) (subscribers Q)).
Proof.
  split; [apply reachable_ex_loaded|].
  eexists. split; [reflexivity|]. split; [reflexivity|].
  exact (proj1 (proj2 (@C7_notification_round example_host ex_loaded 0%nat _
                         fetch_start fetch_start reachable_ex_loaded eq_refl))).
Defined.

(** C7 as stated fails: the Observer of the example, having subscribed
    twice, occurs twice in the subscriber list, and one [setState] notifies
    it twice. *)
Lemma C7_counterexample :
  @reachable example_host ex_resubscribed /\
  subs_of ex_resubscribed 0 = [0%nat; 0%nat] /\
  emitted (setState 0 fetch_settle) ex_resubscribed
    = [EvNotify 0 (Some "rerender2"%string)
         (Some (mkState s_loading false VUndefined VUndefined None));
       EvNotify 0 (Some "rerender2"%string)
         (Some (mkState s_loading false VUndefined VUndefined None))] /\
  ~ (forall o, o ∈ subs_of ex_resubscribed 0 ->
       notified o (emitted (setState 0 fetch_settle) ex_resubscribed) = 1%nat).
Proof.
  split.
  { apply (reach_step ex_mounted); [apply reachable_ex_mounted|exact I]. }
  split; [vm_compute; reflexivity|]. split; [vm_compute; reflexivity|].
  intros Hall. specialize (Hall 0%nat). vm_compute in Hall.
  assert (Hin : 0%nat ∈ [0%nat; 0%nat]) by (by left).
  specialize (Hall Hin). discriminate Hall.
Qed.

(** ** The handle of [fetch] *)

(** C8. In every reachable world no promise of [fetch] is rejected, and
    [fetch()] on a Query returns a handle, which is not a rejected one,
    whether the fetch operation returns or throws. When the awaited promise
    of a pending handle settles, with whichever outcome, the handle is
    fulfilled; a failure shows in the stored state only ([status] error and
    [state.error]), also when the fetch operation throws at the call. *)
Theorem C8_fetch_never_fails `{Host} (w : World) :
  reachable w ->
  (forall p e, promises w !! p <> Some (Rejected e)) /\
  (forall q r, is_Some (heap w !! q) ->
     exists p, result (query_fetch q r) w = Normal (Some p) /\
       forall e, promises (exec (query_fetch q r) w) !! p <> Some (Rejected e)) /\
  (forall p q x, promises w !! p = Some (Pending q) ->
     promises (exec (settle p x) w) !! p = Some Fulfilled) /\
  (forall p q e, promises w !! p = Some (Pending q) ->
     exists Q', heap (exec (settle p (Failed e)) w) !! q = Some Q' /\
       status (state Q') = s_error /\ error (state Q') = e) /\
  (forall q Q e, heap w !! q = Some Q -> promise Q = None ->
     let w' := exec (query_fetch q (Throws e)) w in
     exists p Q', result (query_fetch q (Throws e)) w = Normal (Some p) /\
       promises w' !! p = Some Fulfilled /\ heap w' !! q = Some Q' /\
       status (state Q') = s_error /\ error (state Q') = e).
Proof.
  intros Hr. pose proof (reachable_wf w Hr) as Hwf. split_and!.
  - apply Hwf.
  - intros q r [Q HQ].
    assert (Hok : query_ok w q) by (by apply reachable_query_ok).
    pose proof (wf_query_fetch w q r Hwf) as Hwf'.
    destruct (promise Q) as [p|] eqn:Hp.
    + exists p. split; [|apply Hwf'].
      unfold result. by rewrite (query_fetch_in_flight q r w Q p).
    + exists (length (promises w)). split; [|apply Hwf'].
      unfold result. by rewrite (query_fetch_idle q r w Q).
  - intros p q x Hp.
    destruct (wf_pending w Hwf p q Hp) as [Q HQ].
    unfold exec. rewrite (settle_spec p x w q) by (try apply reachable_query_ok; done).
    cbn [snd promises with_promises].
    apply list_lookup_insert_eq.
    change (promises (continued q x w)) with (promises w).
    by apply lookup_lt_Some in Hp.
  - intros p q e Hp.
    destruct (wf_pending w Hwf p q Hp) as [Q HQ].
    unfold exec.
    rewrite (settle_spec p (Failed e) w q) by (try apply reachable_query_ok; done).
    cbn [snd]. change (heap (with_promises _ ?w') !! q) with (heap w' !! q).
    rewrite (lookup_continued q (Failed e) w Q HQ). by eexists.
  - intros q Q e HQ Hp w'.
    assert (Hok : query_ok w q) by (by apply reachable_query_ok).
    subst w'. unfold result, exec.
    rewrite (query_fetch_idle q (Throws e) w Q) by done. cbn [fst snd].
    eexists _, _. split; [reflexivity|]. split_and!.
    + unfold fetched.
      change (promises (upd_query _ _ ?w1)) with (promises w1).
      cbn [promises with_promises].
      by rewrite lookup_app_r, Nat.sub_diag by lia.
    + exact (lookup_fetched q (queryFn Q) (Throws e) w Q HQ).
    + done.
    + done.
Qed.

Lemma C8_fetch_never_fails_witness :
  @reachable example_host ex_waiting /\
  promises ex_waiting !! 0%nat = Some (Pending 0) /\
  promises (exec (settle 0 (Failed (VStr "Network Error"))) ex_waiting) !! 0%nat
    = Some Fulfilled /\
  exists Q', heap (exec (settle 0 (Failed (VStr "Network Error"))) ex_waiting) !! 0%nat
               = Some Q' /\
    status (state Q') = s_error /\ error (state Q') = VStr "Network Error".
Proof.
  split; [apply reachable_ex_waiting|]. split; [reflexivity|].
  destruct (@C8_fetch_never_fails example_host ex_waiting reachable_ex_waiting)
    as (_ & _ & Hsettle & Hstate & _).
  split.
  - exact (Hsettle 0%nat 0%nat (Failed (VStr "Network Error")) eq_refl).
  - exact (Hstate 0%nat 0%nat (VStr "Network Error") eq_refl).
Defined.

(** ** Defaults *)

(** C9. An Observer created without [staleTime] has the threshold 0, under
    which it is stale as soon as the clock has passed [lastUpdated]; a Query
    created without [cacheTime] has 300000 ms (5 minutes), which is the
    delay of the GC timer that [scheduleGC] sets. *)
Theorem C9_defaults `{Host} (w : World) (key : Val) (fn : FetchOp) (st ct : option Z) :
  (exists o ob,
     result (createQueryObserver (mkOptions key fn None ct)) w = Normal o /\
     observers (exec (createQueryObserver (mkOptions key fn None ct)) w) !! o = Some ob /\
     staleTime ob = 0 /\
     forall t t0, t0 <> 0 -> (is_stale t (Some t0) (staleTime ob) = true <-> t - t0 > 0)) /\
  (exists q Q,
     result (createQuery (mkOptions key fn st None)) w = Normal q /\
     heap (exec (createQuery (mkOptions key fn st None)) w) !! q = Some Q /\
     cacheTime Q = 300000 /\
     timers (exec (scheduleGC q) (exec (createQuery (mkOptions key fn st None)) w))
       = timers w ++ [Some (mkTimer (now w + 300000) q)]).
Proof.
  split.
  - unfold result, exec, createQueryObserver, bind.
    cbn [opt_queryKey opt_queryFn opt_cacheTime opt_staleTime].
    assert (Hget : exists q w1, getQuery (mkOptions key fn None ct) w = (Normal q, w1)).
    { unfold getQuery, bind, gets. destruct (find _ _); by eexists _, _. }
    destruct Hget as (q & w1 & ->). cbn [fst snd].
    eexists _, _. split; [reflexivity|]. split.
    + cbn [observers with_observers]. by apply list_lookup_middle.
    + split; [reflexivity|]. intros t t0 Ht0. cbn.
      rewrite orb_true_iff, Z.eqb_eq, Z.ltb_lt. unfold default_staleTime. lia.
  - set (opts := mkOptions key fn st None).
    assert (HQ : heap (exec (createQuery opts) w) !! length (heap w) = Some (new_query opts)).
    { unfold exec, createQuery. cbn. by rewrite lookup_app_r, Nat.sub_diag by lia. }
    exists (length (heap w)), (new_query opts). split_and!; try done.
    unfold exec at 1. by rewrite (scheduleGC_spec _ _ _ HQ).
Qed.

(** ** [lastUpdated] *)

(** C10. Of the four updaters of [fetch], only the one of the success
    writes [lastUpdated]. In every reachable world, an operation leaves the
    [lastUpdated] of every Query as it was, except the successful
    settlement of a fetch of that Query, which sets it to the time of the
    settlement. So after a fetch that fails, the staleness gate still
    measures from the last success. *)
Theorem C10_lastUpdated_only_on_success `{Host} (w : World) (op : Op) (q : QueryId) :
  reachable w -> op_ok w op ->
  (forall s e d t,
     lastUpdated (fetch_start s) = lastUpdated s /\
     lastUpdated (fetch_failure e s) = lastUpdated s /\
     lastUpdated (fetch_settle s) = lastUpdated s /\
     lastUpdated (fetch_success d t s) = Some t) /\
  lastUpdated_of (step op w) q =
    match op with
    | OpSettle p (Resolved _) =>
        match promises w !! p with
        | Some (Pending q') =>
            if Nat.eqb q' q then Some (now w) else lastUpdated_of w q
        | _ => lastUpdated_of w q
        end
    | _ => lastUpdated_of w q
    end /\
  (forall r p e t T,
     is_stale t (lastUpdated_of (exec (settle p (Failed e)) (exec (query_fetch q r) w)) q) T
     = is_stale t (lastUpdated_of w q) T).
Proof.
  intros Hr Hok. pose proof (reachable_wf w Hr) as Hwf. split_and!.
  - done.
  - destruct op as [opts|opts|o cb r|o r|q' o|u|q' r|p [d|e]|dt]; cbn [step].
    + apply (keeps_getQuery (same_lastUpdated q)).
    + apply (keeps_createQueryObserver (same_lastUpdated q)).
    + apply (keeps_observer_subscribe (same_lastUpdated q)).
    + apply (keeps_observer_fetch (same_lastUpdated q)).
    + apply (keeps_query_subscribe (same_lastUpdated q)).
    + apply lu_unsubscribe.
    + apply (keeps_query_fetch (same_lastUpdated q)).
    + destruct (promises w !! p) as [[q'| |e']|] eqn:Hp;
        try (unfold exec, settle; by rewrite Hp).
      destruct (wf_pending w Hwf p q' Hp) as [Q' HQ'].
      unfold exec.
      rewrite (settle_spec p (Resolved d) w q') by (try apply wf_query_ok; done).
      cbn [snd]. unfold lastUpdated_of at 1.
      change (heap (with_promises _ ?w') !! q) with (heap w' !! q).
      destruct (Nat.eqb_spec q' q) as [->|Hne].
      * by rewrite (lookup_continued q (Resolved d) w Q' HQ').
      * by rewrite (lookup_continued_ne q' (Resolved d) w q Hne).
    + apply (keeps_settle_failed (same_lastUpdated q)).
    + apply lu_tick.
  - intros r p e t T.
    by rewrite (keeps_settle_failed (same_lastUpdated q) p e),
               (keeps_query_fetch (same_lastUpdated q) q r).
Qed.

Lemma C10_lastUpdated_only_on_success_witness :
  @reachable example_host ex_loaded /\
  lastUpdated_of ex_loaded 0 = Some 1050 /\
  lastUpdated_of
    (@step example_host (OpObserverFetch 0 (Throws (VStr "boom")))
       (@step example_host (OpTick 20000) ex_loaded)) 0 = Some 1050.
Proof.
  split; [apply reachable_ex_loaded|]. split; [reflexivity|].
  assert (Hr : @reachable example_host (@step example_host (OpTick 20000) ex_loaded))
    by (exact (reach_step ex_loaded (OpTick 20000) reachable_ex_loaded I)).
  rewrite (proj1 (proj2 (@C10_lastUpdated_only_on_success example_host _
                           (OpObserverFetch 0 (Throws (VStr "boom"))) 0%nat Hr I))).
  exact (proj1 (proj2 (@C10_lastUpdated_only_on_success example_host _
                         (OpTick 20000) 0%nat reachable_ex_loaded I))).
Defined.

(** ** Garbage collection: one operation *)

Lemma cleared_idem t w : cleared t (cleared t w) = cleared t w.
Proof.
  destruct t as [i|]; [|done]. unfold cleared, with_timers. cbn.
  by rewrite list_insert_insert_eq.
Qed.

Lemma unscheduleGC_idem q w :
  exec (unscheduleGC q) (exec (unscheduleGC q) w) = exec (unscheduleGC q) w.
Proof.
  unfold exec. destruct (heap w !! q) as [Q|] eqn:HQ.
  - rewrite (unscheduleGC_spec q w Q HQ). cbn [snd].
    assert (HQ' : heap (cleared (gcTimeout Q) w) !! q = Some Q)
      by (by destruct (gcTimeout Q)).
    rewrite (unscheduleGC_spec q _ Q HQ'). cbn [snd]. apply cleared_idem.
  - assert (Hnone : unscheduleGC q w = (Thrown TypeError, w))
      by (unfold unscheduleGC, bind, read_query; by rewrite HQ).
    rewrite Hnone. cbn [snd]. by rewrite Hnone.
Qed.

Lemma elem_of_queries_tick dt w q :
  q ∈ queries (exec (tick dt) w) <->
  q ∈ queries w /\
  ~ exists i tm, timers w !! i = Some (Some tm) /\
      due tm <= now w + Z.max 0 dt /\ target tm = q.
Proof.
  destruct (tick_spec dt w) as (_ & _ & _ & _ & _ & _ & Hq).
  by rewrite Hq, elem_of_due_targets.
Qed.

Lemma tick_keeps_query dt w q :
  ~ gc_pending w q -> q ∈ queries w -> q ∈ queries (exec (tick dt) w).
Proof.
  intros Hno Hin. apply elem_of_queries_tick. split; [done|].
  intros (i & tm & Hi & _ & Ht). apply Hno. by exists i, tm.
Qed.

Lemma gc_pending_shrink w w' q : timers_shrink w w' -> gc_pending w' q -> gc_pending w q.
Proof. intros Hs (i & tm & Hi & Ht). exists i, tm. split; [by apply Hs|done]. Qed.

(** Only the unsubscribe closure sets a timer. *)
Lemma timers_shrink_step `{Host} w op :
  wf w -> (forall u, op <> OpUnsubscribe u) -> timers_shrink w (step op w).
Proof.
  intros Hwf Hop.
  destruct op as [opts|opts|o cb r|o r|q' o|u|q' r|p [d|e]|dt]; cbn [step].
  - apply (keeps_getQuery timers_shrink).
  - apply (keeps_createQueryObserver timers_shrink).
  - apply (keeps_observer_subscribe timers_shrink).
  - apply (keeps_observer_fetch timers_shrink).
  - apply (keeps_query_subscribe timers_shrink).
  - by destruct (Hop u).
  - apply (keeps_query_fetch timers_shrink).
  - destruct (promises w !! p) as [[q'| |e']|] eqn:Hp;
      try (unfold exec, settle; rewrite Hp; apply stable_refl).
    pose proof (wf_pending w Hwf p q' Hp) as Hq'.
    unfold exec.
    rewrite (settle_spec p (Resolved d) w q') by (try apply wf_query_ok; done).
    by intros i tm.
  - apply (keeps_settle_failed timers_shrink).
  - apply timers_shrink_tick.
Qed.

(** What the unsubscribe that empties the subscriber list leaves. *)
Lemma unsubscribe_last `{Host} u w Q :
  heap w !! unsub_query u = Some Q ->
  filter (fun d => d <> unsub_subscriber u) (subscribers Q) = [] ->
  let w1 := exec (unsubscribe u) w in
  let T := mkTimer (now w + timer_delay (cacheTime Q)) (unsub_query u) in
  timers w1 = timers w ++ [Some T] /\
  heap w1 !! unsub_query u
    = Some (set_gcTimeout (Some (length (timers w))) (set_subscribers [] Q)) /\
  queries w1 = queries w /\ now w1 = now w.
Proof.
  intros HQ Hnil. cbn zeta. unfold exec. rewrite (unsubscribe_spec u w Q HQ).
  cbn [snd]. cbn zeta. rewrite Hnil. cbn [length Nat.eqb].
  split_and!; try done.
  unfold scheduled. rewrite lookup_upd_query, decide_True by done.
  change (heap (with_timers _ ?w') !! ?k) with (heap w' !! k).
  rewrite lookup_upd_query, decide_True, HQ by done.
  cbn [fmap option_fmap option_map]. by rewrite Hnil.
Qed.

(** * The rest of the module, and what holds at every reachable state *)

(** ** What the operations maintain *)

Section Maintains.
Context (P : World -> Prop).

Lemma maintains_ret {A} (a : A) : maintains P (ret a).
Proof. by intros w. Qed.

Lemma maintains_throw {A} (e : Val) : maintains P (@throw A e).
Proof. by intros w. Qed.

Lemma maintains_gets {A} (f : World -> A) : maintains P (gets f).
Proof. by intros w. Qed.

Lemma maintains_modify (f : World -> World) :
  (forall w, P w -> P (f w)) -> maintains P (modify f).
Proof. intros Hf w. apply Hf. Qed.

Lemma maintains_bind {A B} (m : M A) (k : A -> M B) :
  maintains P m -> (forall a, maintains P (k a)) -> maintains P (bind m k).
Proof.
  intros Hm Hk w Hw. unfold exec, bind. specialize (Hm w Hw). unfold exec in Hm.
  destruct (m w) as [[a|e] w1]; cbn [snd] in *; [by apply Hk|done].
Qed.

Lemma maintains_try_catch_finally body handler fin :
  maintains P body -> (forall e, maintains P (handler e)) -> maintains P fin ->
  maintains P (try_catch_finally body handler fin).
Proof.
  intros Hb Hh Hf w Hw. unfold exec, try_catch_finally.
  specialize (Hb w Hw). unfold exec in Hb.
  destruct (body w) as [[a|e] w1]; cbn [snd] in Hb.
  - specialize (Hf w1 Hb). unfold exec in Hf.
    by destruct (fin w1) as [[?|?] w2].
  - specialize (Hh e w1 Hb). unfold exec in Hh.
    destruct (handler e w1) as [r w2]; cbn [snd] in Hh.
    specialize (Hf w2 Hh). unfold exec in Hf.
    by destruct (fin w2) as [[?|?] w3].
Qed.

Lemma maintains_forEach {A} (f : A -> M unit) l :
  (forall x, maintains P (f x)) -> maintains P (forEach f l).
Proof.
  intros Hf. induction l as [|x l IH]; [apply maintains_ret|].
  cbn [forEach]. apply maintains_bind; [apply Hf|done].
Qed.

Lemma maintains_read_query q : maintains P (read_query q).
Proof. intros w Hw. unfold exec, read_query. by destruct (heap w !! q). Qed.

Lemma maintains_read_observer o : maintains P (read_observer o).
Proof. intros w Hw. unfold exec, read_observer. by destruct (observers w !! o). Qed.

Lemma maintains_getResult o : maintains P (getResult o).
Proof.
  apply maintains_bind; [apply maintains_read_observer|]. intros ob.
  apply maintains_bind; [apply maintains_read_query|]. intros Q. apply maintains_ret.
Qed.

(** The focus sweep is a sequence of [observer.fetch()] calls. *)
Lemma maintains_onFocus r :
  (forall o r', maintains P (observer_fetch o r')) -> maintains P (onFocus r).
Proof.
  intros Hf. apply maintains_bind; [apply maintains_gets|]. intros qs.
  apply maintains_forEach. intros q.
  apply maintains_bind; [apply maintains_read_query|]. intros Q.
  apply maintains_forEach. intros o. apply Hf.
Qed.

Context `{!Frame P}.

Lemma maintains_emit ev : maintains P (emit ev).
Proof. intros w Hw. by apply frame_trace. Qed.

Lemma maintains_call_notify o : maintains P (call_notify o).
Proof.
  apply maintains_bind; [apply maintains_read_observer|]. intros ob.
  apply maintains_bind; [apply maintains_gets|]. intros seen. apply maintains_emit.
Qed.

Section Setting.
Context `{!SetFrame P}.

Lemma maintains_scheduleGC `{Host} q : maintains P (scheduleGC q).
Proof.
  apply maintains_bind; [apply maintains_read_query|]. intros Q.
  apply maintains_bind; [intros w Hw; by apply frame_timer|]. intros t.
  intros w Hw. by apply frame_gcTimeout.
Qed.

Lemma maintains_unsubscribe `{Host} u : maintains P (unsubscribe u).
Proof.
  apply maintains_bind.
  - intros w Hw.
    by apply (frame_subscribers w (unsub_query u)
                (filter (fun d => d <> unsub_subscriber u))).
  - intros _. apply maintains_bind; [apply maintains_read_query|]. intros Q.
    destruct (_ =? _)%nat; [apply maintains_scheduleGC|apply maintains_ret].
Qed.
End Setting.

Lemma maintains_subscribers_push q o :
  maintains P (modify_query q (fun Q => set_subscribers (subscribers Q ++ [o]) Q)).
Proof. intros w Hw. by apply (frame_subscribers w q (fun l => l ++ [o])). Qed.

Section Clearing.
Context `{!ClearFrame P}.

Lemma maintains_clearTimeout t : maintains P (clearTimeout t).
Proof. destruct t; [intros w Hw; by apply frame_clear|apply maintains_ret]. Qed.

Lemma maintains_unscheduleGC q : maintains P (unscheduleGC q).
Proof.
  apply maintains_bind; [apply maintains_read_query|]. intros Q.
  apply maintains_clearTimeout.
Qed.

Lemma maintains_query_subscribe q o : maintains P (query_subscribe q o).
Proof.
  apply maintains_bind; [apply maintains_subscribers_push|].
  intros _. apply maintains_bind; [apply maintains_unscheduleGC|]. intros _.
  apply maintains_ret.
Qed.
End Clearing.

Section Fetching.
Context (ok : (QueryState -> QueryState) -> Prop) `{!FetchFrame ok P}.

Lemma maintains_setState q f : ok f -> maintains P (setState q f).
Proof.
  intros Hok.
  apply maintains_bind; [intros w Hw; by apply (frame_state w q f)|]. intros _.
  apply maintains_bind; [apply maintains_read_query|]. intros Q.
  apply maintains_forEach, maintains_call_notify.
Qed.

Lemma maintains_fetch_continue q x : settles_ok ok x -> maintains P (fetch_continue q x).
Proof.
  intros (Hs & He & Hx). apply maintains_try_catch_finally.
  - destruct x as [d|e]; [|apply maintains_throw].
    apply maintains_bind; [apply maintains_gets|]. intros t. by apply maintains_setState.
  - intros e'. by apply maintains_setState.
  - apply maintains_bind; [intros w Hw; by apply frame_promise|]. intros _.
    by apply maintains_setState.
Qed.

Lemma maintains_fetch_async q r : starts_ok ok r -> maintains P (fetch_async q r).
Proof.
  intros [Hst Hr] w Hw. unfold exec, fetch_async.
  match goal with |- context [let '(_, _) := ?m w in _] => set (body := m) end.
  assert (Hb : maintains P body).
  { subst body. apply maintains_bind; [by apply maintains_setState|]. intros _.
    apply maintains_bind; [apply maintains_read_query|]. intros Q.
    apply maintains_bind; [apply maintains_emit|]. intros _.
    destruct r as [|e]; [apply maintains_ret|].
    apply maintains_bind; [by apply maintains_fetch_continue|]. intros _.
    apply maintains_ret. }
  specialize (Hb w Hw). unfold exec in Hb.
  destruct (body w) as [r' w']. cbn [snd] in *. by apply frame_promises.
Qed.

Lemma maintains_query_fetch q r : starts_ok ok r -> maintains P (query_fetch q r).
Proof.
  intros Hok. apply maintains_bind; [apply maintains_read_query|]. intros Q.
  apply maintains_bind.
  - destruct (promise Q); [apply maintains_ret|].
    apply maintains_bind; [by apply maintains_fetch_async|]. intros p.
    intros w Hw. by apply frame_promise.
  - intros _. apply maintains_bind; [apply maintains_read_query|]. intros Q'.
    apply maintains_ret.
Qed.

Lemma maintains_observer_fetch o r : starts_ok ok r -> maintains P (observer_fetch o r).
Proof.
  intros Hok. apply maintains_bind; [apply maintains_read_observer|]. intros ob.
  apply maintains_bind; [apply maintains_read_query|]. intros Q.
  apply maintains_bind; [apply maintains_gets|]. intros t.
  destruct (is_stale _ _ _); [|apply maintains_ret].
  apply maintains_bind; [by apply maintains_query_fetch|]. intros _. apply maintains_ret.
Qed.

Lemma maintains_settle p x : settles_ok ok x -> maintains P (settle p x).
Proof.
  intros Hok w Hw. unfold exec, settle.
  destruct (promises w !! p) as [[q| |e']|]; try done.
  pose proof (maintains_fetch_continue q x Hok w Hw) as Hc. unfold exec in Hc.
  destruct (fetch_continue q x w) as [r' w']. cbn [snd] in *. by apply frame_promises.
Qed.

Lemma maintains_observer_subscribe `{!ClearFrame P} o cb r :
  starts_ok ok r -> maintains P (observer_subscribe o cb r).
Proof.
  intros Hok. apply maintains_bind; [intros w Hw; by apply frame_notify|]. intros _.
  apply maintains_bind; [apply maintains_read_observer|]. intros ob.
  apply maintains_bind; [apply maintains_query_subscribe|]. intros u.
  apply maintains_bind; [by apply maintains_observer_fetch|]. intros _.
  apply maintains_ret.
Qed.
End Fetching.

Section Allocating.
Context `{!AllocFrame P}.

Lemma maintains_getQuery `{Host} opts : maintains P (getQuery opts).
Proof.
  apply maintains_bind; [apply maintains_gets|]. intros [q|]; [apply maintains_ret|].
  apply maintains_bind.
  - intros w Hw. by apply frame_alloc.
  - intros q. apply maintains_bind; [intros w Hw; by apply frame_register|]. intros _.
    apply maintains_ret.
Qed.

Lemma maintains_createQueryObserver `{Host} opts :
  maintains P (createQueryObserver opts).
Proof.
  apply maintains_bind; [apply maintains_getQuery|]. intros q w Hw.
  by apply frame_new_observer.
Qed.
End Allocating.
End Maintains.

(** ** The registry and the identities of the objects *)

#[local] Instance registry_is_frame l : Frame (registry_is l).
Proof. by split. Qed.

#[local] Instance registry_is_clear_frame l : ClearFrame (registry_is l).
Proof. by split. Qed.

#[local] Instance registry_is_set_frame l : SetFrame (registry_is l).
Proof. by split. Qed.

#[local] Instance registry_is_fetch_frame l : FetchFrame any_updater (registry_is l).
Proof. by split. Qed.

Lemma fmap_alter_same {A B} (g : A -> B) (f : A -> A) i (l : list A) :
  (forall x, g (f x) = g x) -> g <$> alter f i l = g <$> l.
Proof.
  intros Hf. revert i. induction l as [|a l IH]; intros [|i]; cbn; try done.
  - by rewrite Hf.
  - f_equal. apply IH.
Qed.

Lemma objects_live_on_refl w : objects_live_on w w.
Proof. by split. Qed.

Lemma objects_live_on_heap w0 w q f :
  (forall Q, query_identity (f Q) = query_identity Q) ->
  objects_live_on w0 w -> objects_live_on w0 (upd_query q f w).
Proof.
  intros Hf [Hh Ho]. split; [|done]. cbn. by rewrite fmap_alter_same.
Qed.

#[local] Instance objects_live_on_frame w0 : Frame (objects_live_on w0).
Proof.
  split; try done.
  - intros w q g. by apply objects_live_on_heap.
  - intros w o cb [Hh Ho]. split; [done|]. cbn. by rewrite fmap_alter_same.
Qed.

#[local] Instance objects_live_on_clear_frame w0 : ClearFrame (objects_live_on w0).
Proof. by split. Qed.

#[local] Instance objects_live_on_set_frame w0 : SetFrame (objects_live_on w0).
Proof. split; [done|]. intros w q t. by apply objects_live_on_heap. Qed.

#[local] Instance objects_live_on_fetch_frame w0 :
  FetchFrame any_updater (objects_live_on w0).
Proof.
  split; try done.
  - intros w q f _. by apply objects_live_on_heap.
  - intros w q p. by apply objects_live_on_heap.
Qed.

#[local] Instance objects_live_on_alloc_frame w0 : AllocFrame (objects_live_on w0).
Proof.
  split; try done.
  - intros host w opts [Hh Ho]. split; [|done]. cbn. rewrite fmap_app.
    by apply prefix_app_r.
  - intros w ob [Hh Ho]. split; [done|]. cbn. rewrite fmap_app. by apply prefix_app_r.
Qed.

Lemma objects_live_on_tick w0 dt : maintains (objects_live_on w0) (tick dt).
Proof.
  intros w [Hh Ho]. destruct (tick_spec dt w) as (_ & Hh' & Ho' & _).
  split; [by rewrite Hh'|by rewrite Ho'].
Qed.

(** What [objects_live_on] says of one object. *)
Lemma objects_live_on_query w w' q Q :
  objects_live_on w w' -> heap w !! q = Some Q ->
  exists Q', heap w' !! q = Some Q' /\ query_identity Q' = query_identity Q.
Proof.
  intros [[k Hk] _] HQ.
  assert (Hl : (query_identity <$> heap w') !! q = Some (query_identity Q)).
  { rewrite Hk. apply lookup_app_l_Some. by rewrite list_lookup_fmap, HQ. }
  rewrite list_lookup_fmap in Hl. destruct (heap w' !! q) as [Q'|]; [|done].
  exists Q'. split; [done|]. cbn in Hl. congruence.
Qed.

Lemma objects_live_on_observer w w' o ob :
  objects_live_on w w' -> observers w !! o = Some ob ->
  exists ob', observers w' !! o = Some ob' /\ observer_binding ob' = observer_binding ob.
Proof.
  intros [_ [k Hk]] Hob.
  assert (Hl : (observer_binding <$> observers w') !! o = Some (observer_binding ob)).
  { rewrite Hk. apply lookup_app_l_Some. by rewrite list_lookup_fmap, Hob. }
  rewrite list_lookup_fmap in Hl. destruct (observers w' !! o) as [ob'|]; [|done].
  exists ob'. split; [done|]. cbn in Hl. congruence.
Qed.

(** ** The state machine of a Query is respected *)

Lemma state_ok_initial : state_ok initial_state.
Proof. split; [by intros _|done]. Qed.

Lemma fetch_inv_ext w w' :
  heap w' = heap w -> promises w' = promises w -> fetch_inv w -> fetch_inv w'.
Proof. intros Hh Hp []. split; rewrite ?Hh, ?Hp; done. Qed.

Lemma fetch_inv_upd_query w q f :
  (forall Q, promise (f Q) = promise Q) -> (forall Q, state (f Q) = state Q) ->
  fetch_inv w -> fetch_inv (upd_query q f w).
Proof.
  intros Hp Hs Hinv.
  assert (Hfw : forall q' Q0, heap w !! q' = Some Q0 ->
            exists Q', heap (upd_query q f w) !! q' = Some Q' /\
                       promise Q' = promise Q0 /\ state Q' = state Q0).
  { intros q' Q0 HQ0. rewrite lookup_upd_query. case_decide as Hd.
    - subst q'. rewrite HQ0. by exists (f Q0).
    - by exists Q0. }
  assert (Hbw : forall q' Q', heap (upd_query q f w) !! q' = Some Q' ->
            exists Q0, heap w !! q' = Some Q0 /\
                       promise Q' = promise Q0 /\ state Q' = state Q0).
  { intros q' Q'. rewrite lookup_upd_query. case_decide as Hd; [subst q'|by eauto].
    destruct (heap w !! q) as [Q0|]; [|done]. intros [= <-]. by exists Q0. }
  split.
  - intros p q' Hpend.
    destruct (fi_pending w Hinv p q' Hpend) as (Q0 & HQ0 & Hpr & Hf & He).
    destruct (Hfw q' Q0 HQ0) as (Q' & HQ' & Hp' & Hs').
    exists Q'. by rewrite Hp', Hs'.
  - intros q' Q' p HQ' Hpr. destruct (Hbw q' Q' HQ') as (Q0 & HQ0 & Hp' & Hs').
    rewrite Hs'. rewrite Hp' in Hpr. exact (fi_handle w Hinv q' Q0 p HQ0 Hpr).
  - intros q' Q' HQ'. destruct (Hbw q' Q' HQ') as (Q0 & HQ0 & Hp' & Hs').
    rewrite Hs', Hp'. exact (fi_state w Hinv q' Q0 HQ0).
Qed.

Lemma fetch_inv_alloc w Q0 :
  promise Q0 = None -> state Q0 = initial_state ->
  fetch_inv w -> fetch_inv (with_heap (heap w ++ [Q0]) w).
Proof.
  intros Hp Hs Hinv. split.
  - intros p q Hpend. destruct (fi_pending w Hinv p q Hpend) as (Q & HQ & H).
    exists Q. split; [|done]. by apply lookup_app_l_Some.
  - intros q Q p. cbn. rewrite lookup_app_Some, list_lookup_singleton_Some.
    intros [HQ|(_ & _ & <-)] Hpr; [|congruence].
    exact (fi_handle w Hinv q Q p HQ Hpr).
  - intros q Q. cbn. rewrite lookup_app_Some, list_lookup_singleton_Some.
    intros [HQ|(_ & _ & <-)]; [exact (fi_state w Hinv q Q HQ)|].
    rewrite Hs. split; [apply state_ok_initial|]. intros _. by left.
Qed.

#[local] Instance fetch_inv_frame : Frame fetch_inv.
Proof.
  split.
  - intros w q g. by apply fetch_inv_upd_query.
  - intros w l. by apply fetch_inv_ext.
  - intros w o cb. by apply fetch_inv_ext.
Qed.

#[local] Instance fetch_inv_clear_frame : ClearFrame fetch_inv.
Proof. split. intros w i. by apply fetch_inv_ext. Qed.

#[local] Instance fetch_inv_set_frame : SetFrame fetch_inv.
Proof.
  split.
  - intros w tm. by apply fetch_inv_ext.
  - intros w q t. by apply fetch_inv_upd_query.
Qed.

#[local] Instance fetch_inv_alloc_frame : AllocFrame fetch_inv.
Proof.
  split.
  - intros host w opts. by apply fetch_inv_alloc.
  - intros w q. by apply fetch_inv_ext.
  - intros w ob. by apply fetch_inv_ext.
Qed.

Lemma lookup_fetched_ne q f r w q' :
  q <> q' -> heap (fetched q f r w) !! q' = heap w !! q'.
Proof.
  intros Hne. unfold fetched. rewrite lookup_upd_query, decide_False by done.
  destruct r as [|e]; change (heap (with_promises _ ?w') !! q') with (heap w' !! q').
  - by rewrite lookup_begun, decide_False.
  - by rewrite lookup_continued_ne, lookup_begun, decide_False.
Qed.

Lemma promises_fetched q f r w :
  promises (fetched q f r w) =
    promises w ++ [match r with Returns => Pending q | Throws _ => Fulfilled end].
Proof. by destruct r. Qed.

(** A Query whose handle is not set has no suspended fetch. *)
Lemma idle_not_pending w q Q p q' :
  fetch_inv w -> heap w !! q = Some Q -> promise Q = None ->
  promises w !! p = Some (Pending q') -> q' <> q.
Proof.
  intros Hinv HQ Hnone Hp ->.
  destruct (fi_pending w Hinv p q Hp) as (Q' & HQ' & Hpr & _). congruence.
Qed.

Lemma fetch_inv_fetched w q Q r :
  fetch_inv w -> heap w !! q = Some Q -> promise Q = None ->
  fetch_inv (fetched q (queryFn Q) r w).
Proof.
  intros Hinv HQ Hnone.
  assert (Hnew : (promises w ++
            [match r with Returns => Pending q | Throws _ => Fulfilled end])
            !! length (promises w)
          = Some (match r with Returns => Pending q | Throws _ => Fulfilled end)).
  { by rewrite lookup_app_r, Nat.sub_diag by lia. }
  split.
  - intros p q'. rewrite promises_fetched, lookup_app_Some, list_lookup_singleton_Some.
    intros [Hp|(Hlen & Hidx & Heq)].
    + pose proof (idle_not_pending w q Q p q' Hinv HQ Hnone Hp) as Hne.
      rewrite lookup_fetched_ne by done. exact (fi_pending w Hinv p q' Hp).
    + destruct r as [|e]; [|done]. injection Heq as <-.
      rewrite (lookup_fetched q _ _ w Q HQ). eexists. split; [reflexivity|].
      cbn. split_and!; try done. f_equal. lia.
  - intros q' Q' p. destruct (decide (q = q')) as [<-|Hne].
    + rewrite (lookup_fetched q _ _ w Q HQ), promises_fetched. intros [= <-] Hpr.
      assert (p = length (promises w)) as -> by (cbn in Hpr; congruence).
      rewrite Hnew. destruct r as [|e]; [by left|by right].
    + rewrite lookup_fetched_ne, promises_fetched by done. intros HQ' Hpr.
      destruct (fi_handle w Hinv q' Q' p HQ' Hpr) as [Hp|(Hp & H)]; [left|right];
        rewrite (lookup_app_l_Some _ _ _ _ Hp); done.
  - intros q' Q'. destruct (decide (q = q')) as [<-|Hne].
    + rewrite (lookup_fetched q _ _ w Q HQ), promises_fetched. intros [= <-].
      destruct (fi_state w Hinv q Q HQ) as [[Hload Hsucc] _].
      destruct r as [|e]; cbn.
      * split; [split|].
        -- intros Hst. by destruct (Hload Hst) as (_ & ? & _ & ?).
        -- intros Hst. by destruct (Hsucc Hst) as [_ ?].
        -- intros _. right. eexists. split; [reflexivity|exact Hnew].
      * by split; [split|].
    + rewrite lookup_fetched_ne, promises_fetched by done. intros HQ'.
      destruct (fi_state w Hinv q' Q' HQ') as [Hok Hfl]. split; [done|].
      intros Hf. destruct (Hfl Hf) as [?|(p & Hpr & Hp)]; [by left|right].
      exists p. by rewrite (lookup_app_l_Some _ _ _ _ Hp).
Qed.

Lemma fetch_inv_settled w p q x :
  fetch_inv w -> promises w !! p = Some (Pending q) ->
  fetch_inv (with_promises (<[p := Fulfilled]> (promises w)) (continued q x w)).
Proof.
  intros Hinv Hp.
  destruct (fi_pending w Hinv p q Hp) as (Q & HQ & Hpr & Hf & He).
  assert (Hother : forall p' q', promises w !! p' = Some (Pending q') -> p' <> p -> q' <> q).
  { intros p' q' Hp' Hne ->.
    destruct (fi_pending w Hinv p' q Hp') as (Q' & HQ' & Hpr' & _). congruence. }
  split.
  - intros p' q'. cbn [promises with_promises]. rewrite list_lookup_insert_Some.
    intros [(_ & [=] & _)|[Hne Hp']].
    change (heap (with_promises _ ?w') !! q') with (heap w' !! q').
    rewrite lookup_continued_ne by (intros <-; by apply (Hother p' q)).
    exact (fi_pending w Hinv p' q' Hp').
  - intros q' Q' p'. change (heap (with_promises _ ?w') !! q') with (heap w' !! q').
    cbn [promises with_promises].
    destruct (decide (q = q')) as [<-|Hne].
    + rewrite (lookup_continued q x w Q HQ). by intros [= <-].
    + rewrite lookup_continued_ne by done. intros HQ' Hpr'.
      assert (p' <> p) as Hpp.
      { intros ->. destruct (fi_handle w Hinv q' Q' p HQ' Hpr') as [H|[H _]]; congruence. }
      rewrite list_lookup_insert_ne by done. exact (fi_handle w Hinv q' Q' p' HQ' Hpr').
  - intros q' Q'. change (heap (with_promises _ ?w') !! q') with (heap w' !! q').
    cbn [promises with_promises].
    destruct (decide (q = q')) as [<-|Hne].
    + rewrite (lookup_continued q x w Q HQ). intros [= <-].
      destruct x as [d|e]; cbn; [|by split; [split|]].
      by split; [split|].
    + rewrite lookup_continued_ne by done. intros HQ'.
      destruct (fi_state w Hinv q' Q' HQ') as [Hok Hfl]. split; [done|].
      intros Hf'. destruct (Hfl Hf') as [?|(p' & Hpr' & Hp')]; [by left|right].
      exists p'. split; [done|]. rewrite list_lookup_insert_ne; [done|].
      intros ->. congruence.
Qed.

Lemma fetch_inv_query_fetch w q r :
  wf w -> fetch_inv w -> fetch_inv (exec (query_fetch q r) w).
Proof.
  intros Hwf Hinv. unfold exec.
  destruct (heap w !! q) as [Q|] eqn:HQ.
  - destruct (promise Q) as [p|] eqn:Hp.
    + by rewrite (query_fetch_in_flight q r w Q p).
    + rewrite (query_fetch_idle q r w Q) by (try apply wf_query_ok; done).
      by apply fetch_inv_fetched.
  - unfold query_fetch, bind, read_query. by rewrite HQ.
Qed.

Lemma fetch_inv_settle w p x :
  wf w -> fetch_inv w -> fetch_inv (exec (settle p x) w).
Proof.
  intros Hwf Hinv. unfold exec.
  destruct (promises w !! p) as [[q| |e]|] eqn:Hp;
    try (unfold settle; by rewrite Hp).
  pose proof (wf_pending w Hwf p q Hp) as Hq.
  rewrite (settle_spec p x w q) by (try apply wf_query_ok; done).
  by apply fetch_inv_settled.
Qed.

Lemma fetch_inv_observer_fetch w o r :
  wf w -> fetch_inv w -> fetch_inv (exec (observer_fetch o r) w).
Proof.
  intros Hwf Hinv. unfold exec.
  destruct (observers w !! o) as [ob|] eqn:Hob.
  - destruct (wf_observers w Hwf o ob Hob) as [Q HQ].
    rewrite (observer_fetch_spec o r w ob Q) by done.
    destruct (is_stale _ _ _); [|done].
    pose proof (fetch_inv_query_fetch w (query ob) r Hwf Hinv) as Hf. unfold exec in Hf.
    unfold bind. by destruct (query_fetch (query ob) r w) as [[?|?] ?].
  - unfold observer_fetch, bind, read_observer. by rewrite Hob.
Qed.

Lemma fetch_inv_observer_subscribe w o cb r :
  wf w -> fetch_inv w -> fetch_inv (exec (observer_subscribe o cb r) w).
Proof.
  intros Hwf Hinv. unfold exec, observer_subscribe, bind at 1, modify_observer, modify.
  set (w1 := with_observers _ w).
  assert (Hw1 : wf w1) by (by apply wf_set_notify).
  assert (Hi1 : fetch_inv w1) by (by apply (fetch_inv_ext w)).
  unfold bind at 1, read_observer.
  destruct (observers w1 !! o) as [ob|] eqn:Hob; [|done].
  unfold bind at 1.
  pose proof (wf_query_subscribe w1 (query ob) o Hw1 (mk_is_Some _ _ Hob)) as Hs.
  pose proof (maintains_query_subscribe fetch_inv (query ob) o w1 Hi1) as Hi2.
  unfold exec in Hs, Hi2.
  destruct (query_subscribe (query ob) o w1) as [[u|e] w2]; [|done].
  cbn [snd] in Hs, Hi2. unfold bind.
  pose proof (fetch_inv_observer_fetch w2 o r Hs Hi2) as Hf. unfold exec in Hf.
  by destruct (observer_fetch o r w2) as [[?|?] ?].
Qed.

Lemma fetch_inv_new_client t : fetch_inv (new_client t).
Proof. by split. Qed.

Lemma fetch_inv_step `{Host} w op :
  wf w -> op_ok w op -> fetch_inv w -> fetch_inv (step op w).
Proof.
  intros Hwf Hok Hinv. destruct op; cbn [step op_ok] in *.
  - by apply (maintains_getQuery fetch_inv).
  - by apply (maintains_createQueryObserver fetch_inv).
  - by apply fetch_inv_observer_subscribe.
  - by apply fetch_inv_observer_fetch.
  - by apply (maintains_query_subscribe fetch_inv).
  - by apply (maintains_unsubscribe fetch_inv).
  - by apply fetch_inv_query_fetch.
  - by apply fetch_inv_settle.
  - destruct (tick_spec dt w) as (_ & Hh & _ & Hp & _). by apply (fetch_inv_ext w).
Qed.

Lemma reachable_fetch_inv `{Host} w : reachable w -> fetch_inv w.
Proof.
  induction 1 as [t Ht|w op Hr IH Hok]; [apply fetch_inv_new_client|].
  apply fetch_inv_step; [by apply reachable_wf|done|done].
Qed.

(** X1. At every reachable state a Query has at most one fetch suspended
    at its [await], and the promise of that fetch is the handle the Query
    stores: two pending promises of the same Query are the same promise. *)
Theorem X1_one_fetch_in_flight `{Host} (w : World) (q : QueryId) (p1 p2 : PromiseId) :
  reachable w ->
  promises w !! p1 = Some (Pending q) ->
  promises w !! p2 = Some (Pending q) ->
  p1 = p2 /\ exists Q, heap w !! q = Some Q /\ promise Q = Some p1.
Proof.
  intros Hr%reachable_fetch_inv H1 H2.
  destruct (fi_pending w Hr p1 q H1) as (Q1 & HQ1 & Hp1 & _).
  destruct (fi_pending w Hr p2 q H2) as (Q2 & HQ2 & Hp2 & _).
  split; [congruence|by exists Q1].
Qed.

Lemma X1_one_fetch_in_flight_witness :
  @reachable example_host ex_waiting /\
  promises ex_waiting !! 0%nat = Some (Pending 0) /\
  exists Q, heap ex_waiting !! 0%nat = Some Q /\ promise Q = Some 0%nat.
Proof.
  split; [apply reachable_ex_waiting|]. split; [reflexivity|].
  exact (proj2 (@X1_one_fetch_in_flight example_host ex_waiting 0%nat 0%nat 0%nat
                  reachable_ex_waiting eq_refl eq_refl)).
Defined.

(** X2. At every reachable state the flags of a Query agree with its
    fetch: while a fetch of it is suspended, [isFetching] is true and
    [error] is undefined; [isFetching] is true only before the first
    settlement ([status] is loading) or while a fetch is suspended; and a
    stored handle is either the promise of the suspended fetch or an
    already fulfilled promise, the latter only with [status] error and
    [isFetching] false. *)
Theorem X2_flags_follow_the_fetch `{Host} (w : World) (q : QueryId) (Q : Query) :
  reachable w -> heap w !! q = Some Q ->
  (forall p, promises w !! p = Some (Pending q) ->
     promise Q = Some p /\ isFetching (state Q) = true /\ error (state Q) = VUndefined) /\
  (isFetching (state Q) = true ->
     status (state Q) = s_loading \/
     exists p, promise Q = Some p /\ promises w !! p = Some (Pending q)) /\
  (forall p, promise Q = Some p ->
     promises w !! p = Some (Pending q) \/
     (promises w !! p = Some Fulfilled /\
      status (state Q) = s_error /\ isFetching (state Q) = false)).
Proof.
  intros Hr%reachable_fetch_inv HQ. split_and!.
  - intros p Hp. destruct (fi_pending w Hr p q Hp) as (Q' & HQ' & H').
    by replace Q with Q' by congruence.
  - exact (proj2 (fi_state w Hr q Q HQ)).
  - intros p. exact (fi_handle w Hr q Q p HQ).
Qed.

Lemma X2_flags_follow_the_fetch_witness :
  @reachable example_host ex_waiting /\
  (exists Q, heap ex_waiting !! 0%nat = Some Q /\
     forall p, promises ex_waiting !! p = Some (Pending 0) ->
       promise Q = Some p /\ isFetching (state Q) = true /\ error (state Q) = VUndefined).
Proof.
  split; [apply reachable_ex_waiting|]. eexists. split; [reflexivity|].
  exact (proj1 (@X2_flags_follow_the_fetch example_host ex_waiting 0%nat _
                  reachable_ex_waiting eq_refl)).
Defined.

(** X3. At every reachable state the status of a Query tells what its
    other fields hold: with [status] loading the Query is fetching or about
    to ([isFetching] true) and has no data, no error and no [lastUpdated];
    with [status] success it has no error and [lastUpdated] is a clock
    reading that is positive and not in the future. *)
Theorem X3_status_tells_the_fields `{Host} (w : World) (q : QueryId) (Q : Query) :
  reachable w -> heap w !! q = Some Q ->
  (status (state Q) = s_loading ->
     isFetching (state Q) = true /\ data (state Q) = VUndefined /\
     error (state Q) = VUndefined /\ lastUpdated (state Q) = None) /\
  (status (state Q) = s_success ->
     error (state Q) = VUndefined /\
     exists t, lastUpdated (state Q) = Some t /\ 0 < t <= now w).
Proof.
  intros Hr HQ.
  destruct (fi_state w (reachable_fetch_inv w Hr) q Q HQ) as [[Hload Hsucc] _].
  split; [exact Hload|]. intros Hst. destruct (Hsucc Hst) as [He [t Ht]].
  split; [done|]. exists t. split; [done|].
  exact (proj2 (wf_heap w (reachable_wf w Hr) q Q HQ) t Ht).
Qed.

Lemma X3_status_tells_the_fields_witness :
  @reachable example_host ex_loaded /\
  exists Q, heap ex_loaded !! 0%nat = Some Q /\ status (state Q) = s_success /\
    error (state Q) = VUndefined /\
    exists t, lastUpdated (state Q) = Some t /\ 0 < t <= now ex_loaded.
Proof.
  split; [apply reachable_ex_loaded|]. eexists. split; [reflexivity|].
  split; [reflexivity|].
  exact (proj2 (@X3_status_tells_the_fields example_host ex_loaded 0%nat _
                  reachable_ex_loaded eq_refl) eq_refl).
Defined.

(** ** One fetch, three rounds *)

(** A round that was run in [w'], where [q] has state [s] and all else is
    as in [w]. *)
Lemma round_at_intro w' w q s l :
  observers w' = observers w ->
  is_Some (heap w !! q) -> state <$> heap w' !! q = Some s ->
  (forall q', q <> q' -> state <$> heap w' !! q' = state <$> heap w !! q') ->
  round w' l = round_at w q s l.
Proof.
  intros Ho [Q HQ] Hs Hne. unfold round_at. apply round_ext; [done|].
  intros q'. rewrite lookup_upd_query. case_decide as Hd.
  - subst q'. by rewrite Hs, HQ.
  - by apply Hne.
Qed.

Lemma round_apply_state q f w Q l :
  heap w !! q = Some Q -> round (apply_state q f w) l = round_at w q (f (state Q)) l.
Proof.
  intros HQ. apply round_at_intro; [done|by eexists| |].
  - by rewrite lookup_apply_state, decide_True, HQ.
  - intros q' Hne. by rewrite lookup_apply_state, decide_False.
Qed.

Lemma round_at_again w w0 q s' l :
  observers w = observers w0 ->
  is_Some (heap w0 !! q) -> is_Some (heap w !! q) ->
  (forall q', q <> q' -> state <$> heap w !! q' = state <$> heap w0 !! q') ->
  round_at w q s' l = round_at w0 q s' l.
Proof.
  intros Ho H0 [Q HQ] Hne. apply round_at_intro; try done.
  - by rewrite lookup_upd_query, decide_True, HQ.
  - intros q' Hq'. rewrite lookup_upd_query, decide_False by done. by apply Hne.
Qed.

Lemma trace_continued_rounds q x w Q :
  heap w !! q = Some Q ->
  trace (continued q x w) =
    trace w ++ round_at w q (outcome_update x (now w) (state Q)) (subs_of w q)
            ++ round_at w q (fetch_settle (outcome_update x (now w) (state Q))) (subs_of w q).
Proof.
  intros HQ.
  assert (Hend : round (continued q x w) (subs_of w q)
            = round_at w q (fetch_settle (outcome_update x (now w) (state Q))) (subs_of w q)).
  { apply round_at_intro; [done|by eexists| |].
    - by rewrite (lookup_continued q x w Q HQ).
    - intros q' Hne. by rewrite lookup_continued_ne. }
  rewrite <- Hend. unfold continued at 1. rewrite trace_apply_state.
  change (trace (upd_query q (set_promise None) ?w')) with (trace w').
  rewrite trace_apply_state, subs_of_upd_query, subs_of_apply_state by done.
  rewrite (round_apply_state q _ w Q) by done.
  by rewrite <- app_assoc.
Qed.

Lemma trace_begun q f w Q :
  heap w !! q = Some Q ->
  trace (begun q f w) =
    trace w ++ round_at w q (fetch_start (state Q)) (subs_of w q) ++ [EvCall q f].
Proof.
  intros HQ. unfold begun. cbn [trace with_trace].
  by rewrite trace_apply_state, (round_apply_state q _ w Q), <- app_assoc.
Qed.

Lemma subs_of_begun q f w q' : subs_of (begun q f w) q' = subs_of w q'.
Proof. apply (subs_of_apply_state q fetch_start w q'). Qed.

Lemma subs_of_continued q x w q' : subs_of (continued q x w) q' = subs_of w q'.
Proof.
  unfold continued.
  by rewrite subs_of_apply_state, subs_of_upd_query, subs_of_apply_state.
Qed.

Lemma subs_of_fetched q f r w q' : subs_of (fetched q f r w) q' = subs_of w q'.
Proof.
  unfold fetched. rewrite subs_of_upd_query by done.
  destruct r as [|e].
  - apply subs_of_begun.
  - change (subs_of (with_promises _ ?w') q') with (subs_of w' q').
    by rewrite subs_of_continued, subs_of_begun.
Qed.

Lemma observers_fetched q f r w : observers (fetched q f r w) = observers w.
Proof. by destruct r. Qed.

(** The rounds of the continuation, seen from the world before the fetch. *)
Lemma trace_continued_begun q f x w Q :
  heap w !! q = Some Q ->
  let s1 := fetch_start (state Q) in
  trace (continued q x (begun q f w)) =
    trace (begun q f w)
      ++ round_at w q (outcome_update x (now w) s1) (subs_of w q)
      ++ round_at w q (fetch_settle (outcome_update x (now w) s1)) (subs_of w q).
Proof.
  intros HQ s1.
  assert (HQb : heap (begun q f w) !! q = Some (set_state s1 Q))
    by (by rewrite lookup_begun, decide_True, HQ).
  rewrite (trace_continued_rounds q x (begun q f w) _ HQb), subs_of_begun.
  assert (Hne : forall q', q <> q' ->
            state <$> heap (begun q f w) !! q' = state <$> heap w !! q')
    by (intros q' Hq'; by rewrite lookup_begun, decide_False).
  by rewrite !(round_at_again (begun q f w) w) by (try done; by eexists).
Qed.

Lemma trace_fetched q f r w Q :
  heap w !! q = Some Q ->
  let s1 := fetch_start (state Q) in
  trace (fetched q f r w) =
    trace w ++ round_at w q s1 (subs_of w q) ++ [EvCall q f] ++
    match r with
    | Returns => []
    | Throws e =>
        round_at w q (fetch_failure e s1) (subs_of w q) ++
        round_at w q (fetch_settle (fetch_failure e s1)) (subs_of w q)
    end.
Proof.
  intros HQ s1. destruct r as [|e].
  - change (trace (fetched q f Returns w)) with (trace (begun q f w)).
    by rewrite (trace_begun q f w Q HQ).
  - change (trace (fetched q f (Throws e) w))
      with (trace (continued q (Failed e) (begun q f w))).
    rewrite (trace_continued_begun q f (Failed e) w Q HQ), (trace_begun q f w Q HQ).
    cbn [outcome_update]. by rewrite <- !app_assoc.
Qed.

Lemma calls_round_at q' w q s l : calls q' (round_at w q s l) = 0%nat.
Proof. apply calls_round. Qed.

Lemma notified_round_at o w q s l :
  notified o (round_at w q s l) = count_occ Nat.eq_dec l o.
Proof. apply notified_round. Qed.

(** X4. One fetch is three notification rounds. On an idle Query at a
    reachable state, [fetch()] followed by the settlement of its promise
    appends to the log one round over the subscribers, run with the state
    of the start in place, the call of the fetch operation, and two more
    rounds, run with the state of the outcome and with the settled state,
    whatever the outcome; when [queryFn()] throws, [fetch()] alone appends
    the same as for a failure. So every subscriber is notified three times
    per fetch, for each entry it has in the subscriber list. *)
Theorem X4_one_fetch_three_rounds `{Host} (w : World) (q : QueryId) (Q : Query)
    (x : Outcome) (e : Val) :
  reachable w -> heap w !! q = Some Q -> promise Q = None ->
  let s1 := fetch_start (state Q) in
  let cycle x :=
    round_at w q s1 (subscribers Q) ++ [EvCall q (queryFn Q)] ++
    round_at w q (outcome_update x (now w) s1) (subscribers Q) ++
    round_at w q (fetch_settle (outcome_update x (now w) s1)) (subscribers Q) in
  emitted (query_fetch q Returns ;;; settle (length (promises w)) x) w = cycle x /\
  emitted (query_fetch q (Throws e)) w = cycle (Failed e) /\
  forall o, notified o (cycle x) = (3 * count_occ Nat.eq_dec (subscribers Q) o)%nat.
Proof.
  intros Hr HQ Hnone s1 cycle.
  pose proof (reachable_wf w Hr) as Hwf.
  assert (Hok : query_ok w q) by (by apply reachable_query_ok).
  assert (Hsubs : subs_of w q = subscribers Q) by (unfold subs_of; by rewrite HQ).
  split_and!.
  - unfold emitted, exec, bind. rewrite (query_fetch_idle q Returns w Q) by done.
    set (w1 := fetched q (queryFn Q) Returns w).
    assert (Hw1 : wf w1) by (apply wf_fetched; [done|by eexists]).
    assert (Hp1 : promises w1 !! length (promises w) = Some (Pending q)).
    { unfold w1. rewrite promises_fetched. by rewrite lookup_app_r, Nat.sub_diag by lia. }
    rewrite (settle_spec _ x w1 q Hp1)
      by (apply wf_query_ok; [done|]; by apply (wf_pending w1 Hw1 _ q Hp1)).
    cbn [snd]. change (trace (with_promises _ ?w')) with (trace w').
    assert (HQ1 : heap w1 !! q = Some (set_promise (Some (length (promises w)))
                                         (set_state s1 Q)))
      by (unfold w1; by rewrite (lookup_fetched q _ Returns w Q HQ)).
    assert (Hne : forall q', q <> q' -> state <$> heap w1 !! q' = state <$> heap w !! q')
      by (intros q' Hq'; unfold w1; by rewrite lookup_fetched_ne).
    assert (Hsubs1 : subs_of w1 q = subscribers Q)
      by (unfold w1; by rewrite subs_of_fetched).
    assert (Hnow1 : now w1 = now w) by done.
    assert (Htr1 : trace w1 = trace w ++ round_at w q s1 (subscribers Q)
                              ++ [EvCall q (queryFn Q)]).
    { unfold w1. rewrite (trace_fetched q _ Returns w Q HQ), Hsubs.
      by rewrite app_nil_r. }
    rewrite (trace_continued_rounds q x w1 _ HQ1), Hsubs1, Hnow1, Htr1.
    rewrite !(round_at_again w1 w) by (try done; by eexists).
    change (state (set_promise _ (set_state s1 Q))) with s1.
    rewrite <- !app_assoc. apply drop_app_length.
  - unfold emitted, exec. rewrite (query_fetch_idle q (Throws e) w Q) by done.
    cbn [snd]. rewrite (trace_fetched q _ (Throws e) w Q HQ), Hsubs. apply drop_app_length.
  - intros o. unfold cycle, notified.
    rewrite !List.filter_app, !length_app.
    fold (notified o (round_at w q s1 (subscribers Q))).
    fold (notified o (round_at w q (outcome_update x (now w) s1) (subscribers Q))).
    fold (notified o (round_at w q (fetch_settle (outcome_update x (now w) s1))
                        (subscribers Q))).
    rewrite !notified_round_at. cbn. lia.
Qed.

Lemma X4_one_fetch_three_rounds_witness :
  @reachable example_host ex_loaded /\
  (exists Q, heap ex_loaded !! 0%nat = Some Q /\ promise Q = None /\
     emitted (query_fetch 0 Returns ;;; settle 1 (Failed (VStr "down"))) ex_loaded
     = round_at ex_loaded 0 (fetch_start (state Q)) (subscribers Q) ++
       [EvCall 0 (queryFn Q)] ++
       round_at ex_loaded 0 (fetch_failure (VStr "down") (fetch_start (state Q)))
         (subscribers Q) ++
       round_at ex_loaded 0
         (fetch_settle (fetch_failure (VStr "down") (fetch_start (state Q))))
         (subscribers Q)).
Proof.
  split; [apply reachable_ex_loaded|].
  eexists. split; [reflexivity|]. split; [reflexivity|].
  exact (proj1 (@X4_one_fetch_three_rounds example_host ex_loaded 0%nat _
                  (Failed (VStr "down")) VNull reachable_ex_loaded eq_refl eq_refl)).
Defined.

(** The log of that fetch, written out: the listener finds the data of the
    last success at each of its three calls, first with the fetch running,
    then next to the error, then with the fetch over. *)
Example scenario_three_rounds :
  emitted (query_fetch 0 Returns ;;; settle 1 (Failed (VStr "down"))) ex_loaded
  = [EvNotify 0 (Some "rerender"%string)
       (Some (mkState s_success true (VStr "posts data") VUndefined (Some 1050)));
     EvCall 0 "getPosts"%string;
     EvNotify 0 (Some "rerender"%string)
       (Some (mkState s_error true (VStr "posts data") (VStr "down") (Some 1050)));
     EvNotify 0 (Some "rerender"%string)
       (Some (mkState s_error false (VStr "posts data") (VStr "down") (Some 1050)))].
Proof. vm_compute. reflexivity. Qed.

(** ** What an operation leaves alone *)

Lemma any_settles x : settles_ok any_updater x.
Proof. by destruct x. Qed.

Lemma any_starts r : starts_ok any_updater r.
Proof. by destruct r. Qed.

Lemma keeps_shown_start : starts_ok keeps_shown Returns.
Proof. by split. Qed.

Lemma shows_upd_query q v w q' f :
  (forall Q, shown (f Q) = shown Q) -> shows q v w -> shows q v (upd_query q' f w).
Proof.
  intros Hf. unfold shows. rewrite lookup_upd_query. case_decide as Hd; [subst q'|done].
  destruct (heap w !! q) as [Q|]; cbn; [by rewrite Hf|done].
Qed.

Lemma shows_alloc q v w Q0 : shows q v w -> shows q v (with_heap (heap w ++ [Q0]) w).
Proof.
  unfold shows. cbn. destruct (heap w !! q) as [Q|] eqn:HQ; [|done].
  by rewrite (lookup_app_l_Some _ _ _ _ HQ).
Qed.

#[local] Instance shows_frame q v : Frame (shows q v).
Proof. split; try done. intros w q' g. by apply shows_upd_query. Qed.

#[local] Instance shows_clear_frame q v : ClearFrame (shows q v).
Proof. by split. Qed.

#[local] Instance shows_set_frame q v : SetFrame (shows q v).
Proof. split; [done|]. intros w q' t. by apply shows_upd_query. Qed.

#[local] Instance shows_fetch_frame q v : FetchFrame keeps_shown (shows q v).
Proof.
  split; try done.
  - intros w q' f Hf. apply shows_upd_query. intros Q. unfold shown. cbn.
    by destruct (Hf (state Q)) as [-> ->].
  - intros w q' p. by apply shows_upd_query.
Qed.

#[local] Instance shows_alloc_frame q v : AllocFrame (shows q v).
Proof.
  split; try done. intros host w opts. apply shows_alloc.
Qed.

(** X5. What a component shows of a Query, its [status] and its [data],
    changes only where a fetch of it ends: from a reachable state, every
    operation other than the settlement of the suspended fetch of the Query
    and a call in which [queryFn()] throws leaves both as they were. In
    particular the start of a refetch does not hide the data. *)
Theorem X5_shown_until_the_fetch_ends `{Host} (w : World) (op : Op)
    (q : QueryId) (Q : Query) :
  reachable w -> heap w !! q = Some Q -> ~ ends_fetch w q op ->
  exists Q', heap (step op w) !! q = Some Q' /\
    status (state Q') = status (state Q) /\ data (state Q') = data (state Q).
Proof.
  intros Hr HQ Hne.
  assert (Hs : shows q (shown Q) w) by (unfold shows; by rewrite HQ).
  assert (Hgoal : shows q (shown Q) (step op w)).
  { destruct op as [opts|opts|o cb r|o r|q' o|u|q' r|p x|dt]; cbn [step ends_fetch] in *.
    - by apply (maintains_getQuery (shows q (shown Q))).
    - by apply (maintains_createQueryObserver (shows q (shown Q))).
    - destruct r as [|e]; [|by destruct Hne].
      apply (maintains_observer_subscribe (shows q (shown Q)) keeps_shown);
        [apply keeps_shown_start|done].
    - destruct r as [|e]; [|by destruct Hne].
      apply (maintains_observer_fetch (shows q (shown Q)) keeps_shown);
        [apply keeps_shown_start|done].
    - by apply (maintains_query_subscribe (shows q (shown Q))).
    - by apply (maintains_unsubscribe (shows q (shown Q))).
    - destruct r as [|e]; [|by destruct Hne].
      apply (maintains_query_fetch (shows q (shown Q)) keeps_shown);
        [apply keeps_shown_start|done].
    - unfold exec.
      destruct (promises w !! p) as [[q'| |e]|] eqn:Hp;
        try (unfold settle; by rewrite Hp).
      pose proof (reachable_wf w Hr) as Hwf.
      rewrite (settle_spec p x w q')
        by (try apply wf_query_ok; try done; by apply (wf_pending w Hwf p)).
      unfold shows. cbn [snd].
      change (heap (with_promises _ ?w') !! q) with (heap w' !! q).
      rewrite lookup_continued_ne by congruence. exact Hs.
    - unfold shows. destruct (tick_spec dt w) as (_ & -> & _). exact Hs. }
  unfold shows in Hgoal. destruct (heap (step op w) !! q) as [Q'|]; [|done].
  exists Q'. split; [done|]. unfold shown in Hgoal. cbn in Hgoal.
  split; congruence.
Qed.

Lemma X5_shown_until_the_fetch_ends_witness :
  @reachable example_host (@step example_host (OpTick 11000) ex_loaded) /\
  exists Q', heap (@step example_host (OpObserverFetch 0 Returns)
                     (@step example_host (OpTick 11000) ex_loaded)) !! 0%nat = Some Q' /\
    status (state Q') = s_success /\ data (state Q') = VStr "posts data".
Proof.
  assert (Hr : @reachable example_host (@step example_host (OpTick 11000) ex_loaded))
    by (exact (reach_step ex_loaded (OpTick 11000) reachable_ex_loaded I)).
  split; [exact Hr|].
  exact (@X5_shown_until_the_fetch_ends example_host _ (OpObserverFetch 0 Returns)
           0%nat _ Hr eq_refl (fun F : False => F)).
Defined.

Lemma queries_fold_gc_callback fired : forall w,
  queries (fold_left (fun w' q => gc_callback q w') fired w) `sublist_of` queries w.
Proof.
  induction fired as [|q fired IH]; intros w; cbn [fold_left]; [done|].
  etrans; [apply IH|]. apply sublist_filter.
Qed.

Lemma registry_getQuery `{Host} opts w :
  (queries (exec (getQuery opts) w) = queries w /\ heap (exec (getQuery opts) w) = heap w) \/
  (exists Q, queries (exec (getQuery opts) w) = queries w ++ [length (heap w)] /\
             heap (exec (getQuery opts) w) = heap w ++ [Q]).
Proof.
  unfold exec.
  destruct (find (hash_matches w (JSON_stringify (opt_queryKey opts))) (queries w))
    as [q|] eqn:Hf.
  - rewrite (getQuery_found opts w q Hf). by left.
  - rewrite (getQuery_fresh opts w Hf). right. by eexists.
Qed.

Lemma registry_createQueryObserver `{Host} opts w :
  (queries (exec (createQueryObserver opts) w) = queries w /\
   heap (exec (createQueryObserver opts) w) = heap w) \/
  (exists Q, queries (exec (createQueryObserver opts) w) = queries w ++ [length (heap w)] /\
             heap (exec (createQueryObserver opts) w) = heap w ++ [Q]).
Proof.
  unfold exec, createQueryObserver, bind.
  set (opts' := mkOptions _ _ _ _).
  destruct (find (hash_matches w (JSON_stringify (opt_queryKey opts'))) (queries w))
    as [q|] eqn:Hf.
  - rewrite (getQuery_found opts' w q Hf). by left.
  - rewrite (getQuery_fresh opts' w Hf). right. by eexists.
Qed.

Lemma registry_tick dt w : queries (exec (tick dt) w) `sublist_of` queries w.
Proof.
  unfold exec, tick, run_timers, bind, modify. cbn [snd]. cbv beta.
  etrans; [apply queries_fold_gc_callback|]. done.
Qed.

Lemma registry_kept `{Host} (w : World) (op : Op) :
  match op with
  | OpGetQuery _ | OpCreateObserver _ | OpTick _ => True
  | _ => queries (step op w) = queries w
  end.
Proof.
  destruct op as [opts|opts|o cb r|o r|q' o|u|q' r|p x|dt]; cbn [step]; try done.
  - exact (maintains_observer_subscribe (registry_is (queries w)) any_updater o cb r
             (any_starts r) w eq_refl).
  - exact (maintains_observer_fetch (registry_is (queries w)) any_updater o r
             (any_starts r) w eq_refl).
  - exact (maintains_query_subscribe (registry_is (queries w)) q' o w eq_refl).
  - exact (maintains_unsubscribe (registry_is (queries w)) u w eq_refl).
  - exact (maintains_query_fetch (registry_is (queries w)) any_updater q' r
             (any_starts r) w eq_refl).
  - exact (maintains_settle (registry_is (queries w)) any_updater p x
             (any_settles x) w eq_refl).
Qed.

(** X6. [client.queries] has two writers. A lookup ([getQuery], also
    within [createQueryObserver]) leaves the registry as it is or appends
    the one Query it has just created; the passing of time only removes
    entries, keeping the order of the rest; every other operation (any
    subscribe, unsubscribe, fetch and settlement, also of a Query that has
    been evicted) leaves the registry as it is. *)
Theorem X6_registry_writers `{Host} (w : World) (op : Op) :
  match op with
  | OpGetQuery _ | OpCreateObserver _ =>
      (queries (step op w) = queries w /\ heap (step op w) = heap w) \/
      (exists Q, queries (step op w) = queries w ++ [length (heap w)] /\
                 heap (step op w) = heap w ++ [Q])
  | OpTick _ => queries (step op w) `sublist_of` queries w
  | _ => queries (step op w) = queries w
  end.
Proof.
  destruct op as [opts|opts|o cb r|o r|q' o|u|q' r|p x|dt].
  - apply registry_getQuery.
  - apply registry_createQueryObserver.
  - exact (registry_kept w (OpObserverSubscribe o cb r)).
  - exact (registry_kept w (OpObserverFetch o r)).
  - exact (registry_kept w (OpQuerySubscribe q' o)).
  - exact (registry_kept w (OpUnsubscribe u)).
  - exact (registry_kept w (OpQueryFetch q' r)).
  - exact (registry_kept w (OpSettle p x)).
  - apply registry_tick.
Qed.

Lemma objects_live_on_trans w1 w2 w3 :
  objects_live_on w1 w2 -> objects_live_on w2 w3 -> objects_live_on w1 w3.
Proof. intros [Hh1 Ho1] [Hh2 Ho2]. split; by etrans. Qed.

Lemma objects_live_on_step `{Host} w0 w op :
  objects_live_on w0 w -> objects_live_on w0 (step op w).
Proof.
  intros Hl. destruct op as [opts|opts|o cb r|o r|q' o|u|q' r|p x|dt]; cbn [step].
  - by apply (maintains_getQuery (objects_live_on w0)).
  - by apply (maintains_createQueryObserver (objects_live_on w0)).
  - by apply (maintains_observer_subscribe (objects_live_on w0) any_updater);
      [apply any_starts|].
  - by apply (maintains_observer_fetch (objects_live_on w0) any_updater);
      [apply any_starts|].
  - by apply (maintains_query_subscribe (objects_live_on w0)).
  - by apply (maintains_unsubscribe (objects_live_on w0)).
  - by apply (maintains_query_fetch (objects_live_on w0) any_updater);
      [apply any_starts|].
  - by apply (maintains_settle (objects_live_on w0) any_updater); [apply any_settles|].
  - by apply objects_live_on_tick.
Qed.

(** X7. Objects are for life. Through any run of operations, a Query
    object stays a Query object under the same identity, with the
    [queryKey], [queryFn], [queryHash] and [cacheTime] it was created with,
    and an Observer stays bound to the Query and the [staleTime] it was
    created with: eviction from the registry frees nothing and a later
    lookup of the same key rebinds nothing. *)
Theorem X7_objects_are_for_life `{Host} (w : World) (ops : list Op) :
  (forall q Q, heap w !! q = Some Q ->
     exists Q', heap (steps ops w) !! q = Some Q' /\
       queryKey Q' = queryKey Q /\ queryFn Q' = queryFn Q /\
       queryHash Q' = queryHash Q /\ cacheTime Q' = cacheTime Q) /\
  (forall o ob, observers w !! o = Some ob ->
     exists ob', observers (steps ops w) !! o = Some ob' /\
       query ob' = query ob /\ staleTime ob' = staleTime ob).
Proof.
  assert (Hl : objects_live_on w (steps ops w)).
  { unfold steps. generalize (objects_live_on_refl w). generalize w at 2 4 as w'.
    induction ops as [|op ops IH]; intros w' Hw'; cbn [fold_left]; [done|].
    apply IH. by apply objects_live_on_step. }
  split.
  - intros q Q HQ. destruct (objects_live_on_query w _ q Q Hl HQ) as (Q' & HQ' & Hid).
    exists Q'. split; [done|]. unfold query_identity in Hid. by injection Hid.
  - intros o ob Hob.
    destruct (objects_live_on_observer w _ o ob Hl Hob) as (ob' & Hob' & Hid).
    exists ob'. split; [done|]. unfold observer_binding in Hid. by injection Hid.
Qed.

Lemma X7_objects_are_for_life_witness :
  queries (@steps example_host ex_eviction_run ex_loaded) = [] /\
  exists ob, observers ex_loaded !! 0%nat = Some ob /\
  exists ob', observers (@steps example_host ex_eviction_run ex_loaded) !! 0%nat = Some ob' /\
    query ob' = query ob /\ staleTime ob' = staleTime ob.
Proof.
  split; [vm_compute; reflexivity|]. eexists. split; [reflexivity|].
  exact (proj2 (@X7_objects_are_for_life example_host ex_loaded ex_eviction_run)
           0%nat _ eq_refl).
Defined.

Lemma objects_live_on_steps `{Host} ops : forall w0 w,
  objects_live_on w0 w -> objects_live_on w0 (steps ops w).
Proof.
  unfold steps. induction ops as [|op ops IH]; intros w0 w Hw; cbn [fold_left]; [done|].
  apply IH. by apply objects_live_on_step.
Qed.

Lemma evicted_step `{Host} w op q :
  is_Some (heap w !! q) -> q ∉ queries w ->
  is_Some (heap (step op w) !! q) /\ q ∉ queries (step op w).
Proof.
  intros [Q HQ] Hnin. split.
  - destruct (objects_live_on_query w (step op w) q Q
                (objects_live_on_step w w op (objects_live_on_refl w)) HQ) as (Q' & HQ' & _).
    by eexists.
  - pose proof (registry_kept w op) as Hkept.
    pose proof (lookup_lt_Some _ _ _ HQ) as Hlt.
    assert (Hnew : q ∉ queries w ++ [length (heap w)]).
    { rewrite not_elem_of_app, not_elem_of_cons.
      split_and!; [done|lia|apply not_elem_of_nil]. }
    destruct op as [opts|opts|o cb r|o r|q' o|u|q' r|p x|dt]; try by rewrite Hkept.
    + cbn [step]. by destruct (registry_getQuery opts w) as [[-> _]|(Q0 & -> & _)].
    + cbn [step]. by destruct (registry_createQueryObserver opts w) as [[-> _]|(Q0 & -> & _)].
    + intros Hin. apply Hnin. eapply elem_of_sublist; [exact Hin|apply registry_tick].
Qed.

(** X8. Eviction is final. A Query object that is not in the registry
    never enters it again, whatever happens next: the registry only ever
    takes Queries at their creation, and lookups of the key of an evicted
    Query create another one. *)
Theorem X8_eviction_is_final `{Host} (w : World) (ops : list Op) (q : QueryId) :
  is_Some (heap w !! q) -> q ∉ queries w -> q ∉ queries (steps ops w).
Proof.
  unfold steps. revert w. induction ops as [|op ops IH]; intros w Hq Hnin;
    cbn [fold_left]; [done|].
  destruct (evicted_step w op q Hq Hnin) as [Hq' Hnin']. by apply IH.
Qed.

Lemma X8_eviction_is_final_witness :
  is_Some (heap ex_evicted !! 0%nat) /\ (0%nat ∉ queries ex_evicted) /\
  (0%nat ∉ queries (@steps example_host
                      [OpCreateObserver posts; OpObserverSubscribe 1 "rerender" Returns;
                       OpObserverFetch 0 Returns] ex_evicted)).
Proof.
  assert (Hq : is_Some (heap ex_evicted !! 0%nat)) by (vm_compute; by eexists).
  assert (Hqs : queries ex_evicted = []) by (vm_compute; reflexivity).
  assert (Hnin : 0%nat ∉ queries ex_evicted) by (rewrite Hqs; apply not_elem_of_nil).
  split; [exact Hq|]. split; [exact Hnin|].
  exact (@X8_eviction_is_final example_host ex_evicted
           [OpCreateObserver posts; OpObserverSubscribe 1 "rerender" Returns;
            OpObserverFetch 0 Returns] 0%nat Hq Hnin).
Defined.

(** ** [getResult] *)

Lemma getResult_spec o w ob Q :
  observers w !! o = Some ob -> heap w !! query ob = Some Q ->
  getResult o w = (Normal (state Q), w).
Proof.
  intros Hob HQ. unfold getResult, bind, read_observer, read_query, ret.
  by rewrite Hob, HQ.
Qed.

(** X9. [getResult()] reads the Query the Observer was created with, for
    ever. From a reachable state and after any run of operations, the call
    changes nothing, does not throw, and returns the current state of that
    same Query object, whether or not the Query is still the registry's
    entry for its key. *)
Theorem X9_getResult_reads_its_query `{Host} (w : World) (ops : list Op)
    (o : ObserverId) (ob : Observer) :
  reachable w -> observers w !! o = Some ob ->
  exists Q', heap (steps ops w) !! query ob = Some Q' /\
    getResult o (steps ops w) = (Normal (state Q'), steps ops w).
Proof.
  intros Hr Hob.
  destruct (wf_observers w (reachable_wf w Hr) o ob Hob) as [Q HQ].
  pose proof (objects_live_on_steps ops w w (objects_live_on_refl w)) as Hl.
  destruct (objects_live_on_query w _ _ Q Hl HQ) as (Q' & HQ' & _).
  destruct (objects_live_on_observer w _ o ob Hl Hob) as (ob' & Hob' & Hb).
  assert (Hq : query ob' = query ob) by (unfold observer_binding in Hb; congruence).
  exists Q'. split; [done|]. apply (getResult_spec o _ ob'); [done|by rewrite Hq].
Qed.

Lemma X9_getResult_reads_its_query_witness :
  @reachable example_host ex_loaded /\
  (exists ob, observers ex_loaded !! 0%nat = Some ob /\
   exists Q', heap (@steps example_host ex_eviction_run ex_loaded) !! query ob = Some Q' /\
     getResult 0 (@steps example_host ex_eviction_run ex_loaded)
     = (Normal (state Q'), @steps example_host ex_eviction_run ex_loaded)).
Proof.
  split; [apply reachable_ex_loaded|]. eexists. split; [reflexivity|].
  exact (@X9_getResult_reads_its_query example_host ex_loaded ex_eviction_run
           0%nat _ reachable_ex_loaded eq_refl).
Defined.

(** ** Runs *)

Lemma steps_cons `{Host} op ops w : steps (op :: ops) w = steps ops (step op w).
Proof. reflexivity. Qed.

Lemma steps_snoc `{Host} ops op w : steps (ops ++ [op]) w = step op (steps ops w).
Proof. unfold steps. by rewrite fold_left_app. Qed.

Lemma steps_app `{Host} ops1 ops2 w : steps (ops1 ++ ops2) w = steps ops2 (steps ops1 w).
Proof. unfold steps. apply fold_left_app. Qed.

Lemma reachable_steps `{Host} ops : forall w,
  reachable w -> (forall op, op ∈ ops -> forall w', op_ok w' op) ->
  reachable (steps ops w).
Proof.
  unfold steps. induction ops as [|op ops IH]; intros w Hr Hok; cbn [fold_left]; [done|].
  apply IH.
  - apply reach_step; [done|]. apply Hok. by left.
  - intros op' Hin. apply Hok. by right.
Qed.

(** ** The focus sweep *)

Lemma forEach_normal {A} (P : World -> Prop) (f : A -> M unit) (l : list A) :
  (forall x w, x ∈ l -> P w -> result (f x) w = Normal tt /\ P (exec (f x) w)) ->
  forall w, P w -> result (forEach f l) w = Normal tt /\ P (exec (forEach f l) w).
Proof.
  induction l as [|a l IH]; intros Hf w Hw; cbn [forEach]; [done|].
  destruct (Hf a w (list_elem_of_here a l) Hw) as [Hres HP].
  unfold result, exec, bind in *. destruct (f a w) as [r w1]. cbn [fst snd] in *.
  subst r. apply IH; [|done]. intros x w' Hx. apply Hf. by apply list_elem_of_further.
Qed.

(** What [observer.fetch()] comes to at a well-formed state. *)
Lemma observer_fetch_cases w o r ob :
  wf w -> observers w !! o = Some ob ->
  observer_fetch o r w = (Normal tt, w) \/
  exists Q, heap w !! query ob = Some Q /\ promise Q = None /\
    observer_fetch o r w = (Normal tt, fetched (query ob) (queryFn Q) r w).
Proof.
  intros Hwf Hob. destruct (wf_observers w Hwf o ob Hob) as [Q HQ].
  rewrite (observer_fetch_spec o r w ob Q) by done.
  destruct (is_stale _ _ _); [|by left]. unfold bind.
  destruct (promise Q) as [p|] eqn:Hp.
  - rewrite (query_fetch_in_flight _ r w Q p) by done. by left.
  - rewrite (query_fetch_idle _ r w Q) by (try apply wf_query_ok; done).
    right. by exists Q.
Qed.

Lemma lastUpdated_of_fetched q f r w q' :
  lastUpdated_of (fetched q f r w) q' = lastUpdated_of w q'.
Proof.
  unfold lastUpdated_of. destruct (decide (q = q')) as [<-|Hne].
  - destruct (heap w !! q) as [Q|] eqn:HQ.
    + rewrite (lookup_fetched q f r w Q HQ). by destruct r.
    + unfold fetched. rewrite lookup_upd_query, decide_True by done.
      destruct r as [|e]; change (heap (with_promises _ ?w') !! q) with (heap w' !! q).
      * by rewrite lookup_begun, decide_True, HQ.
      * unfold continued.
        by rewrite lookup_apply_state, decide_True, lookup_upd_query, decide_True,
          lookup_apply_state, decide_True, lookup_begun, decide_True, HQ.
  - by rewrite lookup_fetched_ne.
Qed.

Lemma sweeping_refl w : wf w -> sweeping w w.
Proof. intros Hwf. by split_and!. Qed.

Lemma sweeping_fetched w0 w q f r :
  is_Some (heap w !! q) -> sweeping w0 w -> sweeping w0 (fetched q f r w).
Proof.
  intros Hq (Hwf & Hn & Hqs & Ho & Ht & Hs & Hl). split_and!.
  - by apply wf_fetched.
  - rewrite <- Hn. by destruct r.
  - rewrite <- Hqs. by destruct r.
  - by rewrite observers_fetched.
  - rewrite <- Ht. by destruct r.
  - intros q'. by rewrite subs_of_fetched.
  - intros q'. by rewrite lastUpdated_of_fetched.
Qed.

Lemma calls_fetched_ne q q' f r w :
  q <> q' -> calls q (trace (fetched q' f r w)) = calls q (trace w).
Proof.
  intros Hne.
  assert (Hc : calls q [EvCall q' f] = 0%nat).
  { unfold calls. cbn. by rewrite (proj2 (Nat.eqb_neq q q')). }
  assert (Hb : calls q (trace (begun q' f w)) = calls q (trace w)).
  { unfold begun. cbn [trace with_trace].
    rewrite trace_apply_state, !calls_app, calls_round, Hc. lia. }
  destruct r as [|e]; [exact Hb|].
  change (trace (fetched q' f (Throws e) w))
    with (trace (continued q' (Failed e) (begun q' f w))).
  destruct (trace_continued q' (Failed e) (begun q' f w)) as (w1 & w2 & l1 & l2 & ->).
  rewrite !calls_app, !calls_round. lia.
Qed.

Lemma called_at_most_once_fetched q c w q' Q' r :
  heap w !! q' = Some Q' -> promise Q' = None ->
  called_at_most_once q c w ->
  called_at_most_once q c (fetched q' (queryFn Q') r w).
Proof.
  intros HQ' Hnone Hc. destruct (decide (q' = q)) as [->|Hne].
  - destruct Hc as [Hc|(_ & Q & p & HQ & Hp)]; [|congruence].
    right. rewrite calls_fetched, Hc. split; [done|].
    rewrite (lookup_fetched q _ r w Q' HQ'). by eexists _, _.
  - unfold called_at_most_once.
    by rewrite calls_fetched_ne, lookup_fetched_ne by done.
Qed.

Lemma not_called_fetched q c w q' Q' r :
  heap w !! q' = Some Q' -> promise Q' = None ->
  not_called q c w -> not_called q c (fetched q' (queryFn Q') r w).
Proof.
  intros HQ' Hnone (Hc & Q & p & HQ & Hp).
  assert (q' <> q) by congruence.
  unfold not_called. rewrite calls_fetched_ne, lookup_fetched_ne by done.
  split; [done|]. by exists Q, p.
Qed.

Section Sweep.
Context (w0 : World) (E : World -> Prop).
Hypothesis E_fetched : forall w q Q r,
  heap w !! q = Some Q -> promise Q = None -> E w -> E (fetched q (queryFn Q) r w).

Lemma sweep_observer_fetch o r w :
  is_Some (observers w0 !! o) -> sweeping w0 w /\ E w ->
  result (observer_fetch o r) w = Normal tt /\
  (sweeping w0 (exec (observer_fetch o r) w) /\ E (exec (observer_fetch o r) w)).
Proof.
  intros [ob Hob] [Hsw HE]. pose proof Hsw as (Hwf & _ & _ & Ho & _).
  rewrite <- Ho in Hob. unfold result, exec.
  destruct (observer_fetch_cases w o r ob Hwf Hob) as [->|(Q & HQ & Hnone & ->)]; [done|].
  cbn [fst snd]. split; [done|]. split; [|by apply E_fetched].
  apply sweeping_fetched; [by eexists|done].
Qed.

Lemma sweep_onFocus r w :
  sweeping w0 w -> E w ->
  result (onFocus r) w = Normal tt /\
  (sweeping w0 (exec (onFocus r) w) /\ E (exec (onFocus r) w)).
Proof.
  intros Hsw HE. unfold onFocus, result, exec, bind, gets. cbn [fst snd].
  assert (Hqs : queries w = queries w0) by apply Hsw.
  apply (forEach_normal (fun w' => sweeping w0 w' /\ E w')); [|done].
  intros q w1 Hq [Hsw1 HE1]. pose proof Hsw1 as (Hwf1 & _ & Hqs1 & Ho1 & _).
  assert (Hq1 : is_Some (heap w1 !! q)).
  { apply (wf_registry w1 Hwf1). by rewrite Hqs1, <- Hqs. }
  destruct Hq1 as [Q HQ]. unfold result, exec, bind, read_query. rewrite HQ.
  apply (forEach_normal (fun w' => sweeping w0 w' /\ E w')); [|done].
  intros o w2 Hin Hw2. apply sweep_observer_fetch; [|done].
  rewrite <- Ho1.
  exact (proj1 (Forall_forall _ _) (proj1 (wf_heap w1 Hwf1 q Q HQ)) o Hin).
Qed.
End Sweep.

Lemma reachable_observer_fetch `{Host} o r : maintains reachable (observer_fetch o r).
Proof. intros w Hr. exact (reach_step w (OpObserverFetch o r) Hr I). Qed.

Lemma first_call_fetched q c w q' Q' r :
  heap w !! q' = Some Q' -> promise Q' = None ->
  first_call q c w -> first_call q c (fetched q' (queryFn Q') r w).
Proof.
  intros HQ' Hnone [(Hc & Q & HQ & Hp)|Hc]; [|right; by apply not_called_fetched].
  destruct (decide (q' = q)) as [->|Hne].
  - right. split; [by rewrite calls_fetched, Hc|].
    rewrite (lookup_fetched q _ r w Q' HQ'). by eexists _, _.
  - left. rewrite calls_fetched_ne, lookup_fetched_ne by done. split; [done|by exists Q].
Qed.

Section SweepRun.
Context `{Host} (w0 : World) (E : World -> Prop) (r : ObserverId -> CallResult).
Hypothesis E_fetched : forall w q Q r,
  heap w !! q = Some Q -> promise Q = None -> E w -> E (fetched q (queryFn Q) r w).

(** The inner loop is a run of [observer.fetch()] calls. *)
Lemma sweep_subscribers os : forall w,
  Forall (fun o => is_Some (observers w0 !! o)) os -> sweeping w0 w -> E w ->
  let w' := steps (map (fun o => OpObserverFetch o (r o)) os) w in
  forEach (fun o => observer_fetch o (r o)) os w = (Normal tt, w') /\
  sweeping w0 w' /\ E w'.
Proof.
  induction os as [|o os IH]; intros w Hos Hsw HE; [done|].
  apply Forall_cons in Hos as [Ho Hos]. cbn [map]. rewrite steps_cons. cbn [forEach step].
  destruct (sweep_observer_fetch w0 E E_fetched o (r o) w Ho (conj Hsw HE))
    as (Hres & Hsw1 & HE1).
  unfold bind. unfold result, exec in *.
  destruct (observer_fetch o (r o) w) as [res w1]. cbn [fst snd] in *. subst res.
  by apply IH.
Qed.

(** The outer loop. *)
Lemma sweep_queries qs : forall w,
  (forall q, q ∈ qs -> q ∈ queries w0) -> sweeping w0 w -> E w ->
  let w' := steps (map (fun o => OpObserverFetch o (r o)) (qs ≫= subs_of w0)) w in
  forEach (fun q => Q <- read_query q ;;
                    forEach (fun o => observer_fetch o (r o)) (subscribers Q)) qs w
    = (Normal tt, w') /\
  sweeping w0 w' /\ E w'.
Proof.
  induction qs as [|q qs IH]; intros w Hqs Hsw HE; [done|].
  pose proof Hsw as (Hwf & _ & Hq & Ho & _ & Hsub & _).
  destruct (wf_registry w Hwf q) as [Q HQ].
  { rewrite Hq. apply Hqs. by left. }
  assert (Hs : subscribers Q = subs_of w0 q).
  { rewrite <- Hsub. unfold subs_of. by rewrite HQ. }
  assert (Hos : Forall (fun o => is_Some (observers w0 !! o)) (subs_of w0 q)).
  { rewrite <- Hs, <- Ho. apply (wf_heap w Hwf q Q HQ). }
  cbn [mbind list_bind]. rewrite map_app, steps_app. cbn [forEach].
  destruct (sweep_subscribers (subs_of w0 q) w Hos Hsw HE) as (Hrun & Hsw1 & HE1).
  unfold bind at 1, bind at 1, read_query. rewrite HQ, Hs, Hrun.
  apply IH; [|done|done]. intros q' Hq'. apply Hqs. by right.
Qed.
End SweepRun.

(** The sweep is the run of its calls. *)
Lemma onFocus_steps `{Host} (E : World -> Prop) r w :
  (forall w q Q r, heap w !! q = Some Q -> promise Q = None -> E w ->
     E (fetched q (queryFn Q) r w)) ->
  wf w -> E w ->
  onFocus r w = (Normal tt, steps (sweep_calls r w) w) /\
  sweeping w (steps (sweep_calls r w) w) /\ E (steps (sweep_calls r w) w).
Proof.
  intros HE Hwf Hw. unfold onFocus, bind at 1, gets.
  by apply (sweep_queries w E r HE (queries w) w); [|apply sweeping_refl|].
Qed.

Lemma sweep_observers_ok w :
  wf w -> Forall (fun o => is_Some (observers w !! o)) (sweep_observers w).
Proof.
  intros Hwf. apply Forall_forall. intros o (q & Ho & Hq)%list_elem_of_bind.
  destruct (wf_registry w Hwf q Hq) as [Q HQ]. unfold subs_of in Ho. rewrite HQ in Ho.
  exact (proj1 (Forall_forall _ _) (proj1 (wf_heap w Hwf q Q HQ)) o Ho).
Qed.

(** The visit of a stale Observer whose Query has no handle calls the
    fetch operation, once. *)
Lemma sweep_visit `{Host} w0 w o r ob Q q c :
  sweeping w0 w -> observers w0 !! o = Some ob -> heap w0 !! query ob = Some Q ->
  query ob = q ->
  is_stale (now w0) (lastUpdated (state Q)) (staleTime ob) = true ->
  first_call q c w -> not_called q (S c) (step (OpObserverFetch o r) w).
Proof.
  intros (Hwf & Hn & _ & Ho & _ & _ & Hl) Hob HQ <- Hst Hfc. cbn [step].
  rewrite <- Ho in Hob. destruct (wf_observers w Hwf o ob Hob) as [Q1 HQ1].
  assert (Hlu : lastUpdated (state Q1) = lastUpdated (state Q)).
  { specialize (Hl (query ob)). unfold lastUpdated_of in Hl. by rewrite HQ, HQ1 in Hl. }
  unfold exec. rewrite (observer_fetch_spec o r w ob Q1 Hob HQ1), Hn, Hlu, Hst.
  unfold bind. destruct Hfc as [(Hc & Q2 & HQ2 & Hp)|Hnc].
  - assert (Q2 = Q1) as -> by congruence.
    rewrite (query_fetch_idle _ r w Q1 HQ1 Hp) by (apply wf_query_ok; [done|by eexists]).
    unfold ret. cbn [snd]. split; [by rewrite calls_fetched, Hc|].
    rewrite (lookup_fetched _ _ r w Q1 HQ1). by eexists _, _.
  - destruct Hnc as (Hc & Q2 & p & HQ2 & Hp).
    rewrite (query_fetch_in_flight _ r w Q2 p HQ2 Hp). unfold ret. cbn [snd].
    split; [done|].
    by exists Q2, p.
Qed.

(** X10. The focus sweep of [QueryClientProvider] starts fetches and does
    nothing else. From a reachable state the handler returns normally, also
    when fetch operations throw, and what it does is the run of one
    [observer.fetch()] call per subscriber of each registered Query, in the
    order of the registry and of the subscriber lists as they are when the
    sweep starts. So the state it leaves is one the interface calls reach;
    the clock, the registry, the Observers, the timers, every subscriber
    list and every [lastUpdated] are as before; and for every subscribed
    Observer that is stale and whose Query has no fetch in flight, the fetch
    operation of that Query is called, once, and the handle of the fetch is
    set when the sweep ends. *)
Theorem X10_focus_sweep `{Host} (w : World) (r : ObserverId -> CallResult) :
  reachable w ->
  let w' := exec (onFocus r) w in
  result (onFocus r) w = Normal tt /\
  w' = steps (sweep_calls r w) w /\
  reachable w' /\
  now w' = now w /\ queries w' = queries w /\ observers w' = observers w /\
  timers w' = timers w /\
  (forall q, subs_of w' q = subs_of w q) /\
  (forall q, lastUpdated_of w' q = lastUpdated_of w q) /\
  (forall q o ob Q,
     q ∈ queries w -> o ∈ subs_of w q ->
     observers w !! o = Some ob -> heap w !! query ob = Some Q ->
     is_stale (now w) (lastUpdated (state Q)) (staleTime ob) = true ->
     promise Q = None ->
     calls (query ob) (trace w') = S (calls (query ob) (trace w)) /\
     exists Q' p, heap w' !! query ob = Some Q' /\ promise Q' = Some p).
Proof.
  intros Hr w'. pose proof (reachable_wf w Hr) as Hwf.
  destruct (onFocus_steps (fun _ => True) r w (fun _ _ _ _ _ _ _ => I) Hwf I)
    as (Hrun & (_ & Hn & Hq & Ho & Ht & Hs & Hl) & _).
  assert (Hw' : w' = steps (sweep_calls r w) w) by (unfold w', exec; by rewrite Hrun).
  rewrite Hw'. split_and!; try done.
  - unfold result. by rewrite Hrun.
  - apply reachable_steps; [done|]. unfold sweep_calls.
    intros op (o & -> & _)%list_elem_of_fmap w1. exact I.
  - intros q o ob Q Hqin Hoin Hob HQ Hst Hp.
    set (c := calls (query ob) (trace w)).
    assert (Hin : o ∈ sweep_observers w) by (apply list_elem_of_bind; by exists q).
    pose proof (sweep_observers_ok w Hwf) as Hok.
    apply list_elem_of_split in Hin as (os1 & os2 & Hsplit).
    rewrite Hsplit in Hok. apply Forall_app in Hok as [Hok1 Hok2].
    apply Forall_cons in Hok2 as [_ Hok2].
    unfold sweep_calls. rewrite Hsplit, map_app, steps_app. cbn [map]. rewrite steps_cons.
    destruct (sweep_subscribers w (first_call (query ob) c) r
                (first_call_fetched (query ob) c) os1 w Hok1 (sweeping_refl w Hwf))
      as (_ & Hsw1 & Hfc1).
    { left. split; [done|by exists Q]. }
    set (w1 := steps (map (fun o => OpObserverFetch o (r o)) os1) w) in *.
    pose proof (sweep_visit w w1 o (r o) ob Q (query ob) c Hsw1 Hob HQ eq_refl Hst Hfc1)
      as Hnc.
    assert (Hsw2 : sweeping w (step (OpObserverFetch o (r o)) w1)).
    { apply (sweep_observer_fetch w (fun _ => True) (fun _ _ _ _ _ _ _ => I) o (r o) w1);
        [by eexists|done]. }
    destruct (sweep_subscribers w (not_called (query ob) (S c)) r
                (fun w2 q2 Q2 r2 => not_called_fetched (query ob) (S c) w2 q2 Q2 r2)
                os2 _ Hok2 Hsw2 Hnc)
      as (_ & _ & Hc & Hset).
    done.
Qed.

(** X11. One sweep, at most one call per Query. However many Observers
    are subscribed, and to however many Queries, a focus sweep from a
    reachable state calls the fetch operation of a Query at most once, and
    not at all when the handle of the Query is set at the start. *)
Theorem X11_sweep_calls_at_most_once `{Host} (w : World) (r : ObserverId -> CallResult)
    (q : QueryId) :
  reachable w ->
  let w' := exec (onFocus r) w in
  (calls q (trace w') <= S (calls q (trace w)))%nat /\
  (forall Q p, heap w !! q = Some Q -> promise Q = Some p ->
     calls q (trace w') = calls q (trace w)).
Proof.
  intros Hr w'. pose proof (sweeping_refl w (reachable_wf w Hr)) as Hsw. split.
  - destruct (sweep_onFocus w (called_at_most_once q (calls q (trace w)))
                (fun w1 q1 Q1 r1 => called_at_most_once_fetched q _ w1 q1 Q1 r1) r w Hsw)
      as (_ & _ & [Hc|[Hc _]]); [by left|fold w' in Hc; lia..].
  - intros Q p HQ Hp.
    destruct (sweep_onFocus w (not_called q (calls q (trace w)))
                (fun w1 q1 Q1 r1 => not_called_fetched q _ w1 q1 Q1 r1) r w Hsw)
      as (_ & _ & [Hc _]); [|done].
    split; [done|]. by exists Q, p.
Qed.

Lemma reachable_ex_two_stale : @reachable example_host ex_two_stale.
Proof.
  apply reachable_steps; [apply reachable_ex_loaded|].
  intros op Hin w'. repeat (apply elem_of_cons in Hin as [->|Hin]; [exact I|]).
  by apply elem_of_nil in Hin.
Qed.

Lemma X10_focus_sweep_witness :
  @reachable example_host ex_two_stale /\
  result (onFocus (fun _ => Throws (VStr "offline"))) ex_two_stale = Normal tt /\
  exec (onFocus (fun _ => Throws (VStr "offline"))) ex_two_stale
  = @steps example_host
      [OpObserverFetch 0 (Throws (VStr "offline"));
       OpObserverFetch 1 (Throws (VStr "offline"))] ex_two_stale.
Proof.
  split; [apply reachable_ex_two_stale|].
  pose proof (@X10_focus_sweep example_host ex_two_stale
                (fun _ => Throws (VStr "offline")) reachable_ex_two_stale) as Hs.
  cbn zeta in Hs. exact (conj (proj1 Hs) (proj1 (proj2 Hs))).
Defined.

Lemma X11_sweep_calls_at_most_once_witness :
  @reachable example_host ex_two_stale /\
  subs_of ex_two_stale 0 = [0%nat; 1%nat] /\
  (calls 0 (trace (exec (onFocus (fun _ => Returns)) ex_two_stale))
   <= S (calls 0 (trace ex_two_stale)))%nat.
Proof.
  split; [apply reachable_ex_two_stale|]. split; [vm_compute; reflexivity|].
  exact (proj1 (@X11_sweep_calls_at_most_once example_host ex_two_stale
                  (fun _ => Returns) 0%nat reachable_ex_two_stale)).
Defined.

(** The window is focused 11 s after the load: the sweep is the refetch of
    the one Observer; with two stale Observers of the Query it is still one
    call. *)
Example scenario_focus :
  exec (onFocus (fun _ => Returns)) (@step example_host (OpTick 11000) ex_loaded)
  = @step example_host (OpObserverFetch 0 Returns)
      (@step example_host (OpTick 11000) ex_loaded) /\
  calls 0 (trace ex_two_stale) = 1%nat /\
  calls 0 (trace (exec (onFocus (fun _ => Returns)) ex_two_stale)) = 2%nat.
Proof. split_and!; vm_compute; reflexivity. Qed.

(** ** [observer.subscribe] as a whole *)

Lemma filter_ne_id {A} `{EqDecision A} (x : A) (l : list A) :
  x ∉ l -> filter (fun d => d <> x) l = l.
Proof.
  induction l as [|a l IH]; [done|]. rewrite not_elem_of_cons. intros [Hne Hnin].
  rewrite filter_cons_True by done. by rewrite IH.
Qed.

Lemma filter_ne_snoc {A} `{EqDecision A} (x : A) (l : list A) :
  filter (fun d => d <> x) (l ++ [x]) = filter (fun d => d <> x) l.
Proof.
  rewrite filter_app, filter_cons, filter_nil.
  case_decide as Hd; [by destruct Hd|apply app_nil_r].
Qed.

(** X12. What [observer.subscribe(callback)] comes to. At a reachable
    state the call returns the closure for this Observer and its Query; the
    Observer's listener is then [callback]; the Observer is appended to the
    subscriber list of its Query; the GC timer whose handle the Query
    stores is no longer pending; the registry is untouched; and the fetch
    operation is called once if the Query is stale for this Observer and
    has no handle set, and not at all otherwise. *)
Theorem X12_observer_subscribe `{Host} (w : World) (o : ObserverId) (ob : Observer)
    (Q : Query) (cb : Listener) (r : CallResult) :
  reachable w -> observers w !! o = Some ob -> heap w !! query ob = Some Q ->
  let w' := exec (observer_subscribe o cb r) w in
  result (observer_subscribe o cb r) w = Normal (mkUnsubscribe (query ob) o) /\
  listener_of w' o = Some cb /\
  subs_of w' (query ob) = subscribers Q ++ [o] /\
  (forall i tm, gcTimeout Q = Some i -> timers w' !! i <> Some (Some tm)) /\
  queries w' = queries w /\
  calls (query ob) (trace w') =
    (calls (query ob) (trace w) +
     if is_stale (now w) (lastUpdated (state Q)) (staleTime ob)
     then match promise Q with None => 1 | Some _ => 0 end
     else 0)%nat.
Proof.
  intros Hr Hob HQ. pose proof (reachable_wf w Hr) as Hwf.
  set (q := query ob). set (ob1 := set_notify (Some cb) ob).
  set (w1 := with_observers (alter (set_notify (Some cb)) o (observers w)) w).
  set (Q2 := set_subscribers (subscribers Q ++ [o]) Q).
  set (w2 := cleared (gcTimeout Q)
               (upd_query q (fun Q' => set_subscribers (subscribers Q' ++ [o]) Q') w1)).
  assert (Hw1 : wf w1) by (by apply wf_set_notify).
  assert (Hob1 : observers w1 !! o = Some ob1).
  { unfold w1. cbn. by rewrite list_lookup_alter_eq, Hob. }
  assert (Hsub : query_subscribe q o w1 = (Normal (mkUnsubscribe q o), w2))
    by (by apply query_subscribe_spec).
  assert (Hw2 : wf w2).
  { pose proof (wf_query_subscribe w1 q o Hw1 (mk_is_Some _ _ Hob1)) as H2.
    unfold exec in H2. by rewrite Hsub in H2. }
  assert (Ho2 : observers w2 = observers w1) by (unfold w2; by destruct (gcTimeout Q)).
  assert (Hh2 : heap w2 !! q = Some Q2).
  { unfold w2. replace (heap (cleared (gcTimeout Q) _))
      with (heap (upd_query q (fun Q' => set_subscribers (subscribers Q' ++ [o]) Q') w1))
      by (by destruct (gcTimeout Q)).
    rewrite lookup_upd_query, decide_True by done.
    change (heap w1 !! q) with (heap w !! query ob). by rewrite HQ. }
  assert (Hfacts2 : listener_of w2 o = Some cb /\ subs_of w2 q = subscribers Q ++ [o] /\
            (forall i tm, gcTimeout Q = Some i -> timers w2 !! i <> Some (Some tm)) /\
            queries w2 = queries w /\ trace w2 = trace w /\ now w2 = now w).
  { split_and!.
    - unfold listener_of. by rewrite Ho2, Hob1.
    - unfold subs_of. by rewrite Hh2.
    - intros i tm Hi. unfold w2. rewrite Hi. cbn.
      rewrite list_lookup_insert_Some. by intros [(_ & [=] & _)|[? _]].
    - unfold w2. by destruct (gcTimeout Q).
    - unfold w2. by destruct (gcTimeout Q).
    - unfold w2. by destruct (gcTimeout Q). }
  destruct Hfacts2 as (Hl2 & Hs2 & Ht2 & Hq2 & Htr2 & Hn2).
  assert (Hrun : observer_subscribe o cb r w =
            match observer_fetch o r w2 with
            | (Normal _, w3) => (Normal (mkUnsubscribe q o), w3)
            | (Thrown e, w3) => (Thrown e, w3)
            end).
  { unfold observer_subscribe, bind at 1, modify_observer, modify. fold w1.
    unfold bind at 1, read_observer. rewrite Hob1.
    unfold bind at 1. change (query ob1) with q. rewrite Hsub. reflexivity. }
  assert (Hfetch : observer_fetch o r w2 =
            if is_stale (now w) (lastUpdated (state Q)) (staleTime ob)
            then match promise Q with
                 | None => (Normal tt, fetched q (queryFn Q) r w2)
                 | Some _ => (Normal tt, w2)
                 end
            else (Normal tt, w2)).
  { rewrite (observer_fetch_spec o r w2 ob1 Q2) by (by rewrite ?Ho2).
    rewrite Hn2. change (lastUpdated (state Q2)) with (lastUpdated (state Q)).
    change (staleTime ob1) with (staleTime ob). change (query ob1) with q.
    destruct (is_stale _ _ _); [|done]. unfold bind.
    destruct (promise Q) as [p|] eqn:Hp.
    - by rewrite (query_fetch_in_flight q r w2 Q2 p).
    - by rewrite (query_fetch_idle q r w2 Q2)
        by (try apply wf_query_ok; try done; by eexists). }
  intros w'. unfold w', result, exec. rewrite Hrun, Hfetch.
  destruct (is_stale _ _ _);
    [destruct (promise Q) as [p|]|]; cbn [fst snd];
    try (split_and!; [done|done|done|done|done|rewrite Htr2; lia]).
  split_and!; [done| | | | |].
  - unfold listener_of. rewrite observers_fetched. exact Hl2.
  - by rewrite subs_of_fetched.
  - intros i tm Hi. replace (timers (fetched q (queryFn Q) r w2)) with (timers w2)
      by (by destruct r). by apply Ht2.
  - rewrite <- Hq2. by destruct r.
  - rewrite calls_fetched, Htr2. lia.
Qed.

Lemma X12_observer_subscribe_witness :
  @reachable example_host ex_rendered /\
  (exists ob Q, observers ex_rendered !! 0%nat = Some ob /\
     heap ex_rendered !! query ob = Some Q /\
     subs_of (exec (observer_subscribe 0 "rerender" Returns) ex_rendered) (query ob)
     = subscribers Q ++ [0%nat]).
Proof.
  split; [apply reachable_ex_rendered|]. eexists _, _.
  split; [reflexivity|]. split; [reflexivity|].
  exact (proj1 (proj2 (proj2 (@X12_observer_subscribe example_host ex_rendered 0%nat _ _
                  "rerender"%string Returns reachable_ex_rendered eq_refl eq_refl)))).
Defined.

(** X13. The closure that [query.subscribe] returns removes the
    subscriber, not the subscription. Subscribing an Observer and calling
    the closure leaves exactly the entries of the other subscribers, in
    their order: the list is as before when the Observer was not in it, and
    entries that earlier subscriptions of the same Observer had added are
    removed too. *)
Theorem X13_unsubscribe_removes_the_subscriber `{Host} (w : World) (q : QueryId)
    (o : ObserverId) (Q : Query) :
  heap w !! q = Some Q ->
  let w' := exec (u <- query_subscribe q o ;; unsubscribe u) w in
  subs_of w' q = filter (fun d => d <> o) (subscribers Q) /\
  (o ∉ subs_of w' q) /\
  (o ∉ subscribers Q -> subs_of w' q = subscribers Q) /\
  observers w' = observers w.
Proof.
  intros HQ w'.
  assert (Hs : subs_of w' q = filter (fun d => d <> o) (subscribers Q) /\
               observers w' = observers w).
  { unfold w', exec, bind. rewrite (query_subscribe_spec q o w Q HQ).
    set (w1 := cleared _ _).
    assert (H1 : heap w1 !! unsub_query (mkUnsubscribe q o)
                 = Some (set_subscribers (subscribers Q ++ [o]) Q)).
    { assert (Hh : forall t w2, heap (cleared t w2) = heap w2) by (by intros [?|] ?).
      unfold w1. cbn [unsub_query].
      by rewrite Hh, lookup_upd_query, decide_True, HQ. }
    destruct (subs_of_unsubscribe (mkUnsubscribe q o) w1 _ H1) as [Hs Ho].
    unfold exec in Hs, Ho. cbn [unsub_query unsub_subscriber] in Hs.
    split.
    - rewrite Hs. cbn [subscribers set_subscribers]. apply filter_ne_snoc.
    - rewrite Ho. unfold w1. by destruct (gcTimeout Q). }
  destruct Hs as [Hs Ho]. split_and!; try done.
  - rewrite Hs, list_elem_of_filter. by intros [Hne _].
  - intros Hnin. by rewrite Hs, filter_ne_id.
Qed.

Lemma X13_unsubscribe_removes_the_subscriber_witness :
  (exists Q, heap ex_mounted !! 0%nat = Some Q /\ subscribers Q = [0%nat] /\
     subs_of (exec (u <- query_subscribe 0 0 ;; @unsubscribe example_host u) ex_mounted) 0
     = []).
Proof.
  eexists. split; [reflexivity|]. split; [reflexivity|].
  exact (proj1 (@X13_unsubscribe_removes_the_subscriber example_host ex_mounted
                  0%nat 0%nat _ eq_refl)).
Defined.

(** ** The listeners of the client *)

(** X14. The listener list of the client. A listener that subscribes is
    called by [notify] after the listeners that were there, whose calls
    stay as they were; the closure that [subscribe] returned removes every
    registration of its callback (the list is as before when the callback
    had not been registered, and an earlier registration of the same
    callback goes too) and nothing else: the other listeners stay, each as
    many times as it was registered and in the order they were in, so that
    around any other listener the list is what the closure leaves of the
    part before it, then this listener, then what the closure leaves of the
    part after it. The closure is idempotent; after it [notify] does not
    call the callback. *)
Theorem X14_client_listeners (l : list Listener) (cb : Listener) :
  client_notify (client_subscribe cb l) = client_notify l ++ [cb] /\
  client_unsubscribe cb (client_subscribe cb l) = client_unsubscribe cb l /\
  (cb ∉ l -> client_unsubscribe cb (client_subscribe cb l) = l) /\
  (cb ∉ client_notify (client_unsubscribe cb l)) /\
  (forall cb', cb' <> cb ->
     filter (fun d => d = cb') (client_unsubscribe cb l) = filter (fun d => d = cb') l) /\
  client_unsubscribe cb l `sublist_of` l /\
  (forall l1 a l2, l = l1 ++ a :: l2 ->
     client_unsubscribe cb l =
       client_unsubscribe cb l1 ++
       (if decide (a = cb) then [] else [a]) ++ client_unsubscribe cb l2) /\
  client_unsubscribe cb (client_unsubscribe cb l) = client_unsubscribe cb l.
Proof.
  assert (Hid : forall l', client_notify l' = l') by (intros l'; apply map_id).
  assert (Hun : client_unsubscribe cb (client_subscribe cb l) = client_unsubscribe cb l).
  { unfold client_unsubscribe, client_subscribe. apply filter_ne_snoc. }
  split_and!.
  - by rewrite !Hid.
  - exact Hun.
  - intros Hnin. rewrite Hun. by apply filter_ne_id.
  - rewrite Hid. unfold client_unsubscribe. rewrite list_elem_of_filter. by intros [Hne _].
  - intros cb' Hne. unfold client_unsubscribe. rewrite list_filter_filter.
    apply list_filter_iff. intros x. split; [by intros [? _]|]. intros ->. by split.
  - apply sublist_filter.
  - intros l1 a l2 ->. unfold client_unsubscribe. rewrite filter_app, filter_cons.
    by destruct (decide (a = cb)) as [->|Hne];
      [rewrite decide_False by (by intros Hc; apply Hc)|rewrite decide_True by done].
  - unfold client_unsubscribe. apply list_filter_filter_l. done.
Qed.

(** ** Staleness lasts until a success *)

Lemma is_stale_mono t t' lu T :
  t <= t' -> is_stale t lu T = true -> is_stale t' lu T = true.
Proof.
  intros Hle. destruct lu as [t0|]; cbn; [|done].
  rewrite !orb_true_iff, !Z.ltb_lt. intros [?|?]; [by left|right; lia].
Qed.

#[local] Instance clock_is_frame t : Frame (clock_is t).
Proof. by split. Qed.

#[local] Instance clock_is_clear_frame t : ClearFrame (clock_is t).
Proof. by split. Qed.

#[local] Instance clock_is_set_frame t : SetFrame (clock_is t).
Proof. by split. Qed.

#[local] Instance clock_is_fetch_frame t : FetchFrame any_updater (clock_is t).
Proof. by split. Qed.

#[local] Instance clock_is_alloc_frame t : AllocFrame (clock_is t).
Proof. by split. Qed.

(** Time does not go back. *)
Lemma now_step `{Host} w op : now w <= now (step op w).
Proof.
  assert (Heq : forall w', clock_is (now w) w' -> now w <= now w')
    by (unfold clock_is; intros w' ->; lia).
  destruct op as [opts|opts|o cb r|o r|q' o|u|q' r|p x|dt]; cbn [step].
  - by apply Heq, (maintains_getQuery (clock_is (now w))).
  - by apply Heq, (maintains_createQueryObserver (clock_is (now w))).
  - by apply Heq, (maintains_observer_subscribe (clock_is (now w)) any_updater);
      [apply any_starts|].
  - by apply Heq, (maintains_observer_fetch (clock_is (now w)) any_updater);
      [apply any_starts|].
  - by apply Heq, (maintains_query_subscribe (clock_is (now w))).
  - by apply Heq, (maintains_unsubscribe (clock_is (now w))).
  - by apply Heq, (maintains_query_fetch (clock_is (now w)) any_updater);
      [apply any_starts|].
  - by apply Heq, (maintains_settle (clock_is (now w)) any_updater); [apply any_settles|].
  - destruct (tick_spec dt w) as (-> & _). lia.
Qed.

Lemma lastUpdated_step `{Host} w op q :
  ~ succeeds op -> lastUpdated_of (step op w) q = lastUpdated_of w q.
Proof.
  intros Hns.
  destruct op as [opts|opts|o cb r|o r|q' o|u|q' r|p [d|e]|dt]; cbn [step succeeds] in *.
  - apply (keeps_getQuery (same_lastUpdated q)).
  - apply (keeps_createQueryObserver (same_lastUpdated q)).
  - apply (keeps_observer_subscribe (same_lastUpdated q)).
  - apply (keeps_observer_fetch (same_lastUpdated q)).
  - apply (keeps_query_subscribe (same_lastUpdated q)).
  - apply lu_unsubscribe.
  - apply (keeps_query_fetch (same_lastUpdated q)).
  - by destruct Hns.
  - apply (keeps_settle_failed (same_lastUpdated q)).
  - apply lu_tick.
Qed.

(** X15. Stale until a success. If a Query is stale for an Observer,
    then after any operation other than a settlement with a result it is
    still stale for that Observer: time does not go back, no other
    operation writes [lastUpdated], and the Observer keeps its Query and
    its [staleTime]. A fetch that fails, however often, never makes the
    data fresh. *)
Theorem X15_stale_until_success `{Host} (w : World) (op : Op) (o : ObserverId)
    (ob : Observer) (Q : Query) :
  observers w !! o = Some ob -> heap w !! query ob = Some Q ->
  is_stale (now w) (lastUpdated (state Q)) (staleTime ob) = true ->
  ~ succeeds op ->
  exists ob' Q',
    observers (step op w) !! o = Some ob' /\ heap (step op w) !! query ob' = Some Q' /\
    is_stale (now (step op w)) (lastUpdated (state Q')) (staleTime ob') = true.
Proof.
  intros Hob HQ Hstale Hns.
  pose proof (objects_live_on_step w w op (objects_live_on_refl w)) as Hl.
  destruct (objects_live_on_observer w _ o ob Hl Hob) as (ob' & Hob' & Hb).
  destruct (objects_live_on_query w _ _ Q Hl HQ) as (Q' & HQ' & _).
  unfold observer_binding in Hb.
  assert (Hq : query ob' = query ob) by congruence.
  assert (HT : staleTime ob' = staleTime ob) by congruence.
  exists ob', Q'. rewrite Hq, HT. split_and!; try done.
  pose proof (lastUpdated_step w op (query ob) Hns) as Hlu.
  unfold lastUpdated_of in Hlu. rewrite HQ, HQ' in Hlu. rewrite Hlu.
  by apply (is_stale_mono (now w)); [apply now_step|].
Qed.

Lemma X15_stale_until_success_witness :
  exists ob Q,
    observers ex_two_stale !! 0%nat = Some ob /\ heap ex_two_stale !! query ob = Some Q /\
    is_stale (now ex_two_stale) (lastUpdated (state Q)) (staleTime ob) = true /\
    exists ob' Q',
      observers (@step example_host (OpSettle 1 (Failed VNull)) ex_two_stale) !! 0%nat
      = Some ob' /\
      heap (@step example_host (OpSettle 1 (Failed VNull)) ex_two_stale) !! query ob'
      = Some Q' /\
      is_stale (now (@step example_host (OpSettle 1 (Failed VNull)) ex_two_stale))
        (lastUpdated (state Q')) (staleTime ob') = true.
Proof.
  assert (Hob : observers ex_two_stale !! 0%nat = Some (mkObserver 0 10000 (Some "rerender"%string)))
    by (vm_compute; reflexivity).
  assert (HQ : heap ex_two_stale !! 0%nat
               = Some (mkQuery (VArr [VStr "posts"]) "getPosts" (Some "posts"%string) None
                         [0%nat; 1%nat] None
                         (mkState s_success false (VStr "posts data") VUndefined (Some 1050))
                         6000))
    by (vm_compute; reflexivity).
  eexists _, _. split; [exact Hob|]. split; [exact HQ|]. split; [vm_compute; reflexivity|].
  exact (@X15_stale_until_success example_host ex_two_stale (OpSettle 1 (Failed VNull))
           0%nat _ _ Hob HQ eq_refl (fun F : False => F)).
Defined.

(** ** [useQuery] *)

Lemma useQuery_rerender `{Host} o opts w ob Q :
  observers w !! o = Some ob -> heap w !! query ob = Some Q ->
  useQuery (Some o) opts w = (Normal (o, state Q), w).
Proof.
  intros Hob HQ. unfold useQuery, bind, ret. by rewrite (getResult_spec o w ob Q).
Qed.

Lemma useQuery_rerender_after `{Host} o opts w ob Q ops :
  observers w !! o = Some ob -> heap w !! query ob = Some Q ->
  exists Q', heap (steps ops w) !! query ob = Some Q' /\
    useQuery (Some o) opts (steps ops w) = (Normal (o, state Q'), steps ops w).
Proof.
  intros Hob HQ.
  pose proof (objects_live_on_steps ops w w (objects_live_on_refl w)) as Hl.
  destruct (objects_live_on_query w _ _ Q Hl HQ) as (Q' & HQ' & _).
  destruct (objects_live_on_observer w _ o ob Hl Hob) as (ob' & Hob' & Hb).
  assert (Hq : query ob' = query ob) by (unfold observer_binding in Hb; by injection Hb).
  exists Q'. split; [done|]. apply (useQuery_rerender o opts _ ob'); [done|by rewrite Hq].
Qed.

(** X16. The first render of a component that calls [useQuery] creates
    one Observer, with no listener yet, bound to the Query that the
    registry holds for the key, or to a new registered Query; it returns
    the state of that Query and neither calls the fetch operation nor
    notifies, subscribes or sets a timer. Every later render, whatever has
    happened in between (subscribes and unsubscribes, fetches, settlements,
    lookups, the passing of time and with it the eviction of the Query) and
    whatever options it is given, returns the same Observer and the state
    that this same Query has by then, and changes nothing: the hook reads
    its options once. *)
Theorem X16_useQuery_render `{Host} (w : World) (opts opts' : Options) :
  let o := length (observers w) in
  let w' := exec (useQuery None opts) w in
  exists q Q,
    result (useQuery None opts) w = Normal (o, state Q) /\
    heap w' !! q = Some Q /\ queryHash Q = JSON_stringify (opt_queryKey opts) /\
    q ∈ queries w' /\
    observers w' =
      observers w ++ [mkObserver q (default default_staleTime (opt_staleTime opts)) None] /\
    trace w' = trace w /\ promises w' = promises w /\ timers w' = timers w /\
    (forall q0 Q0, heap w !! q0 = Some Q0 -> heap w' !! q0 = Some Q0) /\
    useQuery (Some o) opts' w' = (Normal (o, state Q), w') /\
    (forall ops, exists Q',
       heap (steps ops w') !! q = Some Q' /\
       useQuery (Some o) opts' (steps ops w') = (Normal (o, state Q'), steps ops w')).
Proof.
  intros o w'.
  set (opts0 := mkOptions (opt_queryKey opts) (opt_queryFn opts) None (opt_cacheTime opts)).
  assert (Hrender : forall q Q w1,
            getQuery opts0 w = (Normal q, w1) -> heap w1 !! q = Some Q ->
            observers w1 = observers w ->
            let w2 := with_observers (observers w ++ [new_observer q opts]) w1 in
            useQuery None opts w = (Normal (o, state Q), w2) /\
            useQuery (Some o) opts' w2 = (Normal (o, state Q), w2) /\
            (forall ops, exists Q',
               heap (steps ops w2) !! q = Some Q' /\
               useQuery (Some o) opts' (steps ops w2)
                 = (Normal (o, state Q'), steps ops w2))).
  { intros q Q w1 Hget HQ Ho w2.
    assert (Hob : observers w2 !! o = Some (new_observer q opts)).
    { unfold w2, o. cbn. by rewrite lookup_app_r, Nat.sub_diag by lia. }
    assert (Hres : getResult o w2 = (Normal (state Q), w2))
      by (by apply (getResult_spec o w2 (new_observer q opts))).
    split_and!.
    - unfold useQuery, bind at 1, createQueryObserver, bind at 1.
      fold opts0. rewrite Hget, Ho. fold o. fold w2. unfold bind. by rewrite Hres.
    - unfold useQuery, bind, ret. by rewrite Hres.
    - intros ops.
      exact (useQuery_rerender_after o opts' w2 (new_observer q opts) Q ops Hob HQ). }
  destruct (find (hash_matches w (JSON_stringify (opt_queryKey opts0))) (queries w))
    as [q|] eqn:Hf.
  - pose proof (find_some _ _ Hf) as [Hin Hm].
    apply hash_matches_Some in Hm as (Q & HQ & Hh).
    destruct (Hrender q Q w (getQuery_found opts0 w q Hf) HQ eq_refl) as (H1 & H2 & H3).
    exists q, Q. unfold w', result, exec. rewrite H1. cbn [fst snd].
    split_and!; try done. by apply list_elem_of_In.
  - set (q := length (heap w)).
    set (w1 := with_queries (queries w ++ [q]) (with_heap (heap w ++ [new_query opts0]) w)).
    assert (HQ : heap w1 !! q = Some (new_query opts0)).
    { unfold w1, q. cbn. by rewrite lookup_app_r, Nat.sub_diag by lia. }
    destruct (Hrender q (new_query opts0) w1 (getQuery_fresh opts0 w Hf) HQ eq_refl)
      as (H1 & H2 & H3).
    exists q, (new_query opts0). unfold w', result, exec. rewrite H1. cbn [fst snd].
    split_and!; try done.
    + cbn. rewrite elem_of_app, list_elem_of_singleton. by right.
    + intros q0 Q0 HQ0. cbn. by apply lookup_app_l_Some.
Qed.

(** ** Success *)

(** X17. A settlement with a result publishes it. At a reachable state,
    when the suspended fetch of a Query settles with data, the Query ends
    with [status] success, that data, no error, [lastUpdated] at the
    current clock, [isFetching] false and no handle; the promise is
    fulfilled; and the subscribers have been notified in two rounds, the
    first run with the result in place and the fetch still marked as
    running, the second with the final state. *)
Theorem X17_success_publishes `{Host} (w : World) (p : PromiseId) (q : QueryId)
    (d : Val) :
  reachable w -> promises w !! p = Some (Pending q) ->
  let w' := exec (settle p (Resolved d)) w in
  exists Q, heap w !! q = Some Q /\
    (state <$> heap w' !! q) = Some (mkState s_success false d VUndefined (Some (now w))) /\
    (promise <$> heap w' !! q) = Some None /\
    promises w' !! p = Some Fulfilled /\
    emitted (settle p (Resolved d)) w
    = round_at w q (mkState s_success true d VUndefined (Some (now w))) (subscribers Q) ++
      round_at w q (mkState s_success false d VUndefined (Some (now w))) (subscribers Q).
Proof.
  intros Hr Hp w'.
  pose proof (reachable_wf w Hr) as Hwf.
  destruct (fi_pending w (reachable_fetch_inv w Hr) p q Hp) as (Q & HQ & Hpr & Hf & He).
  assert (Hok : query_ok w q) by (apply wf_query_ok; [done|by eexists]).
  assert (Hsubs : subs_of w q = subscribers Q) by (unfold subs_of; by rewrite HQ).
  assert (Hs2 : fetch_success d (now w) (state Q)
                = mkState s_success true d VUndefined (Some (now w)))
    by (unfold fetch_success; by rewrite Hf, He).
  exists Q. split; [done|].
  unfold w', emitted, exec. rewrite (settle_spec p (Resolved d) w q Hp Hok). cbn [snd].
  change (heap (with_promises _ ?w1) !! q) with (heap w1 !! q).
  change (trace (with_promises _ ?w1)) with (trace w1).
  rewrite (lookup_continued q (Resolved d) w Q HQ),
    (trace_continued_rounds q (Resolved d) w Q HQ), Hsubs.
  cbn [outcome_update]. rewrite Hs2.
  split_and!.
  - cbn. f_equal. unfold settled_query. cbn. by rewrite Hs2.
  - done.
  - cbn. apply list_lookup_insert_eq. by eapply lookup_lt_Some.
  - apply drop_app_length.
Qed.

Lemma X17_success_publishes_witness :
  @reachable example_host ex_waiting /\
  promises ex_waiting !! 0%nat = Some (Pending 0) /\
  (state <$> heap (exec (settle 0 (Resolved (VStr "posts data"))) ex_waiting) !! 0%nat)
  = Some (mkState s_success false (VStr "posts data") VUndefined (Some (now ex_waiting))).
Proof.
  split; [apply reachable_ex_waiting|]. split; [reflexivity|].
  destruct (@X17_success_publishes example_host ex_waiting 0%nat 0%nat
              (VStr "posts data") reachable_ex_waiting eq_refl) as (Q & _ & Hs & _).
  exact Hs.
Defined.

(** * Garbage collection over runs

    The life of a GC timer through any run of operations: what keeps it
    pending, what it does when due, and what a subscribe undoes. *)

Lemma run_of_impl `{Host} (a b : World -> Op -> Prop) ops :
  (forall w op, a w op -> b w op) -> forall w, run_of a ops w -> run_of b ops w.
Proof.
  intros Hab. induction ops as [|op ops IH]; intros w; cbn [run_of]; [done|].
  intros (Hok & Ha & Hrun). split_and!; auto.
Qed.

Lemma evicted_steps `{Host} ops : forall w q,
  is_Some (heap w !! q) -> q ∉ queries w -> q ∉ queries (steps ops w).
Proof.
  induction ops as [|op ops IH]; intros w q Hq Hnin; [done|].
  rewrite steps_cons. destruct (evicted_step w op q Hq Hnin) as [Hq' Hnin']. by apply IH.
Qed.

Lemma exec_bind {A B} (m : M A) (k : A -> M B) w :
  exec (bind m k) w =
    match m w with
    | (Normal a, w1) => exec (k a) w1
    | (Thrown _, w1) => w1
    end.
Proof. unfold exec, bind. by destruct (m w) as [[a|e] w1]. Qed.

(** *** What each operation does to the timer table *)

#[local] Instance timers_are_frame l : Frame (timers_are l).
Proof. by split. Qed.

#[local] Instance timers_are_fetch_frame l : FetchFrame any_updater (timers_are l).
Proof. by split. Qed.

#[local] Instance timers_are_alloc_frame l : AllocFrame (timers_are l).
Proof. by split. Qed.

#[local] Instance timer_is_frame i T : Frame (timer_is i T).
Proof. by split. Qed.

#[local] Instance timer_is_set_frame i T : SetFrame (timer_is i T).
Proof.
  split; [|done]. intros w tm Hi. unfold timer_is. cbn. by apply lookup_app_l_Some.
Qed.

#[local] Instance timer_is_fetch_frame i T : FetchFrame any_updater (timer_is i T).
Proof. by split. Qed.

#[local] Instance timer_is_alloc_frame i T : AllocFrame (timer_is i T).
Proof. by split. Qed.

Lemma timers_query_subscribe q o w :
  timers (exec (query_subscribe q o) w) =
  timers (cleared (match heap w !! q with Some Q => gcTimeout Q | None => None end) w).
Proof.
  unfold exec. destruct (heap w !! q) as [Q|] eqn:HQ.
  - rewrite (query_subscribe_spec q o w Q HQ). cbn [snd]. by destruct (gcTimeout Q).
  - unfold query_subscribe, bind at 1. rewrite modify_query_spec.
    unfold bind, unscheduleGC, bind, read_query.
    rewrite lookup_upd_query, decide_True, HQ by done. reflexivity.
Qed.

Lemma timers_observer_subscribe o cb r w :
  timers (exec (observer_subscribe o cb r) w) =
  match observers w !! o with
  | Some ob => timers (exec (query_subscribe (query ob) o) w)
  | None => timers w
  end.
Proof.
  unfold observer_subscribe. rewrite exec_bind.
  unfold modify_observer, modify.
  set (w1 := with_observers _ w).
  assert (Hread : read_observer o w1 =
            match observers w !! o with
            | Some ob => (Normal (set_notify (Some cb) ob), w1)
            | None => (Thrown TypeError, w1)
            end).
  { unfold read_observer, w1. cbn [observers with_observers].
    rewrite list_lookup_alter_eq. by destruct (observers w !! o). }
  rewrite exec_bind, Hread. destruct (observers w !! o) as [ob|] eqn:Hob; [|done].
  change (query (set_notify (Some cb) ob)) with (query ob).
  assert (Hsub : timers (exec (query_subscribe (query ob) o) w1)
                 = timers (exec (query_subscribe (query ob) o) w)).
  { rewrite !timers_query_subscribe. change (heap w1) with (heap w).
    destruct (heap w !! query ob) as [Q|]; [destruct (gcTimeout Q)|]; done. }
  rewrite exec_bind. rewrite <- Hsub. unfold exec at 2.
  destruct (query_subscribe (query ob) o w1) as [[u|e] w2]; [|done]. cbn [snd].
  rewrite exec_bind.
  pose proof (maintains_observer_fetch (timers_are (timers w2)) any_updater o r
                (any_starts r) w2 eq_refl) as Hf.
  unfold exec in Hf. by destruct (observer_fetch o r w2) as [[[]|e] w3].
Qed.

Lemma timers_unsubscribe `{Host} u w :
  timers (exec (unsubscribe u) w) = timers w \/
  exists Q, heap w !! unsub_query u = Some Q /\
    timers (exec (unsubscribe u) w) =
      timers w ++ [Some (mkTimer (now w + timer_delay (cacheTime Q)) (unsub_query u))].
Proof.
  unfold exec. destruct (heap w !! unsub_query u) as [Q|] eqn:HQ.
  - rewrite (unsubscribe_spec u w Q HQ). cbn [snd]. cbn zeta.
    destruct (length _ =? 0)%nat; [right; by exists Q|by left].
  - left. unfold unsubscribe, bind at 1. rewrite modify_query_spec.
    unfold bind, read_query. rewrite lookup_upd_query, decide_True, HQ by done.
    reflexivity.
Qed.

Lemma lookup_unsubscribe_ne `{Host} u w q :
  unsub_query u <> q -> heap (exec (unsubscribe u) w) !! q = heap w !! q.
Proof.
  intros Hne. unfold exec. destruct (heap w !! unsub_query u) as [Q|] eqn:HQ.
  - rewrite (unsubscribe_spec u w Q HQ). cbn [snd]. cbn zeta.
    destruct (length _ =? 0)%nat; unfold scheduled;
      rewrite ?lookup_upd_query, ?decide_False by done.
    + etrans; [apply (lookup_upd_query (unsub_query u) _ w q)|by rewrite decide_False].
    + done.
  - unfold unsubscribe, bind at 1. rewrite modify_query_spec.
    unfold bind, read_query. rewrite lookup_upd_query, decide_True, HQ by done.
    etrans; [apply (lookup_upd_query (unsub_query u) _ w q)|by rewrite decide_False].
Qed.

(** *** The stored handles *)

Lemma timer_handles_ok_ext w w' :
  heap w' = heap w -> timers w' = timers w -> timer_handles_ok w -> timer_handles_ok w'.
Proof. intros Hh Ht Hok q Q j. rewrite Hh, Ht. apply Hok. Qed.

Lemma timer_handles_ok_upd_query w q f :
  (forall Q, gcTimeout (f Q) = gcTimeout Q) ->
  timer_handles_ok w -> timer_handles_ok (upd_query q f w).
Proof.
  intros Hf Hok q' Q' j. rewrite lookup_upd_query.
  change (timers (upd_query q f w)) with (timers w).
  case_decide as Hd; [subst q'|apply Hok].
  destruct (heap w !! q) as [Q0|] eqn:HQ0; cbn; [|done]. intros [= <-]. rewrite Hf.
  by apply Hok.
Qed.

#[local] Instance timer_handles_ok_frame : Frame timer_handles_ok.
Proof.
  split.
  - intros w q g. by apply timer_handles_ok_upd_query.
  - intros w l. by apply timer_handles_ok_ext.
  - intros w o cb. by apply timer_handles_ok_ext.
Qed.

#[local] Instance timer_handles_ok_clear_frame : ClearFrame timer_handles_ok.
Proof.
  split. intros w i Hok q Q j HQ Hg. cbn.
  destruct (Hok q Q j HQ Hg) as [Hlt Htm]. split; [by rewrite length_insert|].
  intros tm. rewrite list_lookup_insert_Some. intros [(_ & [=] & _)|[_ Hi]]. by apply Htm.
Qed.

#[local] Instance timer_handles_ok_fetch_frame : FetchFrame any_updater timer_handles_ok.
Proof.
  split.
  - intros w q f _. by apply timer_handles_ok_upd_query.
  - intros w q p. by apply timer_handles_ok_upd_query.
  - intros w l. by apply timer_handles_ok_ext.
Qed.

#[local] Instance timer_handles_ok_alloc_frame : AllocFrame timer_handles_ok.
Proof.
  split.
  - intros host w opts Hok q Q j. cbn. rewrite lookup_app_Some.
    intros [HQ|(_ & HQ)]; [by apply Hok|].
    apply list_lookup_singleton_Some in HQ as [_ <-]. done.
  - intros w q. by apply timer_handles_ok_ext.
  - intros w ob. by apply timer_handles_ok_ext.
Qed.

Lemma timer_handles_ok_scheduled `{Host} q d w :
  timer_handles_ok w -> timer_handles_ok (scheduled q d w).
Proof.
  intros Hok q' Q' j. unfold scheduled. rewrite lookup_upd_query.
  change (timers (upd_query _ _ ?w')) with (timers w').
  change (heap (with_timers _ ?w') !! ?k) with (heap w' !! k).
  cbn [timers with_timers]. rewrite length_app. cbn [length].
  case_decide as Hd.
  - subst q'. destruct (heap w !! q) as [Q0|]; cbn; [|done]. intros [= <-] [= <-].
    split; [lia|]. intros tm. rewrite list_lookup_middle by done. by intros [= <-].
  - intros HQ' Hg. destruct (Hok q' Q' j HQ' Hg) as [Hlt Htm]. split; [lia|].
    intros tm. rewrite lookup_app_l by done. apply Htm.
Qed.

Lemma timer_handles_ok_unsubscribe `{Host} u w :
  timer_handles_ok w -> timer_handles_ok (exec (unsubscribe u) w).
Proof.
  intros Hok. unfold exec. destruct (heap w !! unsub_query u) as [Q|] eqn:HQ.
  - rewrite (unsubscribe_spec u w Q HQ). cbn [snd]. cbn zeta.
    destruct (length _ =? 0)%nat; [apply timer_handles_ok_scheduled|];
      by apply timer_handles_ok_upd_query.
  - unfold unsubscribe, bind at 1. rewrite modify_query_spec.
    unfold bind, read_query. rewrite lookup_upd_query, decide_True, HQ by done.
    cbn. by apply timer_handles_ok_upd_query.
Qed.

Lemma timer_handles_ok_tick dt w :
  timer_handles_ok w -> timer_handles_ok (exec (tick dt) w).
Proof.
  intros Hok q Q j. destruct (tick_spec dt w) as (_ & Hh & _ & _ & _ & Ht & _).
  rewrite Hh, Ht. intros HQ Hg. destruct (Hok q Q j HQ Hg) as [Hlt Htm]. split.
  - unfold expire. by rewrite length_map.
  - intros tm [Hi _]%lookup_expire. by apply Htm.
Qed.

Lemma timer_handles_ok_step `{Host} w op :
  timer_handles_ok w -> timer_handles_ok (step op w).
Proof.
  intros Hok. destruct op as [opts|opts|o cb r|o r|q' o|u|q' r|p x|dt]; cbn [step].
  - by apply (maintains_getQuery timer_handles_ok).
  - by apply (maintains_createQueryObserver timer_handles_ok).
  - by apply (maintains_observer_subscribe timer_handles_ok any_updater);
      [apply any_starts|].
  - by apply (maintains_observer_fetch timer_handles_ok any_updater);
      [apply any_starts|].
  - by apply (maintains_query_subscribe timer_handles_ok).
  - by apply timer_handles_ok_unsubscribe.
  - by apply (maintains_query_fetch timer_handles_ok any_updater);
      [apply any_starts|].
  - by apply (maintains_settle timer_handles_ok any_updater); [apply any_settles|].
  - by apply timer_handles_ok_tick.
Qed.

Lemma reachable_timer_handles_ok `{Host} w : reachable w -> timer_handles_ok w.
Proof.
  induction 1 as [t Ht|w op Hr IH Hok]; [|by apply timer_handles_ok_step].
  intros q Q j HQ. done.
Qed.

(** *** One operation *)

Lemma unsubscribe_or_not op :
  (exists u, op = OpUnsubscribe u) \/ (forall u, op <> OpUnsubscribe u).
Proof. destruct op; try (by right); left; by eexists. Qed.

Lemma tick_or_not op : (exists dt, op = OpTick dt) \/ (forall dt, op <> OpTick dt).
Proof. destruct op; try (by right); left; by eexists. Qed.

Lemma timer_kept_query_subscribe w q o i T :
  timer_handles_ok w -> q <> target T ->
  timer_is i T w -> timer_is i T (exec (query_subscribe q o) w).
Proof.
  intros Hok Hne Hi. unfold timer_is. rewrite timers_query_subscribe.
  destruct (heap w !! q) as [Q|] eqn:HQ; [|done].
  destruct (gcTimeout Q) as [j|] eqn:Hg; [|done]. cbn.
  destruct (Hok q Q j HQ Hg) as [_ Htm].
  rewrite list_lookup_insert_ne; [done|]. intros ->. apply Hne. symmetry. by apply Htm.
Qed.

(** A pending timer stays so through every operation but a subscribe to
    its Query and the passing of time. *)
Lemma timer_kept `{Host} w op i T :
  timer_handles_ok w -> ~ subscribes_to w (target T) op -> (forall dt, op <> OpTick dt) ->
  timer_is i T w -> timer_is i T (step op w).
Proof.
  intros Hok Hns Hnt Hi.
  destruct op as [opts|opts|o cb r|o r|q' o|u|q' r|p x|dt]; cbn [step].
  - by apply (maintains_getQuery (timer_is i T)).
  - by apply (maintains_createQueryObserver (timer_is i T)).
  - unfold timer_is. rewrite timers_observer_subscribe.
    cbn [subscribes_to] in Hns.
    destruct (observers w !! o) as [ob|] eqn:Hob; [|done].
    apply timer_kept_query_subscribe; [done| |done]. intros Heq. apply Hns. cbn.
    by rewrite Heq.
  - by apply (maintains_observer_fetch (timer_is i T) any_updater); [apply any_starts|].
  - apply timer_kept_query_subscribe; [done| |done]. intros Heq. by apply Hns.
  - by apply (maintains_unsubscribe (timer_is i T)).
  - by apply (maintains_query_fetch (timer_is i T) any_updater); [apply any_starts|].
  - by apply (maintains_settle (timer_is i T) any_updater); [apply any_settles|].
  - by destruct (Hnt dt).
Qed.

Lemma timer_is_tick dt w i T :
  timer_is i T (exec (tick dt) w) <-> timer_is i T w /\ now (exec (tick dt) w) < due T.
Proof.
  unfold timer_is. destruct (tick_spec dt w) as (Hn & _ & _ & _ & _ & Ht & _).
  rewrite Ht, Hn. apply lookup_expire.
Qed.

Lemma registered_step `{Host} w op q :
  (forall dt, op <> OpTick dt) -> q ∈ queries w -> q ∈ queries (step op w).
Proof.
  intros Hnt Hin. pose proof (registry_kept w op) as Hk.
  destruct op as [opts|opts|o cb r|o r|q' o|u|q' r|p x|dt]; try by rewrite Hk.
  - cbn [step]. destruct (registry_getQuery opts w) as [[-> _]|(Q0 & -> & _)]; [done|].
    apply elem_of_app. by left.
  - cbn [step].
    destruct (registry_createQueryObserver opts w) as [[-> _]|(Q0 & -> & _)]; [done|].
    apply elem_of_app. by left.
  - by destruct (Hnt dt).
Qed.

Lemma timers_step `{Host} w op j tm :
  wf w -> timers (step op w) !! j = Some (Some tm) ->
  timers w !! j = Some (Some tm) \/
  exists u Q, op = OpUnsubscribe u /\ heap w !! unsub_query u = Some Q /\
    tm = mkTimer (now w + timer_delay (cacheTime Q)) (unsub_query u).
Proof.
  intros Hwf Hj.
  destruct (unsubscribe_or_not op) as [[u ->]|Hnu].
  - cbn [step] in Hj. destruct (timers_unsubscribe u w) as [Ht|(Q & HQ & Ht)];
      rewrite Ht in Hj; [by left|].
    apply lookup_app_Some in Hj as [Hj|(_ & Hj)]; [by left|].
    apply list_lookup_singleton_Some in Hj as [_ [= <-]]. right. by exists u, Q.
  - left. revert Hj. by apply (timers_shrink_step w op Hwf).
Qed.

Lemma no_timer_step `{Host} w op q :
  wf w -> ~ unsubscribes_from q op -> ~ gc_pending w q -> ~ gc_pending (step op w) q.
Proof.
  intros Hwf Hnu Hno (j & tm & Hj & Ht). apply Hno.
  destruct (timers_step w op j tm Hwf Hj) as [Hj'|(u & Q & -> & _ & ->)];
    [by exists j, tm|].
  by destruct Hnu.
Qed.

Lemma only_timer_step `{Host} w op q i :
  wf w -> ~ unsubscribes_from q op -> only_timer q i w -> only_timer q i (step op w).
Proof.
  intros Hwf Hnu Hon j tm Hj Ht.
  destruct (timers_step w op j tm Hwf Hj) as [Hj'|(u & Q & -> & _ & ->)];
    [by apply (Hon j tm)|].
  by destruct Hnu.
Qed.

Lemma due_from_step `{Host} w op q D Q :
  wf w -> heap w !! q = Some Q -> D <= now w + timer_delay (cacheTime Q) ->
  due_from q D w -> due_from q D (step op w).
Proof.
  intros Hwf HQ HD Hdue j tm Hj Ht.
  destruct (timers_step w op j tm Hwf Hj) as [Hj'|(u & Qu & -> & HQu & ->)];
    [by apply (Hdue j tm)|].
  cbn in Ht. subst q. rewrite HQ in HQu. injection HQu as <-. done.
Qed.

#[local] Instance handle_is_frame q g : Frame (handle_is q g).
Proof.
  split; try done. intros w q' f. unfold handle_is. rewrite lookup_upd_query.
  case_decide; [subst q'|done]. by destruct (heap w !! q).
Qed.

#[local] Instance handle_is_clear_frame q g : ClearFrame (handle_is q g).
Proof. by split. Qed.

#[local] Instance handle_is_fetch_frame q g : FetchFrame any_updater (handle_is q g).
Proof.
  split; try done.
  - intros w q' f _. unfold handle_is. rewrite lookup_upd_query.
    case_decide; [subst q'|done]. by destruct (heap w !! q).
  - intros w q' p. unfold handle_is. rewrite lookup_upd_query.
    case_decide; [subst q'|done]. by destruct (heap w !! q).
Qed.

#[local] Instance handle_is_alloc_frame q g : AllocFrame (handle_is q g).
Proof.
  split; try done. intros host w opts. unfold handle_is. cbn.
  destruct (heap w !! q) as [Q|] eqn:HQ; [|done].
  by rewrite (lookup_app_l_Some _ _ _ _ HQ).
Qed.

Lemma handle_is_step `{Host} w op q g :
  ~ unsubscribes_from q op -> handle_is q g w -> handle_is q g (step op w).
Proof.
  intros Hnu Hh. destruct op as [opts|opts|o cb r|o r|q' o|u|q' r|p x|dt]; cbn [step].
  - by apply (maintains_getQuery (handle_is q g)).
  - by apply (maintains_createQueryObserver (handle_is q g)).
  - by apply (maintains_observer_subscribe (handle_is q g) any_updater);
      [apply any_starts|].
  - by apply (maintains_observer_fetch (handle_is q g) any_updater); [apply any_starts|].
  - by apply (maintains_query_subscribe (handle_is q g)).
  - unfold handle_is. rewrite lookup_unsubscribe_ne; [done|]. intros Heq. by apply Hnu.
  - by apply (maintains_query_fetch (handle_is q g) any_updater); [apply any_starts|].
  - by apply (maintains_settle (handle_is q g) any_updater); [apply any_settles|].
  - unfold handle_is. destruct (tick_spec dt w) as (_ & -> & _). done.
Qed.

(** A subscribe to [q] clears the timer whose handle [q] stores. *)
Lemma timers_subscribe `{Host} w op q i :
  handle_is q (Some i) w -> subscribes_to w q op ->
  timers (step op w) = <[i := None]> (timers w).
Proof.
  unfold handle_is. intros Hh Hsub.
  destruct op as [opts|opts|o cb r|o r|q' o|u|q' r|p x|dt]; try done;
    cbn [subscribes_to] in Hsub; cbn [step].
  - rewrite timers_observer_subscribe.
    destruct (observers w !! o) as [ob|]; [|done]. cbn in Hsub. injection Hsub as <-.
    rewrite timers_query_subscribe.
    destruct (heap w !! query ob) as [Q|]; [|done]. cbn in Hh. by injection Hh as ->.
  - subst q'. rewrite timers_query_subscribe.
    destruct (heap w !! q) as [Q|]; [|done]. cbn in Hh. by injection Hh as ->.
Qed.

Lemma subscribe_cancels `{Host} w op q i :
  handle_is q (Some i) w -> only_timer q i w -> subscribes_to w q op ->
  ~ gc_pending (step op w) q.
Proof.
  intros Hh Hon Hsub (j & tm & Hj & Ht).
  rewrite (timers_subscribe w op q i Hh Hsub) in Hj.
  apply list_lookup_insert_Some in Hj as [(_ & [=] & _)|[Hne Hj]].
  apply Hne. symmetry. by apply (Hon j tm).
Qed.

(** *** Runs *)

(** A Query without a pending timer keeps its place and gets no timer as
    long as no unsubscribe closure of it is called. *)
Lemma no_timer_run `{Host} q ops : forall w,
  reachable w -> run_of (no_unsubscribe q) ops w -> ~ gc_pending w q -> q ∈ queries w ->
  ~ gc_pending (steps ops w) q /\ q ∈ queries (steps ops w).
Proof.
  induction ops as [|op ops IH]; intros w Hr Hrun Hno Hin; [done|].
  cbn [run_of] in Hrun. destruct Hrun as (Hok & Hal & Hrun). rewrite steps_cons.
  apply IH; [by apply reach_step|done|by apply no_timer_step; [apply reachable_wf|..]|].
  destruct (tick_or_not op) as [[dt ->]|Hnt].
  - by apply tick_keeps_query.
  - by apply registered_step.
Qed.

Lemma untouched_run `{Host} q i ops : forall w,
  reachable w -> run_of (untouched q) ops w -> handle_is q (Some i) w -> only_timer q i w ->
  handle_is q (Some i) (steps ops w) /\ only_timer q i (steps ops w).
Proof.
  induction ops as [|op ops IH]; intros w Hr Hrun Hh Hon; [done|].
  cbn [run_of] in Hrun. destruct Hrun as (Hok & [Hns Hnu] & Hrun). rewrite steps_cons.
  apply IH; [by apply reach_step|done|by apply handle_is_step|].
  by apply only_timer_step; [apply reachable_wf|..].
Qed.

Lemma gc_waiting_step `{Host} q i D w0 w op Q0 :
  heap w0 !! q = Some Q0 -> D <= now w0 + timer_delay (cacheTime Q0) ->
  op_ok w op -> ~ subscribes_to w q op ->
  gc_waiting q i D w0 w -> gc_waiting q i D w0 (step op w).
Proof.
  intros HQ0 HD Hok Hns [Hr Hobj Hnow Hdue Hpend Hfired Hreg].
  pose proof (reachable_wf w Hr) as Hwf.
  pose proof (now_step w op) as Hmono.
  destruct (objects_live_on_query w0 w q Q0 Hobj HQ0) as (Q & HQ & Hid).
  assert (Hct : cacheTime Q = cacheTime Q0)
    by (unfold query_identity in Hid; by injection Hid).
  split.
  - by apply reach_step.
  - by apply objects_live_on_step.
  - lia.
  - apply (due_from_step w op q D Q); [done|done|rewrite Hct; lia|done].
  - intros Hlt. assert (Hi : timer_is i (mkTimer D q) w) by (apply Hpend; lia).
    destruct (tick_or_not op) as [[dt ->]|Hnt].
    + cbn [step] in *. apply timer_is_tick. by split.
    + by apply timer_kept; [apply reachable_timer_handles_ok|..].
  - destruct Hfired as [Hi|Hout].
    + destruct (tick_or_not op) as [[dt ->]|Hnt].
      * cbn [step].
        destruct (decide (now (exec (tick dt) w) < D)) as [Hlt|Hge].
        -- left. apply timer_is_tick. by split.
        -- right. intros [_ Hnone]%elem_of_queries_tick. apply Hnone.
           destruct (tick_spec dt w) as (Hn & _). rewrite Hn in Hge.
           exists i, (mkTimer D q). split_and!; [done|cbn; lia|done].
      * left. by apply timer_kept; [apply reachable_timer_handles_ok|..].
    + right. by apply evicted_step; [eexists|].
  - intros Hin Hlt. assert (Hin' : q ∈ queries w) by (apply Hreg; [done|lia]).
    destruct (tick_or_not op) as [[dt ->]|Hnt].
    + cbn [step] in *. apply elem_of_queries_tick. split; [done|].
      intros (j & tm & Hj & Hd & Ht). pose proof (Hdue j tm Hj Ht).
      destruct (tick_spec dt w) as (Hn & _). rewrite Hn in Hlt. lia.
    + by apply registered_step.
Qed.

Lemma gc_waiting_run `{Host} q i D w0 Q0 ops : forall w,
  heap w0 !! q = Some Q0 -> D <= now w0 + timer_delay (cacheTime Q0) ->
  run_of (no_subscribe q) ops w ->
  gc_waiting q i D w0 w -> gc_waiting q i D w0 (steps ops w).
Proof.
  induction ops as [|op ops IH]; intros w HQ0 HD Hrun Hw; [done|].
  cbn [run_of] in Hrun. destruct Hrun as (Hok & Hns & Hrun). rewrite steps_cons.
  apply IH; try done. by apply (gc_waiting_step q i D w0 w op Q0).
Qed.

(** C3 (as the code has it). In every reachable world: unscheduling is
    idempotent; no operation but the call of an unsubscribe closure makes a
    GC timer pending; a Query just created has none; and a Query without a
    pending GC timer gets none and keeps its place in the registry through
    every run of operations in which no unsubscribe closure of it is
    called, whatever time passes, so that a Query that never had a
    subscriber stays. An unsubscribe that leaves subscribers sets no timer.
    An unsubscribe that empties the subscriber list of a Query without a
    pending GC timer sets one timer and stores its handle. The timer is due
    after the delay that [setTimeout] keeps of [cacheTime]: [cacheTime]
    itself from 1 to 2^31 - 1 ms, what the host puts in its place
    otherwise. Through every run of operations without a subscribe to the
    Query, this timer is pending and the Query registered while the clock
    is before the due time, and once the passing of time has taken the
    clock to the due time the Query is out of the registry, for good. A
    subscribe to the Query, by [query.subscribe] or by [observer.subscribe]
    of one of its Observers, that comes after a run without a subscribe to
    it or a call of an unsubscribe closure of it, leaves no GC timer of the
    Query pending; if the clock was before the due time, the Query then
    stays registered through every run in which no unsubscribe closure of it
    is called. *)
Theorem C3_gc_lifecycle `{Host} (w : World) (q : QueryId) (Q : Query) :
  reachable w -> heap w !! q = Some Q ->
  exec (unscheduleGC q) (exec (unscheduleGC q) w) = exec (unscheduleGC q) w /\
  (forall op, (forall u, op <> OpUnsubscribe u) ->
     gc_pending (step op w) q -> gc_pending w q) /\
  (forall opts,
     find (hash_matches w (JSON_stringify (opt_queryKey opts))) (queries w) = None ->
     ~ gc_pending (exec (getQuery opts) w) (length (heap w))) /\
  (~ gc_pending w q -> q ∈ queries w ->
     forall ops, run_of (no_unsubscribe q) ops w ->
       ~ gc_pending (steps ops w) q /\ q ∈ queries (steps ops w)) /\
  (forall o, filter (fun d => d <> o) (subscribers Q) <> [] ->
     timers (exec (unsubscribe (mkUnsubscribe q o)) w) = timers w) /\
  (forall o, filter (fun d => d <> o) (subscribers Q) = [] -> ~ gc_pending w q ->
     let w1 := exec (unsubscribe (mkUnsubscribe q o)) w in
     let D := now w + timer_delay (cacheTime Q) in
     let i := length (timers w) in
     (1 <= cacheTime Q <= TIMEOUT_MAX -> D = now w + cacheTime Q) /\
     timers w1 = timers w ++ [Some (mkTimer D q)] /\
     (exists Q1, heap w1 !! q = Some Q1 /\ subscribers Q1 = [] /\
                 gcTimeout Q1 = Some i) /\
     (forall ops, run_of (no_subscribe q) ops w1 ->
        let w' := steps ops w1 in
        (now w' < D ->
           timers w' !! i = Some (Some (mkTimer D q)) /\
           (q ∈ queries w -> q ∈ queries w')) /\
        (forall dt ops', D <= now (step (OpTick dt) w') ->
           q ∉ queries (steps ops' (step (OpTick dt) w')))) /\
     (forall ops op, run_of (untouched q) ops w1 ->
        let w' := steps ops w1 in
        subscribes_to w' q op -> op_ok w' op ->
        let w2 := step op w' in
        ~ gc_pending w2 q /\
        (q ∈ queries w -> now w' < D ->
           forall ops', run_of (no_unsubscribe q) ops' w2 ->
             ~ gc_pending (steps ops' w2) q /\ q ∈ queries (steps ops' w2)))).
Proof.
  intros Hr HQ. pose proof (reachable_wf w Hr) as Hwf. split_and!.
  - apply unscheduleGC_idem.
  - intros op Hop. apply gc_pending_shrink. by apply timers_shrink_step.
  - intros opts Hf (i & tm & Hi & Ht).
    unfold exec in Hi. rewrite (getQuery_fresh opts w Hf) in Hi. cbn in Hi.
    destruct (wf_timers w Hwf i tm Hi) as [Q' HQ'].
    apply lookup_lt_Some in HQ'. lia.
  - intros Hno Hin ops Hrun. by apply no_timer_run.
  - intros o Hne. unfold exec.
    rewrite (unsubscribe_spec (mkUnsubscribe q o) w Q HQ). cbn [snd]. cbn zeta.
    cbn [unsub_query unsub_subscriber].
    destruct (filter _ (subscribers Q)) as [|a l]; [done|]. reflexivity.
  - intros o Hnil Hno.
    set (w1 := exec (unsubscribe (mkUnsubscribe q o)) w).
    set (D := now w + timer_delay (cacheTime Q)).
    set (i := length (timers w)).
    destruct (unsubscribe_last (mkUnsubscribe q o) w Q HQ Hnil) as (Ht & HQ1 & Hqs & Hn).
    cbn [unsub_query unsub_subscriber] in *.
    fold w1 in Ht, HQ1, Hqs, Hn. fold D in Ht. fold i in HQ1.
    set (T := mkTimer D q) in *.
    set (Q1 := set_gcTimeout (Some i) (set_subscribers [] Q)) in *.
    assert (Hr1 : reachable w1)
      by exact (reach_step w (OpUnsubscribe (mkUnsubscribe q o)) Hr I).
    assert (Hnew : timer_is i T w1)
      by (unfold timer_is; rewrite Ht; by apply list_lookup_middle).
    assert (Hold : only_timer q i w1).
    { intros j tm Hj Htq. rewrite Ht in Hj.
      apply lookup_app_Some in Hj as [Hj|(Hge & Hj)].
      - destruct Hno. by exists j, tm.
      - apply list_lookup_singleton_Some in Hj as [Hj0 _]. unfold i. lia. }
    assert (Hh1 : handle_is q (Some i) w1) by (unfold handle_is; by rewrite HQ1).
    assert (Hw1 : gc_waiting q i D w1 w1).
    { split; [done|apply objects_live_on_refl|lia| |done|by left|done].
      intros j tm Hj Htq. pose proof (Hold j tm Hj Htq) as ->.
      unfold timer_is in Hnew. rewrite Hnew in Hj. injection Hj as <-. cbn. lia. }
    assert (HD : D <= now w1 + timer_delay (cacheTime Q1))
      by (rewrite Hn; unfold D, Q1; cbn; lia).
    assert (Hrun : forall ops, run_of (no_subscribe q) ops w1 ->
              gc_waiting q i D w1 (steps ops w1)).
    { intros ops Hops. by apply (gc_waiting_run q i D w1 Q1 ops w1). }
    split_and!.
    + intros [Hlo Hhi]. unfold D, timer_delay.
      by rewrite (proj2 (Z.leb_le _ _) Hlo), (proj2 (Z.leb_le _ _) Hhi).
    + done.
    + by exists Q1.
    + intros ops Hops. set (w' := steps ops w1).
      pose proof (Hrun ops Hops) as Hw'. fold w' in Hw'. split.
      * intros Hlt. split; [by apply (gw_pending q i D w1 w' Hw')|].
        intros Hin. apply (gw_registered q i D w1 w' Hw'); [by rewrite Hqs|done].
      * intros dt ops' Hge.
        assert (Hw'' : gc_waiting q i D w1 (step (OpTick dt) w'))
          by (apply (gc_waiting_step q i D w1 w' (OpTick dt) Q1); try done; by intros []).
        destruct (objects_live_on_query w1 _ q Q1
                    (gw_objects q i D w1 _ Hw'') HQ1) as (Q'' & HQ'' & _).
        apply evicted_steps; [by eexists|].
        destruct (gw_fired q i D w1 _ Hw'') as [Hi|Hout]; [|done].
        cbn [step] in Hi, Hge. apply timer_is_tick in Hi as [_ Hlt]. cbn [due] in Hlt. lia.
    + intros ops op Hops. set (w' := steps ops w1). intros Hsub Hok.
      set (w2 := step op w').
      destruct (untouched_run q i ops w1 Hr1 Hops Hh1 Hold) as [Hh' Hon'].
      fold w' in Hh', Hon'.
      assert (Hw' : gc_waiting q i D w1 w').
      { apply Hrun. revert Hops. apply run_of_impl. by intros w0 op0 [Hns _]. }
      assert (Hno2 : ~ gc_pending w2 q) by (by apply (subscribe_cancels w' op q i)).
      split; [done|]. intros Hin Hlt ops' Hops'.
      apply no_timer_run; [|done|done|].
      * apply reach_step; [exact (gw_reachable q i D w1 w' Hw')|done].
      * assert (Hq2 : queries w2 = queries w').
        { pose proof (registry_kept w' op) as Hk. by destruct op. }
        rewrite Hq2. apply (gw_registered q i D w1 w' Hw'); [by rewrite Hqs|done].
Qed.

Lemma C3_gc_lifecycle_witness :
  @reachable example_host ex_loaded /\
  (exists Q, heap ex_loaded !! 0%nat = Some Q /\
     filter (fun d => d <> 0%nat) (subscribers Q) = [] /\ cacheTime Q = 6000) /\
  ~ gc_pending ex_loaded 0 /\
  (let w1 := @exec unit (@unsubscribe example_host (mkUnsubscribe 0 0)) ex_loaded in
   timers w1 = [Some (mkTimer 7050 0)] /\
   0%nat ∈ queries (@steps example_host [OpTick 2000; OpObserverFetch 0 Returns; OpTick 3999] w1) /\
   (0%nat ∉ queries (@steps example_host [OpObserverFetch 0 Returns]
                       (@step example_host (OpTick 3000)
                          (@steps example_host [OpTick 3000] w1)))) /\
   0%nat ∈ queries (@steps example_host [OpTick 6000]
                      (@step example_host (OpObserverSubscribe 0 "rerender" Returns)
                         (@steps example_host [OpTick 3000] w1)))).
Proof.
  assert (Hno : ~ gc_pending ex_loaded 0).
  { intros (i & tm & Hi & _). vm_compute in Hi. by destruct i. }
  split; [apply reachable_ex_loaded|]. split.
  { eexists. split; [reflexivity|]. split; reflexivity. }
  split; [exact Hno|].
  destruct (@C3_gc_lifecycle example_host ex_loaded 0%nat _ reachable_ex_loaded eq_refl)
    as (_ & _ & _ & _ & _ & Hlast).
  destruct (Hlast 0%nat eq_refl Hno) as (_ & Ht & _ & Hwait & Hcancel).
  assert (Hin : 0%nat ∈ queries ex_loaded) by (by left).
  split_and!.
  - exact Ht.
  - apply (Hwait [OpTick 2000; OpObserverFetch 0 Returns; OpTick 3999]);
      [cbn; unfold no_subscribe; cbn; tauto|vm_compute; reflexivity|exact Hin].
  - apply (Hwait [OpTick 3000]); [cbn; unfold no_subscribe; cbn; tauto|].
    vm_compute. discriminate.
  - apply (Hcancel [OpTick 3000] (OpObserverSubscribe 0 "rerender" Returns));
      [cbn; unfold untouched; cbn; tauto|vm_compute; reflexivity|exact I|exact Hin
      |vm_compute; reflexivity|cbn; unfold no_unsubscribe; cbn; tauto].
Defined.

(** C3 as stated fails. A Query that was looked up and never subscribed to
    has no subscriber for [cacheTime] (6000 ms) and is still registered: no
    timer was ever set for it. And a second call of the unsubscribe closure
    sets a second timer without cancelling the first: the subscribe that
    comes 3000 ms later cancels only the second, the first fires at
    [cacheTime], and the Query is out of the registry while the Observer is
    in its subscriber list. *)
Lemma C3_counterexample :
  (@reachable example_host ex_looked_up /\
   subs_of ex_looked_up 0 = [] /\
   (cacheTime <$> heap ex_looked_up !! 0%nat) = Some 6000 /\
   subs_of (exec (tick 6000) ex_looked_up) 0 = [] /\
   0%nat ∈ queries (exec (tick 6000) ex_looked_up)) /\
  (@reachable example_host ex_evicted /\
   timers ex_unmounted_twice
     = [Some (mkTimer 7050 0); Some (mkTimer 7050 0)] /\
   now ex_remounted = 4050 /\ subs_of ex_remounted 0 = [0%nat] /\
   timers ex_remounted = [Some (mkTimer 7050 0); None] /\
   subs_of ex_evicted 0 = [0%nat] /\ queries ex_evicted = []).
Proof.
  split.
  - split; [apply (reach_step ex_new); [apply reach_new; lia|exact I]|].
    split_and!; try reflexivity. vm_compute. by left.
  - split; [|by split_and!].
    apply (reach_step ex_remounted); [|exact I].
    apply (reach_step (@step example_host (OpTick 3000) ex_unmounted_twice)); [|exact I].
    apply (reach_step ex_unmounted_twice); [|exact I].
    apply (reach_step (@step example_host (OpUnsubscribe (mkUnsubscribe 0 0)) ex_loaded));
      [|exact I].
    apply (reach_step ex_loaded); [apply reachable_ex_loaded|exact I].
Qed.

(** A [cacheTime] of 2^31 ms is out of the range of [setTimeout]: with the
    timers of a browser the Query is evicted in the turn of the event loop
    that follows the unmount, with those of Node.js one millisecond on. *)
Example gc_delay_out_of_range :
  (cacheTime <$> heap (@steps example_host ex_long_run ex_new) !! 0%nat)
    = Some 2147483648 /\
  timers (@steps example_host ex_long_run ex_new) = [Some (mkTimer 1050 0)] /\
  queries (@steps example_host (ex_long_run ++ [OpTick 0]) ex_new) = [] /\
  timers (@steps node_host ex_long_run ex_new) = [Some (mkTimer 1051 0)] /\
  queries (@steps node_host (ex_long_run ++ [OpTick 0]) ex_new) = [0%nat] /\
  queries (@steps node_host (ex_long_run ++ [OpTick 1]) ex_new) = [].
Proof. vm_compute. by split_and!. Qed.
